(** * FluidC+ : density propagation with restart-based seed search

    A shallow embedding of [fluidc_plus.py] (the Propagation Engine
    [fluidc_modified] and the Restart Controller [fluidc_plus]) and of the
    two helpers of [utils.py] they call ([_invert_dict], [nodes_color]).

    Python values are modelled as follows.
    - [int] is [Z]; vertices and community labels are Python ints.
    - [float] is the kernel's binary64 [float] (IEEE 754, as CPython's).
    - [dict] is an association list in insertion order with distinct keys:
      writing an existing key replaces its value in place, writing a new key
      appends it, exactly the iteration order Python guarantees.
    - an exception is a value of [exn]; a computation is an [outcome]. *)

From Stdlib Require Import String.
From Stdlib Require Import ZArith List Bool Lia Floats Permutation FinFun.
From Stdlib Require Import Sorted.
Import ListNotations.
Local Open Scope Z_scope.

(** ** Exceptions and outcomes *)

Inductive exn : Set :=
| KeyError
| ZeroDivisionError
| OverflowError
| IndexError
| TypeError
| ValueError.

(** [OutOfFuel] is not a Python outcome: it marks a loop of the model cut
    short by its fuel.  The entry points are run with enough fuel, see
    [fluidc_modified_run_fuel] and [fluidc_plus_run_fuel]. *)
Inductive outcome (A : Type) : Type :=
| Ok (a : A)
| Raise (e : exn)
| OutOfFuel.

Arguments Ok {A} a.
Arguments Raise {A} e.
Arguments OutOfFuel {A}.

Definition bind {A B : Type} (r : outcome A) (k : A -> outcome B) : outcome B :=
  match r with
  | Ok a => k a
  | Raise e => Raise e
  | OutOfFuel => OutOfFuel
  end.

Notation "x <- r ;; k" := (bind r (fun x => k))
  (at level 61, r at next level, right associativity).
Notation "' p <- r ;; k" := (bind r (fun p => k))
  (at level 61, p pattern, r at next level, right associativity).

(** ** Dictionaries keyed by ints *)

Section Dict.
Context {V : Type}.

Definition dict : Type := list (Z * V).

Fixpoint dict_get (d : dict) (k : Z) : option V :=
  match d with
  | [] => None
  | (k', v) :: d' => if k' =? k then Some v else dict_get d' k
  end.

(** [d[k] = v] *)
Fixpoint dict_set (d : dict) (k : Z) (v : V) : dict :=
  match d with
  | [] => [(k, v)]
  | (k', v') :: d' =>
      if k' =? k then (k', v) :: d' else (k', v') :: dict_set d' k v
  end.

(** [d[k]] as an expression: raises [KeyError] on a missing key. *)
Definition getitem (d : dict) (k : Z) : outcome V :=
  match dict_get d k with
  | Some v => Ok v
  | None => Raise KeyError
  end.

Definition keys (d : dict) : list Z := map fst d.
Definition values (d : dict) : list V := map snd d.

(** [a | b] (and [a.update(b)]): the items of [b] written into [a] in order. *)
Definition dict_union (a b : dict) : dict :=
  fold_left (fun acc kv => dict_set acc (fst kv) (snd kv)) b a.
End Dict.

Arguments dict V : clear implicits.

Definition mem (x : Z) (l : list Z) : bool := existsb (Z.eqb x) l.

(** ** Numbers *)

(** The double nearest to an int (round to nearest, ties to even). *)
Definition float_of_int (n : Z) : float :=
  SF2Prim (binary_normalize prec emax n 0 false).

(** The least magnitude that rounds beyond the largest double. *)
Definition float_overflow : Z := 2 ^ 1024 - 2 ^ 970.

(** [x / n] for a float [x] and an int [n]: the int is converted first
    ([OverflowError] when it has no double), then the divisor is tested. *)
Definition truediv (x : float) (n : Z) : outcome float :=
  if float_overflow <=? Z.abs n then Raise OverflowError
  else if n =? 0 then Raise ZeroDivisionError
  else Ok (x / float_of_int n)%float.

(** The literal [0.0001] of the near-tie test. *)
Definition tolerance : float := 0x1.a36e2eb1c432dp-14%float.

(** [max(xs)] on a non-empty sequence [x :: xs]: the first maximal item. *)
Definition py_max (x : float) (xs : list float) : float :=
  fold_left (fun m y => if (m <? y)%float then y else m) xs x.

(** [np.argmin] on [x :: xs], scanning from index [i]: the first index of the
    least item.  [best] is the index found so far and [m] its value. *)
Fixpoint argmin_from (i best : nat) (m : float) (xs : list float) : nat :=
  match xs with
  | [] => best
  | y :: ys =>
      if (y <? m)%float then argmin_from (S i) i y ys
      else argmin_from (S i) best m ys
  end.

Definition argmin (xs : list float) : nat :=
  match xs with
  | [] => O
  | x :: xs' => argmin_from 1 0 x xs'
  end.

(** ** utils.py *)

(** [_invert_dict]: label -> vertices carrying it, labels in order of first
    appearance, vertices in the order of [orig_dict]. *)
Definition _invert_dict (orig_dict : dict Z) : dict (list Z) :=
  fold_left
    (fun return_dict vk =>
       match dict_get return_dict (snd vk) with
       | Some l => dict_set return_dict (snd vk) (l ++ [fst vk])
       | None => dict_set return_dict (snd vk) [fst vk]
       end)
    orig_dict [].

(** [l[j] = x] on a list: a negative index counts from the end. *)
Definition list_setitem (l : list Z) (j x : Z) : outcome (list Z) :=
  let n := Z.of_nat (length l) in
  let i := if j <? 0 then j + n else j in
  if (0 <=? i) && (i <? n)
  then Ok (firstn (Z.to_nat i) l ++ x :: skipn (S (Z.to_nat i)) l)
  else Raise IndexError.

Fixpoint color_group (color_list : list Z) (color : Z) (node_idxs : list Z)
  : outcome (list Z) :=
  match node_idxs with
  | [] => Ok color_list
  | j :: rest =>
      color_list' <- list_setitem color_list j color ;;
      color_group color_list' color rest
  end.

Fixpoint color_groups (color_list : list Z) (color : Z)
  (communities : list (list Z)) : outcome (list Z) :=
  match communities with
  | [] => Ok color_list
  | node_idxs :: rest =>
      color_list' <- color_group color_list color node_idxs ;;
      color_groups color_list' (color + 1) rest
  end.

(** The graph is its adjacency mapping, nodes in insertion order. *)
Definition graph : Type := dict (list Z).

Definition nodes_color (in_graph : graph) (communities : list (list Z))
  : outcome (list Z) :=
  color_groups (repeat 0 (length in_graph)) 0 communities.

(** ** The Propagation Engine: [fluidc_modified] *)

(** What the engine reads and mutates: the labelling [communities] and the
    two bookkeeping mappings it shares with its caller. *)
Record engine_state : Type := mk_engine {
  communities : dict Z;
  density : dict float;
  com_to_numvertices : dict Z
}.

(** [Counter.update({c: w})]: an empty counter takes the item as it is, a
    non-empty one stores [w + self.get(c, 0)]. *)
Definition counter_update (com_counter : dict float) (c : Z) (w : float)
  : dict float :=
  match com_counter with
  | [] => [(c, w)]
  | _ :: _ =>
      match dict_get com_counter c with
      | Some old => dict_set com_counter c (w + old)%float
      | None => dict_set com_counter c (w + 0)%float
      end
  end.

(** One guarded vote,
    [try: com_counter.update({communities[v]: density[communities[v]]})
     except KeyError: pass]. *)
Definition vote (st : engine_state) (com_counter : dict float) (v : Z)
  : dict float :=
  match dict_get (communities st) v with
  | None => com_counter
  | Some c =>
      match dict_get (density st) c with
      | None => com_counter
      | Some w => counter_update com_counter c w
      end
  end.

(** The votes gathered at [vertex]: its own, then its neighbours' in the
    order of the adjacency. *)
Definition gather (st : engine_state) (vertex : Z) (nbrs : list Z)
  : dict float :=
  fold_left (vote st) nbrs (vote st [] vertex).

(** The communities within [tolerance] of the best vote. *)
Definition best_communities_of (com_counter : dict float) : list Z :=
  match values com_counter with
  | [] => []
  | x :: xs =>
      let max_freq := py_max x xs in
      map fst
        (filter (fun cf => (max_freq - snd cf <? tolerance)%float) com_counter)
  end.

(** [new_com] after the stability test: the current label when it is among
    the best, the sentinel [-1] otherwise. *)
Definition preserved (st : engine_state) (vertex : Z)
  (best_communities : list Z) : Z :=
  match dict_get (communities st) vertex with
  | Some c => if mem c best_communities then c else -1
  | None => -1
  end.

Fixpoint com_densities_of (max_density : float) (counts : dict Z)
  (best_communities : list Z) : outcome (list float) :=
  match best_communities with
  | [] => Ok []
  | b :: rest =>
      n <- getitem counts b ;;
      d <- truediv max_density n ;;
      ds <- com_densities_of max_density counts rest ;;
      Ok (d :: ds)
  end.

(** The community a relabelled vertex adopts. *)
Definition choose (max_density : float) (counts : dict Z)
  (best_communities : list Z) : outcome Z :=
  if (1 <? length best_communities)%nat then
    com_densities <- com_densities_of max_density counts best_communities ;;
    Ok (nth (argmin com_densities) best_communities 0)
  else
    match best_communities with
    | b :: _ => Ok b
    | [] => Raise IndexError
    end.

(** "Update previous community status": the guarded block of the departed
    community; a [KeyError] leaves both mappings alone. *)
Definition depart (max_density : float) (st : engine_state) (vertex : Z)
  : outcome engine_state :=
  match dict_get (communities st) vertex with
  | None => Ok st
  | Some c =>
      match dict_get (com_to_numvertices st) c with
      | None => Ok st
      | Some n =>
          d <- truediv max_density (n - 1) ;;
          Ok (mk_engine (communities st)
                (dict_set (density st) c d)
                (dict_set (com_to_numvertices st) c (n - 1)))
      end
  end.

(** "Update new community status". *)
Definition arrive (max_density : float) (st : engine_state)
  (vertex new_com : Z) : outcome engine_state :=
  let communities' := dict_set (communities st) vertex new_com in
  n <- getitem (com_to_numvertices st) new_com ;;
  d <- truediv max_density (n + 1) ;;
  Ok (mk_engine communities'
        (dict_set (density st) new_com d)
        (dict_set (com_to_numvertices st) new_com (n + 1))).

(** The body of [for vertex in vertices]; the flag tells whether it set
    [cont]. *)
Definition update_vertex (G : graph) (max_density : float)
  (st : engine_state) (vertex : Z) : outcome (engine_state * bool) :=
  nbrs <- getitem G vertex ;;
  let com_counter := gather st vertex nbrs in
  match com_counter with
  | [] => Ok (st, false)
  | _ :: _ =>
      let best_communities := best_communities_of com_counter in
      if preserved st vertex best_communities =? -1 then
        new_com <- choose max_density (com_to_numvertices st) best_communities ;;
        st1 <- depart max_density st vertex ;;
        st2 <- arrive max_density st1 vertex new_com ;;
        Ok (st2, true)
      else Ok (st, false)
  end.

(** One pass over [vertices]; [cont] accumulates. *)
Fixpoint sweep (G : graph) (max_density : float) (vertices : list Z)
  (st : engine_state) (cont : bool) : outcome (engine_state * bool) :=
  match vertices with
  | [] => Ok (st, cont)
  | vertex :: rest =>
      '(st', changed) <- update_vertex G max_density st vertex ;;
      sweep G max_density rest st' (cont || changed)
  end.

(** The [while cont] loop.  Returns the final state with [iter_count], the
    number of passes made. *)
Fixpoint passes (fuel : nat) (G : graph) (max_density : float)
  (vertices : list Z) (max_iter : Z) (iter_count : Z) (st : engine_state)
  : outcome (engine_state * Z) :=
  match fuel with
  | O => OutOfFuel
  | S fuel' =>
      let iter_count := iter_count + 1 in
      '(st', cont) <- sweep G max_density vertices st false ;;
      if max_iter <? iter_count then Ok (st', iter_count)
      else if cont
           then passes fuel' G max_density vertices max_iter iter_count st'
           else Ok (st', iter_count)
  end.

(** Passes the loop can make before [iter_count > max_iter] stops it. *)
Definition engine_fuel (max_iter : Z) : nat := S (Z.to_nat max_iter).

(** The engine with everything it leaves behind: the mutated state (the
    caller keeps [density] and [com_to_numvertices]) and the pass count. *)
Definition fluidc_modified_run (G : graph) (vertices : list Z)
  (communities0 : dict Z) (density0 : dict float) (max_density : float)
  (com_to_numvertices0 : dict Z) (max_iter : Z)
  : outcome (engine_state * Z) :=
  passes (engine_fuel max_iter) G max_density vertices max_iter 0
    (mk_engine communities0 density0 com_to_numvertices0).

Definition groups_of (st : engine_state) : list (list Z) :=
  values (_invert_dict (communities st)).

Definition fluidc_modified (G : graph) (vertices : list Z)
  (communities0 : dict Z) (density0 : dict float) (max_density : float)
  (com_to_numvertices0 : dict Z) (max_iter : Z) : outcome (list (list Z)) :=
  '(st, _) <- fluidc_modified_run G vertices communities0 density0
                max_density com_to_numvertices0 max_iter ;;
  Ok (groups_of st).

(** ** The Restart Controller: [fluidc_plus] *)

(** [l[:k]] *)
Definition slice_to (l : list Z) (k : Z) : list Z :=
  if k <? 0 then firstn (Z.to_nat (Z.of_nat (length l) + k)) l
  else firstn (Z.to_nat k) l.

(** [{n: i for i, n in enumerate(l)}], counting from [i]. *)
Fixpoint enumerate_dict (i : Z) (l : list Z) (acc : dict Z) : dict Z :=
  match l with
  | [] => acc
  | n :: rest => enumerate_dict (i + 1) rest (dict_set acc n i)
  end.

(** [G.degree]: a self-loop counts twice. *)
Definition degree (v_nbrs : Z * list Z) : Z :=
  Z.of_nat (length (snd v_nbrs))
  + (if mem (fst v_nbrs) (snd v_nbrs) then 1 else 0).

(** [sorted(G.degree, key=lambda x: x[1], reverse=True)], a stable sort:
    nodes of equal degree keep the order of the graph. *)
Fixpoint insert_by_degree (x : Z * list Z) (l : list (Z * list Z))
  : list (Z * list Z) :=
  match l with
  | [] => [x]
  | y :: l' =>
      if degree x <? degree y then y :: insert_by_degree x l' else x :: l
  end.

Definition sorted_by_degree (G : graph) : list Z :=
  map fst (fold_right insert_by_degree [] G).

(** [list(set(current_community) - set(removed_list))].  The order Python
    gives the result is unspecified; the draw below ranges over every
    position, so each order is covered by some random source. *)
Fixpoint set_minus (current_community removed_list : list Z) : list Z :=
  match current_community with
  | [] => []
  | v :: rest =>
      if mem v removed_list || mem v rest
      then set_minus rest removed_list
      else v :: set_minus rest removed_list
  end.

(** What [fluidc_plus] keeps between restarts.  [draws] counts the calls
    of [random.choice] so far. *)
Record state : Type := mk_state {
  seed_set : dict Z;
  bad_seed_set : dict Z;
  seed_init_num : Z;
  iter : Z;
  shared_density : dict float;
  shared_com_to_numvertices : dict Z;
  old_communities : option (list Z);
  new_communities : option (list (list Z));
  nmi_list : list float;
  min_NMI : float;
  draws : nat
}.

(** The loop variables of "Discard and create a new seed set". *)
Record seeding : Type := mk_seeding {
  next_seed_set : dict Z;
  community_idx : nat;
  removed_list : list Z;
  exhausted : bool;
  next_draws : nat
}.

Section Controller.
(** The external collaborators: the similarity scorer, the initial
    shuffle, and the raw draws behind [random.choice]. *)
Variable nmi : list Z -> list Z -> float.
Variable shuffle : list Z -> list Z.
Variable rand : nat -> nat.

Variable G : graph.
Variable k : Z.
Variable max_iter : Z.

Definition max_density : float := 1%float.

(** [random.choice(l)] at the [n]-th draw, [l] not empty. *)
Definition choice (n : nat) (l : list Z) : Z :=
  nth (rand n mod length l) l 0.

(** The state before the first restart. *)
Definition init : state :=
  let vertices := shuffle (keys G) in
  let seed := enumerate_dict 0 (slice_to vertices k) [] in
  mk_state seed (dict_union [] seed) 0 0 [] [] None None [] 1%float 0.

(** "Initialize communities seed and vertices density". *)
Definition init_bookkeeping (seed : dict Z)
  (dc : dict float * dict Z) : dict float * dict Z :=
  fold_left
    (fun dc vc =>
       (dict_set (fst dc) (snd vc) max_density, dict_set (snd dc) (snd vc) 1))
    seed dc.

(** "Compute NMI": the score against the previous labels and the gate on
    the running minimum. *)
Definition gate (s : state) (new_communities_list : list Z) : outcome state :=
  if iter s =? 0 then Ok s
  else
    match old_communities s with
    | None => Raise ValueError
    | Some old =>
        let NMI := nmi new_communities_list old in
        let scores := nmi_list s ++ [NMI] in
        if (nmi new_communities_list old <? min_NMI s)%float then
          Ok (mk_state (seed_set s) (dict_union (bad_seed_set s) (seed_set s))
                (seed_init_num s + 1) (iter s)
                (shared_density s) (shared_com_to_numvertices s)
                (old_communities s) (new_communities s) scores NMI (draws s))
        else
          Ok (mk_state (seed_set s) (bad_seed_set s)
                (seed_init_num s) (iter s)
                (shared_density s) (shared_com_to_numvertices s)
                (old_communities s) (new_communities s) scores (min_NMI s)
                (draws s))
    end.

(** The [while community_idx < len(new_communities)] loop. *)
Fixpoint derive (fuel : nat) (groups : list (list Z)) (bad : dict Z)
  (w : seeding) : outcome seeding :=
  if (community_idx w <? length groups)%nat then
    match fuel with
    | O => OutOfFuel
    | S fuel' =>
        let current_community :=
          set_minus (nth (community_idx w) groups []) (removed_list w) in
        match current_community with
        | [] =>
            Ok (mk_seeding (next_seed_set w) (community_idx w)
                  (removed_list w) true (next_draws w))
        | _ :: _ =>
            let new_v := choice (next_draws w) current_community in
            if mem new_v (keys bad) then
              derive fuel' groups bad
                (mk_seeding (next_seed_set w) (community_idx w)
                   (removed_list w ++ [new_v]) false (S (next_draws w)))
            else
              derive fuel' groups bad
                (mk_seeding
                   (dict_set (next_seed_set w) new_v
                      (Z.of_nat (community_idx w)))
                   (S (community_idx w)) [] false (S (next_draws w)))
        end
    end
  else Ok w.

(** Draws the seeding loop can make: each one rejects a vertex of the
    community at hand for good or moves to the next community. *)
Definition derive_fuel (groups : list (list Z)) : nat :=
  length groups + length (concat groups).

(** "Call to the original FluidC algorithm" and [nodes_color]: the
    bookkeeping is re-initialised in place, the engine runs on a copy of
    the seed set and leaves its mutations in the shared mappings. *)
Definition propagate (s : state) : outcome (state * list Z) :=
  let dc := init_bookkeeping (seed_set s)
              (shared_density s, shared_com_to_numvertices s) in
  let in_seed_set := seed_set s in
  '(est, _) <- fluidc_modified_run G (sorted_by_degree G) in_seed_set
                 (fst dc) max_density (snd dc) max_iter ;;
  let groups := groups_of est in
  new_communities_list <- nodes_color G groups ;;
  Ok (mk_state (seed_set s) (bad_seed_set s) (seed_init_num s) (iter s)
        (density est) (com_to_numvertices est)
        (old_communities s) (Some groups) (nmi_list s) (min_NMI s)
        (draws s),
      new_communities_list).

(** The seeding loop started afresh on [groups]. *)
Definition reseeding (groups : list (list Z)) (bad : dict Z) (n : nat)
  : outcome seeding :=
  derive (derive_fuel groups) groups bad (mk_seeding [] 0 [] false n).

(** [old_communities = new_communities_list], "Discard and create a new
    seed set", [iter += 1]. *)
Definition reseed (s : state) (new_communities_list : list Z)
  : outcome state :=
  match new_communities s with
  | None => Raise TypeError
  | Some groups =>
      w <- reseeding groups (bad_seed_set s) (draws s) ;;
      Ok (mk_state (next_seed_set w) (bad_seed_set s)
            (if exhausted w then 10 else seed_init_num s)
            (iter s + 1)
            (shared_density s) (shared_com_to_numvertices s)
            (Some new_communities_list) (new_communities s)
            (nmi_list s) (min_NMI s) (next_draws w))
  end.

(** The body of the restart loop. *)
Definition restart (s : state) : outcome state :=
  '(s0, new_communities_list) <- propagate s ;;
  s1 <- gate s0 new_communities_list ;;
  reseed s1 new_communities_list.

(** [while seed_init_num < 10 and iter < max_iter] *)
Definition running (s : state) : bool :=
  (seed_init_num s <? 10) && (iter s <? max_iter).

Fixpoint restarts (fuel : nat) (s : state) : outcome state :=
  if running s then
    match fuel with
    | O => OutOfFuel
    | S fuel' => s' <- restart s ;; restarts fuel' s'
    end
  else Ok s.

(** The controller with everything it leaves behind. *)
Definition fluidc_plus_run : outcome state :=
  restarts (Z.to_nat max_iter) init.

(** [fluidc_plus(G, k, max_iter)]; [None] is Python's. *)
Definition fluidc_plus : outcome (option (list (list Z))) :=
  s <- fluidc_plus_run ;; Ok (new_communities s).

(** [restarted s s']: the restart loop, entered at [s], is at its head
    again at [s'] some restarts later. *)
Inductive restarted : state -> state -> Prop :=
| restarted_here s : restarted s s
| restarted_next s s' s'' :
    running s = true -> restart s = Ok s' -> restarted s' s'' ->
    restarted s s''.
End Controller.

(** ** The ground truth: [gt_loader] of [utils.py] *)

(** A node attribute: a string or an int. *)
Inductive value : Set :=
| VStr (s : string)
| VInt (n : Z).

(** The attributes of a node, by name. *)
Definition attributes : Type := list (string * value).

Fixpoint attr_get (attrs : attributes) (key : string) : option value :=
  match attrs with
  | [] => None
  | (k, v) :: rest => if String.eqb k key then Some v else attr_get rest key
  end.

(** [G.nodes[i][key]] *)
Definition node_attr (nodes : dict attributes) (i : Z) (key : string)
  : outcome value :=
  attrs <- getitem nodes i ;;
  match attr_get attrs key with
  | Some v => Ok v
  | None => Raise KeyError
  end.

(** The body of [for i in range(len(G))]: what it appends to [gt]. *)
Definition gt_step (nodes : dict attributes) (name : string) (gt : list value)
  (i : Z) : outcome (list value) :=
  if String.eqb name "karate" then
    gt_com <- node_attr nodes i "club" ;;
    match gt_com with
    | VStr s =>
        if String.eqb s "Officer" then Ok (gt ++ [VInt 0])
        else if String.eqb s "Mr. Hi" then Ok (gt ++ [VInt 1])
        else Raise ValueError
    | VInt _ => Raise ValueError
    end
  else if String.eqb name "dolphins" then
    gt_com <- node_attr nodes i "group" ;; Ok (gt ++ [gt_com])
  else if String.eqb name "football" then
    gt_com <- node_attr nodes i "value" ;; Ok (gt ++ [gt_com])
  else if String.eqb name "citeseer" then
    gt_com <- node_attr nodes i "community" ;; Ok (gt ++ [gt_com])
  else if String.eqb name "polbooks" then
    gt_com <- node_attr nodes i "value" ;;
    match gt_com with
    | VStr s =>
        if String.eqb s "n" then Ok (gt ++ [VInt 0])
        else if String.eqb s "c" then Ok (gt ++ [VInt 1])
        else if String.eqb s "l" then Ok (gt ++ [VInt 2])
        else Raise ValueError
    | VInt _ => Raise ValueError
    end
  else Ok gt.

Fixpoint gt_loop (nodes : dict attributes) (name : string) (gt : list value)
  (range : list Z) : outcome (list value) :=
  match range with
  | [] => Ok gt
  | i :: rest =>
      gt' <- gt_step nodes name gt i ;;
      gt_loop nodes name gt' rest
  end.

Definition gt_loader (nodes : dict attributes) (name : string)
  : outcome (list value) :=
  gt_loop nodes name [] (map Z.of_nat (seq 0 (length nodes))).

(** ** The synthetic ground truth: [get_communities_from_synth] of
    [tests.py] *)

(** [l.remove(x)], for an [x] that is in [l]: its first occurrence goes. *)
Fixpoint list_remove (l : list Z) (x : Z) : list Z :=
  match l with
  | [] => []
  | y :: rest => if y =? x then rest else y :: list_remove rest x
  end.

(** [for n in new_community]: the members still waiting are coloured and
    taken off [nodes]. *)
Fixpoint claim_members (nodes communities_color : list Z) (comm_idx : Z)
  (new_community : list Z) : outcome (list Z * list Z) :=
  match new_community with
  | [] => Ok (nodes, communities_color)
  | n :: rest =>
      if mem n nodes then
        communities_color' <- list_setitem communities_color n comm_idx ;;
        claim_members (list_remove nodes n) communities_color' comm_idx rest
      else claim_members nodes communities_color comm_idx rest
  end.

(** [while nodes]; [community] maps a node to its ['community']
    attribute. *)
Fixpoint synth_loop (fuel : nat) (community : dict (list Z))
  (nodes communities_color : list Z) (comm_idx : Z) : outcome (list Z * Z) :=
  match nodes with
  | [] => Ok (communities_color, comm_idx - 1)
  | current_node :: nodes' =>
      match fuel with
      | O => OutOfFuel
      | S fuel' =>
          new_community <- getitem community current_node ;;
          '(nodes'', communities_color') <-
            claim_members nodes' communities_color comm_idx new_community ;;
          communities_color'' <-
            list_setitem communities_color' current_node comm_idx ;;
          synth_loop fuel' community nodes'' communities_color''
            (comm_idx + 1)
      end
  end.

Definition get_communities_from_synth (community : dict (list Z))
  : outcome (list Z * Z) :=
  synth_loop (length community) community (keys community)
    (repeat 0 (length community)) 0.

(** ** Notions the properties are stated with *)

(** The vertices labelled [c], in the order of the labelling. *)
Definition members (labels : dict Z) (c : Z) : list Z :=
  map fst (filter (fun vk => snd vk =? c) labels).

(** The items of [l] not in [seen], each at its first occurrence. *)
Fixpoint distinct_from (seen l : list Z) : list Z :=
  match l with
  | [] => []
  | x :: rest =>
      if mem x seen then distinct_from seen rest
      else x :: distinct_from (seen ++ [x]) rest
  end.

Definition distinct (l : list Z) : list Z := distinct_from [] l.

(** Groups laid out by community id: the group at index [i] holds exactly
    the vertices labelled [i]. *)
Definition grouped_by_id (labels : dict Z) (groups : list (list Z)) : Prop :=
  forall (i : nat) (v : Z),
    In v (nth i groups []) <-> dict_get labels v = Some (Z.of_nat i).

(** The two bookkeeping mappings agree: a community with a positive count
    has the density [max_density / count]. *)
Definition consistent (md : float) (dens : dict float) (counts : dict Z)
  : Prop :=
  forall c n,
    dict_get counts c = Some n -> 0 < n ->
    dict_get dens c = Some (md / float_of_int n)%float.

(** [engine_reaches G md st st']: [st'] is [st] after some vertex updates,
    the points of an engine run between label changes. *)
Inductive engine_reaches (G : graph) (md : float)
  : engine_state -> engine_state -> Prop :=
| reaches_here st : engine_reaches G md st st
| reaches_update st vertex st' changed st'' :
    update_vertex G md st vertex = Ok (st', changed) ->
    engine_reaches G md st' st'' ->
    engine_reaches G md st st''.

(** The bookkeeping a restart hands to the engine. *)
Definition handed (s : state) : dict float * dict Z :=
  init_bookkeeping (seed_set s) (shared_density s, shared_com_to_numvertices s).

(** A seed set as the controller builds them: distinct vertices carrying
    the labels [0, 1, ...] in order. *)
Definition seeded (seed : dict Z) : Prop :=
  NoDup (keys seed) /\
  values seed = map Z.of_nat (seq 0 (length seed)).

(** The number of vertices labelled [c]. *)
Definition size (labels : dict Z) (c : Z) : Z :=
  Z.of_nat (count_occ Z.eq_dec (values labels) c).

(** The engine keeps the keys [Kd], [Kc] of the two bookkeeping mappings,
    and every count is the number of members, at least one. *)
Definition engine_inv (Kd Kc : list Z) (st : engine_state) : Prop :=
  NoDup (keys (communities st))
  /\ keys (density st) = Kd
  /\ keys (com_to_numvertices st) = Kc
  /\ incl Kc Kd
  /\ (forall c, In c (values (communities st)) -> In c Kc)
  /\ (forall c n,
        dict_get (com_to_numvertices st) c = Some n ->
        1 <= n /\ n = size (communities st) c).

(** The keys of a bookkeeping mapping between restarts: none before the
    first restart, the seeded communities in order afterwards. *)
Definition untouched_or (labels ks : list Z) : Prop :=
  ks = [] \/ ks = labels.

(** The controller at the head of its loop: a well-formed seed set and,
    unless seeding was exhausted, no bookkeeping entry for a community
    that is not seeded. *)
Definition controller_inv (s : state) : Prop :=
  seeded (seed_set s)
  /\ NoDup (keys (shared_density s))
  /\ NoDup (keys (shared_com_to_numvertices s))
  /\ (seed_init_num s < 10 ->
      untouched_or (values (seed_set s)) (keys (shared_density s))
      /\ untouched_or (values (seed_set s))
           (keys (shared_com_to_numvertices s))).

(** No vertex is in two groups. *)
Definition disjoint_groups (groups : list (list Z)) : Prop :=
  forall (i j : nat) (v : Z),
    (i < j < length groups)%nat ->
    In v (nth i groups []) -> In v (nth j groups []) -> False.

(** The seeding loop has seeded the communities before [community_idx],
    each with one of its members. *)
Definition seeding_wf (groups : list (list Z)) (w : seeding) : Prop :=
  seeded (next_seed_set w)
  /\ length (next_seed_set w) = community_idx w
  /\ (community_idx w <= length groups)%nat
  /\ (forall v, In v (keys (next_seed_set w)) ->
        exists i, (i < community_idx w)%nat /\ In v (nth i groups [])).

(** What holds of the counters and of the quality trace at the head of the
    restart loop. *)
Definition run_inv (s : state) : Prop :=
  0 <= iter s
  /\ 0 <= seed_init_num s <= 10
  /\ Z.of_nat (length (nmi_list s)) = Z.max 0 (iter s - 1)
  /\ (iter s <> 0 -> old_communities s <> None /\ new_communities s <> None)
  /\ (forall x, In x (nmi_list s) -> (x <? min_NMI s)%float = false)
  /\ (min_NMI s = 1%float \/ In (min_NMI s) (nmi_list s)).

(** An outcome that is a result or one of the three exceptions of
    arithmetic and indexing. *)
Definition tame {A : Type} (r : outcome A) : Prop :=
  match r with
  | Ok _ => True
  | Raise ZeroDivisionError | Raise OverflowError | Raise IndexError => True
  | Raise _ | OutOfFuel => False
  end.

(** The best accumulated vote of a non-empty counter. *)
Definition max_vote (com_counter : dict float) : float :=
  match values com_counter with
  | [] => 0%float
  | x :: xs => py_max x xs
  end.

(** Member counts up to which the order of the densities [1.0 / count] is
    checked by evaluation, see [unit_density_decreases]. *)
Definition count_bound : Z := 16384.

(** [1.0 / (n + 1) < 1.0 / n] for the [fuel] counts from [n] on. *)
Fixpoint densities_decrease (fuel : nat) (n : Z) : bool :=
  match fuel with
  | O => true
  | S fuel' =>
      (max_density / float_of_int (n + 1) <? max_density / float_of_int n)%float
      && densities_decrease fuel' (n + 1)
  end.

(** An entry of [_invert_dict]'s accumulator once the items of [d] are in. *)
Definition extend (d : dict Z) (cl : Z * list Z) : Z * list Z :=
  (fst cl, snd cl ++ members d (fst cl)).

(** What is left for the seeding loop to do: the candidates of the
    community at hand and one draw to settle it, then the same for every
    later community. *)
Definition seeding_measure (groups : list (list Z)) (w : seeding) : nat :=
  if (community_idx w <? length groups)%nat then
    length (set_minus (nth (community_idx w) groups []) (removed_list w)) + 1
    + length (skipn (S (community_idx w)) groups)
    + length (concat (skipn (S (community_idx w)) groups))
  else 0.

(** *** Sample inputs *)

(** The path 1 - 0 - 2 - 3. *)
Definition path4 : graph := [(0, [1; 2]); (1, [0]); (2, [0; 3]); (3, [2])].

(** The ring 0 - 1 - 2 - 3 - 0. *)
Definition ring4 : graph := [(0, [1; 3]); (1, [0; 2]); (2, [1; 3]); (3, [2; 0])].

(** A single edge. *)
Definition edge2 : graph := [(0, [1]); (1, [0])].

(** A hub 0 with leaves 1, 2, 3; the hub is unlabelled, leaves 1 and 2
    are in community 0 and leaf 3 is alone in community 1, so both
    communities gather the vote 1.0 at the hub. *)
Definition star4 : graph := [(0, [1; 2; 3]); (1, [0]); (2, [0]); (3, [0])].

Definition tie_state : engine_state :=
  mk_engine [(1, 0); (2, 0); (3, 1)] [(0, 0.5%float); (1, 1%float)]
    [(0, 2); (1, 1)].

Definition zero_scorer (_ _ : list Z) : float := 0%float.
Definition no_shuffle (l : list Z) : list Z := l.
Definition first_draw (_ : nat) : nat := O.


(** The same run at the head of the loop after one and after two
    restarts. *)
Definition after_one_restart : state :=
  mk_state [(3, 0); (2, 1)] [(0, 0); (1, 1)] 0 1
    [(0, 0.5%float); (1, 0.5%float)] [(0, 2); (1, 2)]
    (Some [0; 1; 1; 0]) (Some [[0; 3]; [1; 2]]) [] 1%float 4.

Definition after_two_restarts : state :=
  mk_state [] [(0, 0); (1, 1); (3, 0); (2, 1)] 10 2
    [(0, 0.5%float); (1, 0.5%float)] [(0, 2); (1, 2)]
    (Some [0; 1; 1; 0]) (Some [[3; 0]; [2; 1]]) [0%float] 0%float 6.


(** * Properties *)

(** ** Outcomes *)

Lemma bind_Ok {A B} (r : outcome A) (k : A -> outcome B) (b : B) :
  bind r k = Ok b -> exists a, r = Ok a /\ k a = Ok b.
Proof.
  destruct r as [a| |]; simpl; intros H; try discriminate.
  exists a; split; [reflexivity | exact H].
Qed.

Ltac bind_inv H :=
  let a := fresh "a" in
  let Ha := fresh "Ha" in
  apply bind_Ok in H; destruct H as [a [Ha H]].

(** ** Dictionaries *)

Lemma mem_In x l : mem x l = true <-> In x l.
Proof.
  unfold mem. rewrite existsb_exists. split.
  - intros [y [Hy Heq]]. apply Z.eqb_eq in Heq. subst. exact Hy.
  - intros H. exists x. split; [exact H | apply Z.eqb_refl].
Qed.

Lemma mem_false x l : mem x l = false <-> ~ In x l.
Proof.
  rewrite <- mem_In. destruct (mem x l); split; intros H;
    try discriminate; try reflexivity; try (intros H'; discriminate).
  exfalso. apply H. reflexivity.
Qed.

Section DictFacts.
Context {V : Type}.
Implicit Types (d : dict V) (k : Z) (v : V).

Lemma dict_get_set_same d k v : dict_get (dict_set d k v) k = Some v.
Proof.
  induction d as [|[k' v'] d IH]; simpl.
  - rewrite Z.eqb_refl. reflexivity.
  - destruct (k' =? k) eqn:E; simpl; rewrite E; [reflexivity | exact IH].
Qed.

Lemma dict_get_set_other d k k' v :
  k <> k' -> dict_get (dict_set d k v) k' = dict_get d k'.
Proof.
  intros Hne. induction d as [|[k0 v0] d IH]; simpl.
  - destruct (k =? k') eqn:E; [apply Z.eqb_eq in E; contradiction | reflexivity].
  - destruct (k0 =? k) eqn:E; simpl.
    + apply Z.eqb_eq in E. subst k0.
      destruct (k =? k') eqn:E'; [apply Z.eqb_eq in E'; contradiction | reflexivity].
    + destruct (k0 =? k'); [reflexivity | exact IH].
Qed.

Lemma dict_get_None d k : dict_get d k = None <-> ~ In k (keys d).
Proof.
  induction d as [|[k' v'] d IH]; simpl.
  - split; [intros _ [] | reflexivity].
  - destruct (k' =? k) eqn:E.
    + apply Z.eqb_eq in E. split; [discriminate | intros H; exfalso; apply H; left; exact E].
    + apply Z.eqb_neq in E. rewrite IH. split.
      * intros H [H'|H']; [contradiction | apply H; exact H'].
      * intros H H'. apply H. right. exact H'.
Qed.

Lemma dict_get_Some_In d k v : dict_get d k = Some v -> In (k, v) d.
Proof.
  induction d as [|[k' v'] d IH]; simpl; [discriminate|].
  destruct (k' =? k) eqn:E.
  - apply Z.eqb_eq in E. intros H. injection H as ->. left. subst. reflexivity.
  - intros H. right. apply IH. exact H.
Qed.

Lemma dict_get_Some_key d k v : dict_get d k = Some v -> In k (keys d).
Proof.
  intros H. apply dict_get_Some_In in H.
  apply (in_map fst) in H. exact H.
Qed.

Lemma In_dict_get d k v :
  NoDup (keys d) -> In (k, v) d -> dict_get d k = Some v.
Proof.
  induction d as [|[k' v'] d IH]; simpl; [intros _ []|].
  intros Hnd [H|H].
  - injection H as -> ->. rewrite Z.eqb_refl. reflexivity.
  - inversion Hnd as [|? ? Hnotin Hnd']; subst.
    destruct (k' =? k) eqn:E.
    + apply Z.eqb_eq in E. subst k'. exfalso. apply Hnotin.
      apply (in_map fst) in H. exact H.
    + apply IH; assumption.
Qed.

Lemma In_keys_get d k : In k (keys d) -> exists v, dict_get d k = Some v.
Proof.
  intros H. destruct (dict_get d k) as [v|] eqn:E.
  - exists v. reflexivity.
  - apply dict_get_None in E. contradiction.
Qed.

Lemma dict_set_present d k v v0 :
  dict_get d k = Some v0 -> keys (dict_set d k v) = keys d.
Proof.
  induction d as [|[k' v'] d IH]; simpl; [discriminate|].
  destruct (k' =? k) eqn:E; simpl; [reflexivity|].
  intros H. rewrite IH by exact H. reflexivity.
Qed.

Lemma dict_set_absent d k v :
  dict_get d k = None -> dict_set d k v = d ++ [(k, v)].
Proof.
  induction d as [|[k' v'] d IH]; simpl; [reflexivity|].
  destruct (k' =? k) eqn:E; [discriminate|].
  intros H. rewrite IH by exact H. reflexivity.
Qed.

Lemma keys_app d d' : keys (d ++ d') = keys d ++ keys d'.
Proof. apply map_app. Qed.

Lemma keys_dict_set_incl d k v : incl (keys d) (keys (dict_set d k v)).
Proof.
  destruct (dict_get d k) as [v0|] eqn:E.
  - rewrite (dict_set_present d k v v0 E). apply incl_refl.
  - rewrite (dict_set_absent d k v E), keys_app. apply incl_appl, incl_refl.
Qed.

Lemma keys_dict_set_In d k v x :
  In x (keys (dict_set d k v)) <-> x = k \/ In x (keys d).
Proof.
  destruct (dict_get d k) as [v0|] eqn:E.
  - rewrite (dict_set_present d k v v0 E). split; [tauto|].
    intros [->|H]; [|exact H]. apply (dict_get_Some_key _ _ _ E).
  - rewrite (dict_set_absent d k v E), keys_app, in_app_iff. simpl.
    split; [intros [H|[H|[]]]; auto | intros [H|H]; auto].
Qed.

Lemma NoDup_keys_dict_set d k v :
  NoDup (keys d) -> NoDup (keys (dict_set d k v)).
Proof.
  intros Hnd. destruct (dict_get d k) as [v0|] eqn:E.
  - rewrite (dict_set_present d k v v0 E). exact Hnd.
  - rewrite (dict_set_absent d k v E), keys_app. simpl.
    apply NoDup_app; [exact Hnd | constructor; [intros [] | constructor] |].
    intros x Hx [Hk|[]]. subst x. apply dict_get_None in E. contradiction.
Qed.
End DictFacts.

(** ** Numbers *)

(** [tolerance] is the double Python reads [0.0001] as, the nearest one to
    1/10000. *)
Lemma tolerance_literal : tolerance = (1 / float_of_int 10000)%float.
Proof. reflexivity. Qed.

(** [float_overflow] is the least int without a double. *)
Lemma float_overflow_least :
  float_of_int float_overflow = infinity
  /\ float_of_int (float_overflow - 1) = 0x1.fffffffffffffp+1023%float.
Proof. split; vm_compute; reflexivity. Qed.

(** ** The engine's loop *)

Lemma getitem_fuel {V} (d : dict V) k : getitem d k <> OutOfFuel.
Proof. unfold getitem. destruct (dict_get d k); discriminate. Qed.

Lemma truediv_fuel x n : truediv x n <> OutOfFuel.
Proof.
  unfold truediv. destruct (float_overflow <=? Z.abs n); [discriminate|].
  destruct (n =? 0); discriminate.
Qed.

Lemma truediv_Ok x n d :
  truediv x n = Ok d ->
  n <> 0 /\ Z.abs n < float_overflow /\ d = (x / float_of_int n)%float.
Proof.
  unfold truediv. destruct (float_overflow <=? Z.abs n) eqn:E1; [discriminate|].
  destruct (n =? 0) eqn:E2; [discriminate|].
  intros H. injection H as <-.
  apply Z.leb_gt in E1. apply Z.eqb_neq in E2. auto.
Qed.

Lemma bind_fuel {A B} (r : outcome A) (k : A -> outcome B) :
  r <> OutOfFuel -> (forall a, k a <> OutOfFuel) -> bind r k <> OutOfFuel.
Proof. destruct r; simpl; auto; discriminate. Qed.

Lemma com_densities_of_fuel md counts best :
  com_densities_of md counts best <> OutOfFuel.
Proof.
  induction best as [|b rest IH]; simpl; [discriminate|].
  apply bind_fuel; [apply getitem_fuel | intros n].
  apply bind_fuel; [apply truediv_fuel | intros d].
  apply bind_fuel; [exact IH | discriminate].
Qed.

Lemma choose_fuel md counts best : choose md counts best <> OutOfFuel.
Proof.
  unfold choose. destruct (1 <? length best)%nat.
  - apply bind_fuel; [apply com_densities_of_fuel | discriminate].
  - destruct best; discriminate.
Qed.

Lemma depart_fuel md st v : depart md st v <> OutOfFuel.
Proof.
  unfold depart. destruct (dict_get (communities st) v); [|discriminate].
  destruct (dict_get (com_to_numvertices st) z); [|discriminate].
  apply bind_fuel; [apply truediv_fuel | discriminate].
Qed.

Lemma arrive_fuel md st v c : arrive md st v c <> OutOfFuel.
Proof.
  unfold arrive. apply bind_fuel; [apply getitem_fuel | intros n].
  apply bind_fuel; [apply truediv_fuel | discriminate].
Qed.

Lemma update_vertex_fuel G md st v : update_vertex G md st v <> OutOfFuel.
Proof.
  unfold update_vertex. apply bind_fuel; [apply getitem_fuel | intros nbrs].
  destruct (gather st v nbrs); [discriminate|].
  match goal with |- (if ?b then _ else _) <> _ => destruct b end;
    [|discriminate].
  apply bind_fuel; [apply choose_fuel | intros c].
  apply bind_fuel; [apply depart_fuel | intros st1].
  apply bind_fuel; [apply arrive_fuel | discriminate].
Qed.

Lemma sweep_fuel G md vs st cont : sweep G md vs st cont <> OutOfFuel.
Proof.
  revert st cont. induction vs as [|v vs IH]; intros st cont; simpl;
    [discriminate|].
  apply bind_fuel; [apply update_vertex_fuel | intros [st' ch]]. apply IH.
Qed.

(** Enough fuel: the loop is never cut short. *)
Lemma passes_fuel fuel G md vs max_iter iter_count st :
  (Z.to_nat (max_iter - iter_count) < fuel)%nat ->
  passes fuel G md vs max_iter iter_count st <> OutOfFuel.
Proof.
  revert iter_count st. induction fuel as [|fuel IH]; intros ic st Hf;
    [lia|]. simpl.
  apply bind_fuel; [apply sweep_fuel | intros [st' cont]].
  destruct (max_iter <? ic + 1) eqn:E; [discriminate|].
  destruct cont; [|discriminate].
  apply IH. apply Z.ltb_ge in E. lia.
Qed.

Lemma fluidc_modified_run_fuel G vs c0 d0 md n0 max_iter :
  fluidc_modified_run G vs c0 d0 md n0 max_iter <> OutOfFuel.
Proof.
  unfold fluidc_modified_run, engine_fuel. apply passes_fuel. lia.
Qed.

(** The loop stops at the first pass that changes no label. *)
Lemma passes_stable fuel G md vs max_iter iter_count st st' :
  sweep G md vs st false = Ok (st', false) ->
  passes (S fuel) G md vs max_iter iter_count st = Ok (st', iter_count + 1).
Proof.
  intros H. simpl. rewrite H. simpl.
  destruct (max_iter <? iter_count + 1); reflexivity.
Qed.

(** The number of passes the loop makes: at least one, and no more than
    one beyond [max_iter]. *)
Lemma passes_count fuel G md vs max_iter iter_count st st' n :
  passes fuel G md vs max_iter iter_count st = Ok (st', n) ->
  iter_count < n /\ n <= Z.max (iter_count + 1) (max_iter + 1).
Proof.
  revert iter_count st. induction fuel as [|fuel IH]; intros ic st H;
    [discriminate|]. simpl in H.
  bind_inv H. destruct a as [st1 cont]. simpl in H.
  destruct (max_iter <? ic + 1) eqn:E.
  - injection H as _ <-. lia.
  - apply Z.ltb_ge in E. destruct cont.
    + apply IH in H. lia.
    + injection H as _ <-. lia.
Qed.

Lemma fluidc_modified_passes G vs c0 d0 md n0 max_iter st n :
  0 <= max_iter ->
  fluidc_modified_run G vs c0 d0 md n0 max_iter = Ok (st, n) ->
  1 <= n <= max_iter + 1.
Proof.
  intros Hm H. apply passes_count in H. lia.
Qed.

(** C3, checked on the code where it fails: on the path 1 - 0 - 2 - 3 with
    seeds 0 and 1, visit order by degree and [max_iter = 1], the engine
    makes two passes, one more than the cap. *)
Theorem pass_cap_overrun :
  let max_iter := 1 in
  exists st iter_count,
    fluidc_modified_run path4 (sorted_by_degree path4) [(0, 0); (1, 1)]
      [(0, 1%float); (1, 1%float)] 1%float [(0, 1); (1, 1)] max_iter
    = Ok (st, iter_count)
    /\ iter_count = max_iter + 1
    /\ ~ iter_count <= max_iter.
Proof.
  eexists. eexists. split; [vm_compute; reflexivity|]. split; [reflexivity|].
  lia.
Qed.

(** ** Points of an engine run *)

Lemma engine_reaches_trans G md st1 st2 st3 :
  engine_reaches G md st1 st2 -> engine_reaches G md st2 st3 ->
  engine_reaches G md st1 st3.
Proof.
  induction 1 as [|st v st' ch st'' Hu _ IH]; intros H; [exact H|].
  eapply reaches_update; [exact Hu | apply IH; exact H].
Qed.

Lemma sweep_reaches G md vs st cont st' cont' :
  sweep G md vs st cont = Ok (st', cont') -> engine_reaches G md st st'.
Proof.
  revert st cont. induction vs as [|v vs IH]; intros st cont H; simpl in H.
  - injection H as <- _. constructor.
  - bind_inv H. destruct a as [st1 ch]. simpl in H.
    eapply reaches_update; [exact Ha | eapply IH; exact H].
Qed.

Lemma passes_reaches fuel G md vs max_iter iter_count st st' n :
  passes fuel G md vs max_iter iter_count st = Ok (st', n) ->
  engine_reaches G md st st'.
Proof.
  revert iter_count st. induction fuel as [|fuel IH]; intros ic st H;
    [discriminate|]. simpl in H.
  bind_inv H. destruct a as [st1 cont]. simpl in H.
  apply sweep_reaches in Ha.
  destruct (max_iter <? ic + 1).
  - injection H as <- _. exact Ha.
  - destruct cont.
    + eapply engine_reaches_trans; [exact Ha | eapply IH; exact H].
    + injection H as <- _. exact Ha.
Qed.

(** A property kept by every vertex update holds all along a run. *)
Lemma engine_reaches_invariant G md (P : engine_state -> Prop) :
  (forall st v st' ch,
      P st -> update_vertex G md st v = Ok (st', ch) -> P st') ->
  forall st st', engine_reaches G md st st' -> P st -> P st'.
Proof.
  intros Hstep st st' H. induction H as [|st v st' ch st'' Hu _ IH];
    intros HP; [exact HP|].
  apply IH. eapply Hstep; [exact HP | exact Hu].
Qed.

(** What a vertex update can do to the state: nothing, or relabel the
    vertex after the departure and arrival updates. *)
Lemma update_vertex_Ok G md st v st' ch :
  update_vertex G md st v = Ok (st', ch) ->
  (st' = st /\ ch = false) \/
  (ch = true /\
   exists nbrs new_com st1,
     dict_get G v = Some nbrs /\
     gather st v nbrs <> [] /\
     preserved st v (best_communities_of (gather st v nbrs)) = -1 /\
     choose md (com_to_numvertices st)
       (best_communities_of (gather st v nbrs)) = Ok new_com /\
     depart md st v = Ok st1 /\
     arrive md st1 v new_com = Ok st').
Proof.
  unfold update_vertex. intros H. bind_inv H. rename a into nbrs.
  unfold getitem in Ha. destruct (dict_get G v) as [nbrs'|] eqn:EG;
    [|discriminate]. injection Ha as ->.
  destruct (gather st v nbrs) as [|x cc] eqn:Egather.
  - injection H as <- <-. left. auto.
  - destruct (preserved st v (best_communities_of (x :: cc)) =? -1) eqn:Ep.
    + bind_inv H. rename a into new_com. bind_inv H. rename a into st1.
      bind_inv H. injection H as <- <-. right. split; [reflexivity|].
      exists nbrs, new_com, st1. apply Z.eqb_eq in Ep. rewrite Egather.
      repeat split; try assumption. discriminate.
    + injection H as <- <-. left. auto.
Qed.

Lemma depart_communities md st v st1 :
  depart md st v = Ok st1 -> communities st1 = communities st.
Proof.
  unfold depart. destruct (dict_get (communities st) v) as [c|];
    [|intros H; injection H as <-; reflexivity].
  destruct (dict_get (com_to_numvertices st) c) as [n|];
    [|intros H; injection H as <-; reflexivity].
  intros H. bind_inv H. injection H as <-. reflexivity.
Qed.

Lemma arrive_communities md st v c st' :
  arrive md st v c = Ok st' ->
  communities st' = dict_set (communities st) v c.
Proof.
  unfold arrive. intros H. bind_inv H. bind_inv H. injection H as <-.
  reflexivity.
Qed.

Lemma update_vertex_communities G md st v st' ch :
  update_vertex G md st v = Ok (st', ch) ->
  communities st' = communities st \/
  exists c, communities st' = dict_set (communities st) v c.
Proof.
  intros H. apply update_vertex_Ok in H.
  destruct H as [[-> _]|[_ (nbrs & c & st1 & _ & _ & _ & _ & Hd & Ha)]].
  - left. reflexivity.
  - right. exists c. apply arrive_communities in Ha.
    apply depart_communities in Hd. rewrite Ha, Hd. reflexivity.
Qed.

Lemma engine_reaches_NoDup G md st st' :
  engine_reaches G md st st' ->
  NoDup (keys (communities st)) -> NoDup (keys (communities st')).
Proof.
  apply (engine_reaches_invariant G md
           (fun st => NoDup (keys (communities st)))).
  intros s v s' ch Hnd H. apply update_vertex_communities in H.
  destruct H as [->|[c ->]]; [exact Hnd | apply NoDup_keys_dict_set, Hnd].
Qed.

(** ** Grouping by label: [_invert_dict] *)

Lemma members_cons v c d k :
  members ((v, c) :: d) k = if c =? k then v :: members d k else members d k.
Proof. unfold members. simpl. destruct (c =? k); reflexivity. Qed.

Lemma In_members d v c : In v (members d c) <-> In (v, c) d.
Proof.
  unfold members. rewrite in_map_iff. split.
  - intros [[v' c'] [Hv Hin]]. simpl in Hv. subst v'.
    apply filter_In in Hin. destruct Hin as [Hin Hc]. simpl in Hc.
    apply Z.eqb_eq in Hc. subst c'. exact Hin.
  - intros H. exists (v, c). split; [reflexivity|].
    apply filter_In. split; [exact H | apply Z.eqb_refl].
Qed.

Lemma extend_other v c d (acc : dict (list Z)) :
  ~ In c (keys acc) -> map (extend ((v, c) :: d)) acc = map (extend d) acc.
Proof.
  induction acc as [|[k l] acc IH]; simpl; [reflexivity|].
  intros H. rewrite IH by tauto. unfold extend at 1 3. simpl.
  rewrite members_cons. destruct (c =? k) eqn:E; [|reflexivity].
  apply Z.eqb_eq in E. exfalso. apply H. left. symmetry. exact E.
Qed.

Lemma extend_set v c d (acc : dict (list Z)) l :
  NoDup (keys acc) -> dict_get acc c = Some l ->
  map (extend d) (dict_set acc c (l ++ [v]))
  = map (extend ((v, c) :: d)) acc.
Proof.
  induction acc as [|[k l'] acc IH]; simpl; [discriminate|].
  intros Hnd. inversion Hnd as [|? ? Hnotin Hnd']; subst.
  destruct (k =? c) eqn:E.
  - apply Z.eqb_eq in E. subst k. intros H. injection H as ->. simpl.
    rewrite (extend_other v c d acc Hnotin). unfold extend at 1 3. simpl.
    rewrite members_cons, Z.eqb_refl, <- app_assoc. reflexivity.
  - intros H. simpl. rewrite (IH Hnd' H). unfold extend at 1 3. simpl.
    rewrite members_cons. rewrite Z.eqb_sym, E. reflexivity.
Qed.

Lemma distinct_from_fresh seen l x :
  In x (distinct_from seen l) -> ~ In x seen /\ In x l.
Proof.
  revert seen. induction l as [|y l IH]; intros seen; simpl; [intros []|].
  destruct (mem y seen) eqn:E.
  - intros H. apply IH in H. tauto.
  - intros [->|H].
    + split; [apply mem_false, E | left; reflexivity].
    + apply IH in H. rewrite in_app_iff in H. tauto.
Qed.

Lemma members_fresh v c d (l : list Z) :
  ~ In c l ->
  map (fun c0 => (c0, members ((v, c) :: d) c0)) l
  = map (fun c0 => (c0, members d c0)) l.
Proof.
  intros H. apply map_ext_in. intros c0 Hc0. rewrite members_cons.
  destruct (c =? c0) eqn:E; [|reflexivity].
  apply Z.eqb_eq in E. subst c0. contradiction.
Qed.

Lemma invert_fold d : forall acc : dict (list Z),
  NoDup (keys acc) ->
  fold_left
    (fun return_dict vk =>
       match dict_get return_dict (snd vk) with
       | Some l => dict_set return_dict (snd vk) (l ++ [fst vk])
       | None => dict_set return_dict (snd vk) [fst vk]
       end) d acc
  = map (extend d) acc
    ++ map (fun c => (c, members d c)) (distinct_from (keys acc) (values d)).
Proof.
  induction d as [|[v c] d IH]; intros acc Hnd; simpl.
  - rewrite app_nil_r. induction acc as [|[k l] acc IHa]; simpl;
      [reflexivity|]. inversion Hnd; subst.
    rewrite <- IHa by assumption. unfold extend. simpl.
    rewrite app_nil_r. reflexivity.
  - destruct (dict_get acc c) as [l|] eqn:E.
    + rewrite IH by (apply NoDup_keys_dict_set, Hnd).
      rewrite (dict_set_present acc c (l ++ [v]) l E).
      rewrite (extend_set v c d acc l Hnd E).
      assert (Hin : In c (keys acc)) by apply (dict_get_Some_key _ _ _ E).
      assert (Hm : mem c (keys acc) = true) by (apply mem_In, Hin).
      rewrite Hm. f_equal. symmetry. apply members_fresh.
      intros H. apply distinct_from_fresh in H. tauto.
    + rewrite IH by (apply NoDup_keys_dict_set, Hnd).
      rewrite (dict_set_absent acc c [v] E), keys_app, map_app. simpl.
      assert (Hn : ~ In c (keys acc)) by (apply dict_get_None, E).
      assert (Hm : mem c (keys acc) = false) by (apply mem_false, Hn).
      rewrite Hm, (extend_other v c d acc Hn). simpl.
      rewrite <- app_assoc. simpl. unfold extend at 2. simpl.
      rewrite members_cons, Z.eqb_refl. do 2 f_equal.
      symmetry. apply members_fresh.
      intros H. apply distinct_from_fresh in H. destruct H as [H _].
      apply H. apply in_or_app. right. left. reflexivity.
Qed.

(** [_invert_dict] lists the labels in use in order of first appearance,
    each with the vertices that carry it. *)
Lemma invert_dict_spec d :
  _invert_dict d = map (fun c => (c, members d c)) (distinct (values d)).
Proof.
  unfold _invert_dict. rewrite invert_fold by constructor. reflexivity.
Qed.

Lemma groups_of_spec st :
  groups_of st
  = map (members (communities st)) (distinct (values (communities st))).
Proof.
  unfold groups_of, values at 1. rewrite invert_dict_spec, map_map.
  reflexivity.
Qed.

Lemma distinct_from_In seen l x :
  In x (distinct_from seen l) <-> In x l /\ ~ In x seen.
Proof.
  split; [intros H; apply distinct_from_fresh in H; tauto|].
  revert seen. induction l as [|y l IH]; intros seen [Hin Hs]; simpl;
    [destruct Hin|].
  destruct (mem y seen) eqn:E.
  - apply IH. split; [|exact Hs]. destruct Hin as [->|Hin]; [|exact Hin].
    apply mem_In in E. contradiction.
  - destruct (Z.eq_dec y x) as [->|Hne]; [left; reflexivity|]. right.
    apply IH. split; [destruct Hin; [contradiction | assumption]|].
    rewrite in_app_iff. simpl. intros [H|[H|[]]]; auto.
Qed.

Lemma distinct_from_NoDup seen l : NoDup (distinct_from seen l).
Proof.
  revert seen. induction l as [|y l IH]; intros seen; simpl; [constructor|].
  destruct (mem y seen); [apply IH|]. constructor; [|apply IH].
  intros H. apply distinct_from_fresh in H. destruct H as [H _].
  apply H. apply in_or_app. right. left. reflexivity.
Qed.

Lemma distinct_In l x : In x (distinct l) <-> In x l.
Proof. unfold distinct. rewrite distinct_from_In. simpl. tauto. Qed.

Lemma members_labelled d v c :
  NoDup (keys d) -> In v (members d c) <-> dict_get d v = Some c.
Proof.
  intros Hnd. rewrite In_members. split.
  - apply In_dict_get, Hnd.
  - apply dict_get_Some_In.
Qed.

(** C4 as stated fails: on the path 1 - 0 - 2 - 3 seeded at 0 and 1 the
    engine ends with vertices 0 and 1 labelled 1, and returns them as the
    group at index 0. *)
Lemma groups_not_by_id :
  exists st n,
    fluidc_modified_run path4 [0; 2; 1; 3] [(0, 0); (1, 1)]
      [(0, 1%float); (1, 1%float)] 1%float [(0, 1); (1, 1)] 100 = Ok (st, n)
    /\ fluidc_modified path4 [0; 2; 1; 3] [(0, 0); (1, 1)]
         [(0, 1%float); (1, 1%float)] 1%float [(0, 1); (1, 1)] 100
       = Ok (groups_of st)
    /\ ~ grouped_by_id (communities st) (groups_of st).
Proof.
  eexists. eexists. split; [vm_compute; reflexivity|].
  split; [vm_compute; reflexivity|].
  intros H. destruct (H 0%nat 0) as [H0 _].
  assert (Hin : In 0 (nth 0 (groups_of
            (mk_engine [(0, 1); (1, 1); (2, 0); (3, 0)]
               [(0, 0.5%float); (1, 0.5%float)] [(0, 2); (1, 2)])) []))
    by (left; reflexivity).
  apply H0 in Hin. discriminate Hin.
Qed.

(** C4, amended: the engine returns one group per label in use at the end,
    in the order the labels first appear in the labelling; each group holds
    exactly the vertices carrying its label, and an unlabelled vertex is in
    no group. *)
Theorem engine_groups G vs c0 d0 md n0 max_iter st n :
  NoDup (keys c0) ->
  fluidc_modified_run G vs c0 d0 md n0 max_iter = Ok (st, n) ->
  let labels := communities st in
  let ids := distinct (values labels) in
  fluidc_modified G vs c0 d0 md n0 max_iter = Ok (map (members labels) ids)
  /\ NoDup ids
  /\ (forall c, In c ids <-> In c (values labels))
  /\ (forall v c, In v (members labels c) <-> dict_get labels v = Some c)
  /\ (forall v g,
         dict_get labels v = None -> In g (map (members labels) ids) ->
         ~ In v g).
Proof.
  intros Hnd Hrun labels ids.
  assert (Hnd' : NoDup (keys labels)).
  { unfold fluidc_modified_run in Hrun. apply passes_reaches in Hrun.
    apply (engine_reaches_NoDup _ _ _ _ Hrun). exact Hnd. }
  split; [|split; [|split; [|split]]].
  - unfold fluidc_modified. rewrite Hrun. simpl.
    rewrite groups_of_spec. reflexivity.
  - apply distinct_from_NoDup.
  - intros c. apply distinct_In.
  - intros v c. apply members_labelled, Hnd'.
  - intros v g Hv Hg Hin. apply in_map_iff in Hg.
    destruct Hg as [c [<- _]]. apply (members_labelled _ _ _ Hnd') in Hin.
    rewrite Hin in Hv. discriminate.
Qed.

Lemma engine_groups_witness :
  let labels := [(0, 1); (1, 1); (2, 0); (3, 0)] in
  let ids := distinct (values labels) in
  fluidc_modified path4 [0; 2; 1; 3] [(0, 0); (1, 1)]
    [(0, 1%float); (1, 1%float)] 1%float [(0, 1); (1, 1)] 100
  = Ok (map (members labels) ids)
  /\ NoDup ids
  /\ (forall c, In c ids <-> In c (values labels))
  /\ (forall v c, In v (members labels c) <-> dict_get labels v = Some c)
  /\ (forall v g,
         dict_get labels v = None -> In g (map (members labels) ids) ->
         ~ In v g).
Proof.
  apply (engine_groups path4 [0; 2; 1; 3] [(0, 0); (1, 1)]
           [(0, 1%float); (1, 1%float)] 1%float [(0, 1); (1, 1)] 100
           (mk_engine [(0, 1); (1, 1); (2, 0); (3, 0)]
              [(0, 0.5%float); (1, 0.5%float)] [(0, 2); (1, 2)]) 3).
  - repeat constructor; simpl; intuition discriminate.
  - vm_compute. reflexivity.
Defined.

(** ** The gate on the running minimum *)



(** ** The bad-seed history *)

Lemma dict_union_keys_incl (a b : dict Z) : incl (keys a) (keys (dict_union a b)).
Proof.
  unfold dict_union. revert a. induction b as [|[k v] b IH]; intros a; simpl.
  - apply incl_refl.
  - eapply incl_tran; [apply (keys_dict_set_incl a k v) | apply IH].
Qed.

Lemma dict_union_keys_In (a b : dict Z) x :
  In x (keys (dict_union a b)) <-> In x (keys a) \/ In x (keys b).
Proof.
  unfold dict_union. revert a. induction b as [|[k v] b IH]; intros a; simpl.
  - tauto.
  - rewrite IH, keys_dict_set_In. intuition.
Qed.

Lemma dict_union_fresh (a b : dict Z) :
  NoDup (keys b) -> (forall x, In x (keys b) -> ~ In x (keys a)) ->
  dict_union a b = a ++ b.
Proof.
  unfold dict_union. revert a. induction b as [|[k v] b IH]; intros a Hnd Hd;
    simpl; [rewrite app_nil_r; reflexivity|].
  inversion Hnd as [|? ? Hk Hnd']; subst.
  rewrite dict_set_absent
    by (apply dict_get_None, Hd; left; reflexivity).
  rewrite IH; [rewrite <- app_assoc; reflexivity | exact Hnd' |].
  intros x Hx. rewrite keys_app, in_app_iff. simpl. intros [H|[H|[]]].
  - apply (Hd x); [right; exact Hx | exact H].
  - subst x. contradiction.
Qed.

Lemma enumerate_dict_NoDup l : forall i acc,
  NoDup (keys acc) -> NoDup (keys (enumerate_dict i l acc)).
Proof.
  induction l as [|n l IH]; intros i acc H; simpl; [exact H|].
  apply IH, NoDup_keys_dict_set, H.
Qed.

Lemma init_bad_seed_set shuffle G k :
  bad_seed_set (init shuffle G k) = seed_set (init shuffle G k).
Proof.
  unfold init. simpl. apply (dict_union_fresh []).
  - apply enumerate_dict_NoDup. constructor.
  - intros x _ [].
Qed.

Lemma gate_bad_seed_set nmi s l s' :
  gate nmi s l = Ok s' ->
  incl (keys (bad_seed_set s)) (keys (bad_seed_set s')).
Proof.
  unfold gate. destruct (iter s =? 0); [intros H; injection H as <-; apply incl_refl|].
  destruct (old_communities s) as [old|]; [|discriminate].
  destruct (nmi l old <? min_NMI s)%float; intros H; injection H as <-; simpl.
  - apply dict_union_keys_incl.
  - apply incl_refl.
Qed.

Lemma propagate_kept G max_iter s s0 l :
  propagate G max_iter s = Ok (s0, l) ->
  seed_set s0 = seed_set s /\ bad_seed_set s0 = bad_seed_set s
  /\ seed_init_num s0 = seed_init_num s /\ iter s0 = iter s
  /\ old_communities s0 = old_communities s
  /\ nmi_list s0 = nmi_list s /\ min_NMI s0 = min_NMI s
  /\ draws s0 = draws s.
Proof.
  unfold propagate. intros H. bind_inv H. destruct a as [est n]. simpl in H.
  bind_inv H. injection H as <- _. simpl. repeat split; reflexivity.
Qed.

Lemma reseed_kept rand s l s' :
  reseed rand s l = Ok s' ->
  bad_seed_set s' = bad_seed_set s /\ iter s' = iter s + 1
  /\ nmi_list s' = nmi_list s /\ min_NMI s' = min_NMI s
  /\ new_communities s' = new_communities s
  /\ shared_density s' = shared_density s
  /\ shared_com_to_numvertices s' = shared_com_to_numvertices s
  /\ old_communities s' = Some l.
Proof.
  unfold reseed. destruct (new_communities s) as [groups|]; [|discriminate].
  intros H. bind_inv H. injection H as <-. simpl. repeat split; reflexivity.
Qed.

Lemma restart_Ok nmi rand G max_iter s s' :
  restart nmi rand G max_iter s = Ok s' ->
  exists s0 l s1,
    propagate G max_iter s = Ok (s0, l) /\ gate nmi s0 l = Ok s1
    /\ reseed rand s1 l = Ok s'.
Proof.
  unfold restart. intros H. bind_inv H. destruct a as [s0 l]. simpl in H.
  bind_inv H. exists s0, l, a. auto.
Qed.

Lemma restart_bad_seed_set nmi rand G max_iter s s' :
  restart nmi rand G max_iter s = Ok s' ->
  incl (keys (bad_seed_set s)) (keys (bad_seed_set s')).
Proof.
  intros H. apply restart_Ok in H. destruct H as (s0 & l & s1 & Hp & Hg & Hr).
  apply propagate_kept in Hp. destruct Hp as (_ & Hb & _).
  apply gate_bad_seed_set in Hg. apply reseed_kept in Hr.
  destruct Hr as (Hb' & _). rewrite Hb', <- Hb. exact Hg.
Qed.

(** C8: the history starts as the first seed set, and from any point of a
    run to any later one it only gains vertices. *)
Theorem bad_seed_history_grows nmi shuffle rand G k max_iter s s' :
  restarted nmi rand G max_iter s s' ->
  bad_seed_set (init shuffle G k) = seed_set (init shuffle G k)
  /\ incl (keys (bad_seed_set s)) (keys (bad_seed_set s')).
Proof.
  intros H. split; [apply init_bad_seed_set|].
  induction H as [s|s s1 s2 _ Hr _ IH]; [apply incl_refl|].
  eapply incl_tran; [eapply restart_bad_seed_set; exact Hr | exact IH].
Qed.

Lemma ring4_two_restarts :
  restarted zero_scorer first_draw ring4 5 (init no_shuffle ring4 2)
    after_two_restarts.
Proof.
  apply (restarted_next _ _ _ _ _ after_one_restart);
    [reflexivity | vm_compute; reflexivity |].
  apply (restarted_next _ _ _ _ _ after_two_restarts);
    [reflexivity | vm_compute; reflexivity |].
  apply restarted_here.
Defined.

Lemma bad_seed_history_grows_witness :
  bad_seed_set (init no_shuffle ring4 2) = seed_set (init no_shuffle ring4 2)
  /\ incl (keys (bad_seed_set (init no_shuffle ring4 2)))
       (keys (bad_seed_set after_two_restarts)).
Proof.
  apply (bad_seed_history_grows zero_scorer no_shuffle first_draw ring4 2 5
           (init no_shuffle ring4 2) after_two_restarts).
  exact ring4_two_restarts.
Defined.

(** ** The departure update *)

Lemma depart_unlabelled md st v :
  dict_get (communities st) v = None -> depart md st v = Ok st.
Proof. unfold depart. intros ->. reflexivity. Qed.

Lemma depart_uncounted md st v c :
  dict_get (communities st) v = Some c ->
  dict_get (com_to_numvertices st) c = None -> depart md st v = Ok st.
Proof. unfold depart. intros -> ->. reflexivity. Qed.

Lemma depart_counted md st v c n :
  dict_get (communities st) v = Some c ->
  dict_get (com_to_numvertices st) c = Some n ->
  depart md st v
  = d <- truediv md (n - 1) ;;
    Ok (mk_engine (communities st) (dict_set (density st) c d)
          (dict_set (com_to_numvertices st) c (n - 1))).
Proof. unfold depart. intros -> ->. reflexivity. Qed.

(** An exception of a vertex update leaves the engine uncaught. *)
Lemma sweep_raises G md v vs st cont e :
  update_vertex G md st v = Raise e ->
  sweep G md (v :: vs) st cont = Raise e.
Proof. intros H. simpl. rewrite H. reflexivity. Qed.

Lemma passes_raises fuel G md vs max_iter iter_count st e :
  sweep G md vs st false = Raise e ->
  passes (S fuel) G md vs max_iter iter_count st = Raise e.
Proof. intros H. simpl. rewrite H. reflexivity. Qed.

(** C10: the departure update handles a missing key only, by leaving the
    state alone.  When the vertex is labelled and its community has count
    [n], a count of at least two (one that has a double) makes the update
    succeed, leaving count [n - 1] and density [max_density / (n - 1)]; a
    count of one, a departing sole member, makes it raise
    [ZeroDivisionError], which nothing catches: the last part is an engine
    call that ends with it. *)
Theorem departure_division md st v :
  (dict_get (communities st) v = None -> depart md st v = Ok st)
  /\ (forall c,
        dict_get (communities st) v = Some c ->
        dict_get (com_to_numvertices st) c = None ->
        depart md st v = Ok st)
  /\ (forall c n,
        dict_get (communities st) v = Some c ->
        dict_get (com_to_numvertices st) c = Some n ->
        (2 <= n <= float_overflow ->
         exists st1,
           depart md st v = Ok st1
           /\ communities st1 = communities st
           /\ dict_get (com_to_numvertices st1) c = Some (n - 1)
           /\ dict_get (density st1) c
              = Some (md / float_of_int (n - 1))%float)
        /\ (n = 1 -> depart md st v = Raise ZeroDivisionError))
  /\ fluidc_modified edge2 [0; 1] [(0, 0); (1, 1)]
       [(0, 0.25%float); (1, 1%float)] 1%float [(0, 1); (1, 1)] 100
     = Raise ZeroDivisionError.
Proof.
  split; [apply depart_unlabelled|].
  split; [intros c; apply depart_uncounted|].
  split; [|vm_compute; reflexivity].
  intros c n Hv Hc. rewrite (depart_counted md st v c n Hv Hc). split.
  - intros Hn. unfold truediv.
    replace (float_overflow <=? Z.abs (n - 1)) with false
      by (symmetry; apply Z.leb_gt; lia).
    replace (n - 1 =? 0) with false by (symmetry; apply Z.eqb_neq; lia).
    simpl. eexists. split; [reflexivity|]. simpl.
    split; [reflexivity|]. split; apply dict_get_set_same.
  - intros ->. reflexivity.
Qed.

Lemma departure_division_witness :
  exists st1,
    depart 1%float
      (mk_engine [(0, 0); (1, 0)] [(0, 0.5%float)] [(0, 2)]) 1 = Ok st1
    /\ communities st1 = [(0, 0); (1, 0)]
    /\ dict_get (com_to_numvertices st1) 0 = Some (2 - 1)
    /\ dict_get (density st1) 0 = Some (1 / float_of_int (2 - 1))%float.
Proof.
  destruct (departure_division 1%float
              (mk_engine [(0, 0); (1, 0)] [(0, 0.5%float)] [(0, 2)]) 1)
    as (_ & _ & H & _).
  destruct (H 0 2) as [H2 _]; [reflexivity | reflexivity |].
  apply H2. split; [lia | discriminate].
Defined.

(** ** The seeding loop *)

Lemma set_minus_length l r : (length (set_minus l r) <= length l)%nat.
Proof.
  induction l as [|v l IH]; simpl; [lia|].
  destruct (mem v r || mem v l); simpl; lia.
Qed.

Lemma mem_app x l l' : mem x (l ++ l') = mem x l || mem x l'.
Proof. unfold mem. apply existsb_app. Qed.

Lemma set_minus_reject l r x :
  set_minus l (r ++ [x]) = filter (fun v => negb (v =? x)) (set_minus l r).
Proof.
  induction l as [|v l IH]; simpl; [reflexivity|].
  rewrite mem_app. simpl. rewrite orb_false_r.
  destruct (mem v r) eqn:Er; simpl; [exact IH|].
  destruct (v =? x) eqn:Ex; simpl.
  - destruct (mem v l); simpl; [exact IH|]. rewrite Ex. simpl. exact IH.
  - destruct (mem v l); simpl; [exact IH|]. rewrite Ex. simpl.
    rewrite IH. reflexivity.
Qed.

Lemma filter_out_length (l : list Z) x :
  In x l -> (length (filter (fun v => negb (Z.eqb v x)) l) < length l)%nat.
Proof.
  induction l as [|y l IH]; simpl; [intros []|].
  intros [->|H].
  - rewrite Z.eqb_refl. simpl.
    pose proof (filter_length_le (fun v => negb (v =? x)) l). lia.
  - destruct (negb (y =? x)); simpl; [apply IH in H; lia|].
    pose proof (filter_length_le (fun v => negb (v =? x)) l). lia.
Qed.

Lemma choice_In rand n (l : list Z) : l <> [] -> In (choice rand n l) l.
Proof.
  intros H. unfold choice. apply nth_In.
  apply Nat.mod_upper_bound. destruct l; [contradiction | discriminate].
Qed.

Lemma skipn_nth_cons {A} (l : list A) i d :
  (i < length l)%nat -> skipn i l = nth i l d :: skipn (S i) l.
Proof.
  revert i. induction l as [|x l IH]; intros i H; simpl in H; [lia|].
  destruct i as [|i]; [reflexivity|]. simpl. apply IH. lia.
Qed.

Lemma seeding_measure_accept groups i :
  (i < length groups)%nat ->
  (seeding_measure groups (mk_seeding [] (S i) [] false 0)
   <= length (skipn (S i) groups) + length (concat (skipn (S i) groups)))%nat.
Proof.
  intros Hi. unfold seeding_measure. cbn [community_idx removed_list].
  destruct (S i <? length groups)%nat eqn:E; [|lia].
  apply Nat.ltb_lt in E.
  rewrite (skipn_nth_cons groups (S i) [] E).
  cbn [concat length]. rewrite length_app.
  pose proof (set_minus_length (nth (S i) groups []) []). lia.
Qed.

Lemma seeding_measure_fields groups seed seed' i r b b' n n' :
  seeding_measure groups (mk_seeding seed i r b n)
  = seeding_measure groups (mk_seeding seed' i r b' n').
Proof. reflexivity. Qed.

(** With fuel up to its measure the seeding loop ends, and it raises
    nothing. *)
Lemma derive_total rand groups bad : forall fuel w,
  (seeding_measure groups w <= fuel)%nat ->
  exists w', derive rand fuel groups bad w = Ok w'.
Proof.
  induction fuel as [|fuel IH]; intros w Hm.
  - unfold seeding_measure in Hm. simpl.
    destruct (community_idx w <? length groups)%nat; [lia|].
    exists w. reflexivity.
  - simpl. unfold seeding_measure in Hm.
    destruct (community_idx w <? length groups)%nat eqn:E;
      [|exists w; reflexivity].
    apply Nat.ltb_lt in E.
    destruct (set_minus (nth (community_idx w) groups []) (removed_list w))
      as [|x pool] eqn:Ep; [eexists; reflexivity|].
    assert (Hin : In (choice rand (next_draws w) (x :: pool)) (x :: pool))
      by (apply choice_In; discriminate).
    destruct (mem (choice rand (next_draws w) (x :: pool)) (keys bad)).
    + apply IH. unfold seeding_measure. cbn [community_idx removed_list].
      apply Nat.ltb_lt in E. rewrite E.
      rewrite set_minus_reject, Ep.
      pose proof (filter_out_length _ _ Hin). lia.
    + apply IH.
      rewrite (seeding_measure_fields groups _ [] _ _ _ false _ 0%nat).
      pose proof (seeding_measure_accept groups (community_idx w) E).
      cbn [length] in Hm. lia.
Qed.

Lemma reseeding_total rand groups bad n :
  exists w, reseeding rand groups bad n = Ok w.
Proof.
  unfold reseeding. apply derive_total. unfold seeding_measure, derive_fuel.
  simpl. destruct groups as [|g groups]; simpl; [lia|].
  rewrite length_app. pose proof (set_minus_length g []).
  unfold skipn. lia.
Qed.

(** How the seeding loop ends: with every community seeded, or at a
    community whose pool of candidates is empty. *)
Lemma derive_Ok rand groups bad : forall fuel w w',
  derive rand fuel groups bad w = Ok w' ->
  exhausted w = false ->
  (exhausted w' = false /\ (length groups <= community_idx w')%nat)
  \/ (exhausted w' = true
      /\ (community_idx w' < length groups)%nat
      /\ set_minus (nth (community_idx w') groups []) (removed_list w') = []).
Proof.
  induction fuel as [|fuel IH]; intros w w' H Hw; simpl in H.
  - destruct (community_idx w <? length groups)%nat eqn:E; [discriminate|].
    injection H as <-. left. apply Nat.ltb_ge in E. auto.
  - destruct (community_idx w <? length groups)%nat eqn:E.
    + apply Nat.ltb_lt in E.
      destruct (set_minus (nth (community_idx w) groups []) (removed_list w))
        as [|x pool] eqn:Ep.
      * injection H as <-. right. simpl. auto.
      * destruct (mem (choice rand (next_draws w) (x :: pool)) (keys bad));
          apply IH in H; auto.
    + injection H as <-. left. apply Nat.ltb_ge in E. auto.
Qed.

(** ** The restart loop *)

Lemma list_setitem_fuel l j x : list_setitem l j x <> OutOfFuel.
Proof.
  unfold list_setitem.
  match goal with |- (if ?b then _ else _) <> _ => destruct b end;
    discriminate.
Qed.

Lemma color_group_fuel idxs : forall l c, color_group l c idxs <> OutOfFuel.
Proof.
  induction idxs as [|j idxs IH]; intros l c; simpl; [discriminate|].
  apply bind_fuel; [apply list_setitem_fuel | intros l'; apply IH].
Qed.

Lemma color_groups_fuel gs : forall l c, color_groups l c gs <> OutOfFuel.
Proof.
  induction gs as [|g gs IH]; intros l c; simpl; [discriminate|].
  apply bind_fuel; [apply color_group_fuel | intros l'; apply IH].
Qed.

Lemma propagate_fuel G max_iter s : propagate G max_iter s <> OutOfFuel.
Proof.
  unfold propagate.
  apply bind_fuel; [apply fluidc_modified_run_fuel | intros [est n]].
  apply bind_fuel; [apply color_groups_fuel | discriminate].
Qed.

Lemma gate_fuel nmi s l : gate nmi s l <> OutOfFuel.
Proof.
  unfold gate. destruct (iter s =? 0); [discriminate|].
  destruct (old_communities s) as [old|]; [|discriminate].
  destruct (nmi l old <? min_NMI s)%float; discriminate.
Qed.

Lemma reseed_fuel rand s l : reseed rand s l <> OutOfFuel.
Proof.
  unfold reseed. destruct (new_communities s) as [groups|]; [|discriminate].
  destruct (reseeding_total rand groups (bad_seed_set s) (draws s)) as [w ->].
  discriminate.
Qed.

Lemma restart_fuel nmi rand G max_iter s :
  restart nmi rand G max_iter s <> OutOfFuel.
Proof.
  unfold restart. apply bind_fuel; [apply propagate_fuel | intros [s0 l]].
  apply bind_fuel; [apply gate_fuel | intros s1; apply reseed_fuel].
Qed.

Lemma gate_iter nmi s l s' : gate nmi s l = Ok s' -> iter s' = iter s.
Proof.
  unfold gate. destruct (iter s =? 0); [intros H; injection H as <-; reflexivity|].
  destruct (old_communities s) as [old|]; [|discriminate].
  destruct (nmi l old <? min_NMI s)%float; intros H; injection H as <-;
    reflexivity.
Qed.

Lemma restart_iter nmi rand G max_iter s s' :
  restart nmi rand G max_iter s = Ok s' -> iter s' = iter s + 1.
Proof.
  intros H. apply restart_Ok in H. destruct H as (s0 & l & s1 & Hp & Hg & Hr).
  apply propagate_kept in Hp. apply gate_iter in Hg. apply reseed_kept in Hr.
  destruct Hp as (_ & _ & _ & Hi & _). destruct Hr as (_ & Hi' & _).
  rewrite Hi', Hg, Hi. reflexivity.
Qed.

(** Enough fuel: the restart loop is never cut short. *)
Lemma restarts_fuel nmi rand G max_iter : forall fuel s,
  (Z.to_nat (max_iter - iter s) <= fuel)%nat ->
  restarts nmi rand G max_iter fuel s <> OutOfFuel.
Proof.
  induction fuel as [|fuel IH]; intros s Hf; simpl;
    destruct (running max_iter s) eqn:E; try discriminate;
    unfold running in E; apply andb_prop in E; destruct E as [_ E];
    apply Z.ltb_lt in E; [lia|].
  destruct (restart nmi rand G max_iter s) as [s'| |] eqn:Er; simpl;
    [|discriminate | destruct (restart_fuel _ _ _ _ _ Er)].
  apply IH. apply restart_iter in Er. lia.
Qed.

Lemma fluidc_plus_run_fuel nmi shuffle rand G k max_iter :
  fluidc_plus_run nmi shuffle rand G k max_iter <> OutOfFuel.
Proof.
  unfold fluidc_plus_run. apply restarts_fuel. simpl. lia.
Qed.

(** The loop as a sequence of restarts: it ends at a state where its test
    fails. *)
Lemma restarts_restarted nmi rand G max_iter : forall fuel s s',
  restarts nmi rand G max_iter fuel s = Ok s' ->
  restarted nmi rand G max_iter s s' /\ running max_iter s' = false.
Proof.
  induction fuel as [|fuel IH]; intros s s' H; simpl in H;
    destruct (running max_iter s) eqn:E; try discriminate.
  - injection H as <-. split; [constructor | exact E].
  - bind_inv H. apply IH in H. destruct H as [H Hr].
    split; [|exact Hr]. eapply restarted_next; eauto.
  - injection H as <-. split; [constructor | exact E].
Qed.

(** The count of restarts stays within [max_iter]. *)
Lemma restarted_iter nmi rand G max_iter s s' :
  restarted nmi rand G max_iter s s' ->
  iter s <= iter s' <= Z.max (iter s) max_iter.
Proof.
  induction 1 as [s|s s1 s2 Hrun Hr _ IH]; [lia|].
  apply restart_iter in Hr. unfold running in Hrun.
  apply andb_prop in Hrun. destruct Hrun as [_ Hrun].
  apply Z.ltb_lt in Hrun. lia.
Qed.

Lemma restarts_done nmi rand G max_iter fuel s :
  running max_iter s = false -> restarts nmi rand G max_iter fuel s = Ok s.
Proof. intros H. destruct fuel; simpl; rewrite H; reflexivity. Qed.

(** One more restart at the end of a sequence of restarts. *)
Lemma restarted_snoc nmi rand G max_iter s s' s'' :
  restarted nmi rand G max_iter s s' ->
  running max_iter s' = true ->
  restart nmi rand G max_iter s' = Ok s'' ->
  restarted nmi rand G max_iter s s''.
Proof.
  induction 1 as [s|s s1 s2 Hrun Hr _ IH]; intros Hrun' Hr'.
  - eapply restarted_next; [exact Hrun' | exact Hr' | constructor].
  - eapply restarted_next; [exact Hrun | exact Hr | apply IH; assumption].
Qed.

(** The loop, entered at [s] with the fuel its restart count leaves,
    returns the first state of its sequence of restarts where its test
    fails. *)
Lemma restarted_restarts nmi rand G max_iter s s' :
  restarted nmi rand G max_iter s s' ->
  running max_iter s' = false ->
  forall fuel,
    (Z.to_nat (max_iter - iter s) <= fuel)%nat ->
    restarts nmi rand G max_iter fuel s = Ok s'.
Proof.
  induction 1 as [s|s s1 s2 Hrun Hr _ IH]; intros Hstop fuel Hf.
  - apply restarts_done, Hstop.
  - pose proof Hrun as Hlt. unfold running in Hlt.
    apply andb_prop in Hlt. destruct Hlt as [_ Hlt]. apply Z.ltb_lt in Hlt.
    destruct fuel as [|fuel]; [lia|]. simpl. rewrite Hrun, Hr. simpl.
    apply IH; [exact Hstop|]. apply restart_iter in Hr. lia.
Qed.

(** What [fluidc_plus] returns, read off the sequence of restarts from
    its first state: the partition held where the loop test fails. *)
Lemma fluidc_plus_returns nmi shuffle rand G k max_iter s :
  restarted nmi rand G max_iter (init shuffle G k) s ->
  running max_iter s = false ->
  fluidc_plus_run nmi shuffle rand G k max_iter = Ok s
  /\ fluidc_plus nmi shuffle rand G k max_iter = Ok (new_communities s).
Proof.
  intros Hs Hstop.
  assert (Hrun : fluidc_plus_run nmi shuffle rand G k max_iter = Ok s).
  { unfold fluidc_plus_run.
    apply (restarted_restarts _ _ _ _ _ _ Hs Hstop). simpl. lia. }
  split; [exact Hrun|]. unfold fluidc_plus. rewrite Hrun. reflexivity.
Qed.

(** C6: in a run of [fluidc_plus], when the seeding loop of a restart ends
    at a community whose pool of candidates (its members minus the
    vertices rejected so far) is empty, the restart completes with
    [seed_init_num] forced to 10, the loop test fails, the loop ends at
    that state, and [fluidc_plus] returns the partition of this restart:
    nothing is raised. *)
Theorem seed_exhaustion nmi shuffle rand G k max_iter s s0
  new_communities_list s1 groups w fuel :
  restarted nmi rand G max_iter (init shuffle G k) s ->
  running max_iter s = true ->
  propagate G max_iter s = Ok (s0, new_communities_list) ->
  gate nmi s0 new_communities_list = Ok s1 ->
  new_communities s1 = Some groups ->
  reseeding rand groups (bad_seed_set s1) (draws s1) = Ok w ->
  (community_idx w < length groups)%nat ->
  set_minus (nth (community_idx w) groups []) (removed_list w) = [] ->
  exists s',
    restart nmi rand G max_iter s = Ok s'
    /\ seed_init_num s' = 10
    /\ running max_iter s' = false
    /\ new_communities s' = Some groups
    /\ new_communities s0 = Some groups
    /\ restarts nmi rand G max_iter (S fuel) s = Ok s'
    /\ fluidc_plus_run nmi shuffle rand G k max_iter = Ok s'
    /\ fluidc_plus nmi shuffle rand G k max_iter = Ok (Some groups).
Proof.
  intros Hreach Hrun Hp Hg Hgroups Hw Hidx Hpool.
  assert (Hex : exhausted w = true).
  { unfold reseeding in Hw. apply derive_Ok in Hw; [|reflexivity].
    destruct Hw as [[_ Hle]|[He _]]; [lia | exact He]. }
  assert (Hr : reseed rand s1 new_communities_list
               = Ok (mk_state (next_seed_set w) (bad_seed_set s1) 10
                       (iter s1 + 1) (shared_density s1)
                       (shared_com_to_numvertices s1)
                       (Some new_communities_list) (new_communities s1)
                       (nmi_list s1) (min_NMI s1) (next_draws w))).
  { unfold reseed. rewrite Hgroups, Hw. simpl. rewrite Hex. reflexivity. }
  assert (Hrestart : restart nmi rand G max_iter s
                     = Ok (mk_state (next_seed_set w) (bad_seed_set s1) 10
                             (iter s1 + 1) (shared_density s1)
                             (shared_com_to_numvertices s1)
                             (Some new_communities_list) (new_communities s1)
                             (nmi_list s1) (min_NMI s1) (next_draws w))).
  { unfold restart. rewrite Hp. simpl. rewrite Hg. simpl. exact Hr. }
  assert (Hstop : running max_iter
                    (mk_state (next_seed_set w) (bad_seed_set s1) 10
                       (iter s1 + 1) (shared_density s1)
                       (shared_com_to_numvertices s1)
                       (Some new_communities_list) (new_communities s1)
                       (nmi_list s1) (min_NMI s1) (next_draws w)) = false)
    by reflexivity.
  destruct (fluidc_plus_returns nmi shuffle rand G k max_iter _
              (restarted_snoc _ _ _ _ _ _ _ Hreach Hrun Hrestart) Hstop)
    as [Hloop Hret].
  cbn [new_communities] in Hret. rewrite Hgroups in Hret.
  eexists. split; [exact Hrestart|].
  split; [reflexivity|]. split; [exact Hstop|].
  split; [exact Hgroups|]. split.
  { unfold gate in Hg. destruct (iter s0 =? 0).
    - injection Hg as ->. exact Hgroups.
    - destruct (old_communities s0) as [old|]; [|discriminate].
      destruct (nmi new_communities_list old <? min_NMI s0)%float;
        injection Hg as <-; exact Hgroups. }
  split; [|split; [exact Hloop | exact Hret]].
  simpl. rewrite Hrun, Hrestart. simpl. apply restarts_done, Hstop.
Qed.

Lemma seed_exhaustion_witness :
  exists s',
    restart zero_scorer first_draw path4 5 (init no_shuffle path4 2) = Ok s'
    /\ seed_init_num s' = 10
    /\ running 5 s' = false
    /\ new_communities s' = Some [[0; 1]; [2; 3]]
    /\ new_communities
         (mk_state [(0, 0); (1, 1)] [(0, 0); (1, 1)] 0 0
            [(0, 0.5%float); (1, 0.5%float)] [(0, 2); (1, 2)] None
            (Some [[0; 1]; [2; 3]]) [] 1%float 0)
       = Some [[0; 1]; [2; 3]]
    /\ restarts zero_scorer first_draw path4 5 1 (init no_shuffle path4 2)
       = Ok s'
    /\ fluidc_plus_run zero_scorer no_shuffle first_draw path4 2 5 = Ok s'
    /\ fluidc_plus zero_scorer no_shuffle first_draw path4 2 5
       = Ok (Some [[0; 1]; [2; 3]]).
Proof.
  apply (seed_exhaustion zero_scorer no_shuffle first_draw path4 2 5
           (init no_shuffle path4 2)
           (mk_state [(0, 0); (1, 1)] [(0, 0); (1, 1)] 0 0
              [(0, 0.5%float); (1, 0.5%float)] [(0, 2); (1, 2)] None
              (Some [[0; 1]; [2; 3]]) [] 1%float 0)
           [0; 0; 1; 1]
           (mk_state [(0, 0); (1, 1)] [(0, 0); (1, 1)] 0 0
              [(0, 0.5%float); (1, 0.5%float)] [(0, 2); (1, 2)] None
              (Some [[0; 1]; [2; 3]]) [] 1%float 0)
           [[0; 1]; [2; 3]]
           (mk_seeding [] 0 [0; 1] true 2) 0).
  - apply restarted_here.
  - reflexivity.
  - vm_compute. reflexivity.
  - reflexivity.
  - reflexivity.
  - vm_compute. reflexivity.
  - simpl. lia.
  - reflexivity.
Defined.

Lemma propagate_Ok G max_iter s s0 l :
  propagate G max_iter s = Ok (s0, l) ->
  exists est n,
    fluidc_modified_run G (sorted_by_degree G) (seed_set s) (fst (handed s))
      max_density (snd (handed s)) max_iter = Ok (est, n)
    /\ nodes_color G (groups_of est) = Ok l
    /\ new_communities s0 = Some (groups_of est)
    /\ shared_density s0 = density est
    /\ shared_com_to_numvertices s0 = com_to_numvertices est.
Proof.
  unfold propagate. intros H. bind_inv H. destruct a as [est n]. simpl in H.
  bind_inv H. injection H as <- <-. exists est, n. simpl. auto.
Qed.

Lemma reseed_seed_init_num rand s l s' :
  reseed rand s l = Ok s' ->
  seed_init_num s' = seed_init_num s \/ seed_init_num s' = 10.
Proof.
  unfold reseed. destruct (new_communities s) as [groups|]; [|discriminate].
  intros H. bind_inv H. injection H as <-. simpl.
  destruct (exhausted a); auto.
Qed.

(** C7 as stated fails: on the ring with the scorer stuck at 0 and
    [max_iter = 1] the controller stops after one restart, its bad-restart
    count still 0. *)
Lemma restart_cap_not_reached :
  fluidc_plus_run zero_scorer no_shuffle first_draw ring4 2 1
  = Ok after_one_restart
  /\ iter after_one_restart = 1
  /\ seed_init_num after_one_restart = 0
  /\ ~ (iter after_one_restart = 10 /\ seed_init_num after_one_restart = 10).
Proof.
  split; [vm_compute; reflexivity|].
  split; [reflexivity|]. split; [reflexivity|].
  intros [H _]. discriminate H.
Qed.

(** C7, amended: with the scorer stuck at 0 and [max_iter = 1] a run that
    raises nothing makes exactly one restart, which is [max_iter] of them;
    the scorer is never consulted, so the bad-restart count is still 0
    unless seed exhaustion forced it to 10; and the partition returned is
    the one the engine computed in that restart. *)
Theorem single_restart shuffle rand G k s :
  fluidc_plus_run zero_scorer shuffle rand G k 1 = Ok s ->
  iter s = 1
  /\ nmi_list s = []
  /\ (seed_init_num s = 0 \/ seed_init_num s = 10)
  /\ exists est n,
       fluidc_modified_run G (sorted_by_degree G)
         (seed_set (init shuffle G k)) (fst (handed (init shuffle G k)))
         max_density (snd (handed (init shuffle G k))) 1 = Ok (est, n)
       /\ new_communities s = Some (groups_of est)
       /\ fluidc_plus zero_scorer shuffle rand G k 1
          = Ok (Some (groups_of est)).
Proof.
  intros Hrun. unfold fluidc_plus. rewrite Hrun. simpl.
  unfold fluidc_plus_run in Hrun.
  change (Z.to_nat 1) with 1%nat in Hrun. simpl in Hrun.
  bind_inv Hrun. rename a into s'.
  pose proof (restart_iter _ _ _ _ _ _ Ha) as Hi. simpl in Hi.
  assert (Hstop : running 1 s' = false).
  { unfold running. rewrite Hi. apply andb_false_r. }
  rewrite Hstop in Hrun. injection Hrun as <-.
  apply restart_Ok in Ha. destruct Ha as (s0 & l & s1 & Hp & Hg & Hr).
  pose proof (propagate_kept _ _ _ _ _ Hp) as (_ & _ & Hn0 & Hi0 & _ & Hl0 & _).
  apply propagate_Ok in Hp.
  destruct Hp as (est & n & Hrun & _ & Hnew & _).
  unfold gate in Hg. rewrite Hi0 in Hg. simpl in Hg. injection Hg as <-.
  pose proof (reseed_seed_init_num _ _ _ _ Hr) as Hs.
  apply reseed_kept in Hr. destruct Hr as (_ & _ & Hl & _ & Hnew' & _).
  rewrite Hn0 in Hs. simpl in Hs.
  split; [exact Hi|]. split; [rewrite Hl, Hl0; reflexivity|].
  split; [exact Hs|]. exists est, n.
  rewrite Hnew', Hnew. auto.
Qed.

Lemma single_restart_witness :
  iter after_one_restart = 1
  /\ nmi_list after_one_restart = []
  /\ (seed_init_num after_one_restart = 0
      \/ seed_init_num after_one_restart = 10)
  /\ exists est n,
       fluidc_modified_run ring4 (sorted_by_degree ring4)
         (seed_set (init no_shuffle ring4 2))
         (fst (handed (init no_shuffle ring4 2)))
         max_density (snd (handed (init no_shuffle ring4 2))) 1
       = Ok (est, n)
       /\ new_communities after_one_restart = Some (groups_of est)
       /\ fluidc_plus zero_scorer no_shuffle first_draw ring4 2 1
          = Ok (Some (groups_of est)).
Proof.
  apply (single_restart no_shuffle first_draw ring4 2 after_one_restart).
  vm_compute. reflexivity.
Defined.

(** ** Density and count stay consistent *)

Lemma consistent_set md dens counts c n d :
  consistent md dens counts ->
  d = (md / float_of_int n)%float ->
  consistent md (dict_set dens c d) (dict_set counts c n).
Proof.
  intros H -> c0 n0 Hc Hn. destruct (Z.eq_dec c c0) as [->|Hne].
  - rewrite dict_get_set_same in Hc. injection Hc as <-.
    rewrite dict_get_set_same. reflexivity.
  - rewrite dict_get_set_other in Hc by exact Hne.
    rewrite dict_get_set_other by exact Hne. apply H; assumption.
Qed.

Lemma init_bookkeeping_consistent seed : forall dens counts,
  consistent max_density dens counts ->
  consistent max_density (fst (init_bookkeeping seed (dens, counts)))
    (snd (init_bookkeeping seed (dens, counts))).
Proof.
  unfold init_bookkeeping.
  induction seed as [|[v c] seed IH]; intros dens counts H; simpl;
    [exact H|].
  apply IH. apply consistent_set; [exact H | reflexivity].
Qed.

Lemma depart_consistent md st v st1 :
  consistent md (density st) (com_to_numvertices st) ->
  depart md st v = Ok st1 ->
  consistent md (density st1) (com_to_numvertices st1).
Proof.
  intros H. unfold depart.
  destruct (dict_get (communities st) v) as [c|];
    [|intros E; injection E as <-; exact H].
  destruct (dict_get (com_to_numvertices st) c) as [n|];
    [|intros E; injection E as <-; exact H].
  intros E. bind_inv E. injection E as <-. simpl.
  apply truediv_Ok in Ha. destruct Ha as (_ & _ & ->).
  apply consistent_set; [exact H | reflexivity].
Qed.

Lemma arrive_consistent md st v c st' :
  consistent md (density st) (com_to_numvertices st) ->
  arrive md st v c = Ok st' ->
  consistent md (density st') (com_to_numvertices st').
Proof.
  intros H. unfold arrive. intros E. bind_inv E. bind_inv E.
  injection E as <-. simpl.
  apply truediv_Ok in Ha0. destruct Ha0 as (_ & _ & ->).
  apply consistent_set; [exact H | reflexivity].
Qed.

Lemma update_vertex_consistent G md st v st' ch :
  consistent md (density st) (com_to_numvertices st) ->
  update_vertex G md st v = Ok (st', ch) ->
  consistent md (density st') (com_to_numvertices st').
Proof.
  intros H Hu. apply update_vertex_Ok in Hu.
  destruct Hu as [[-> _]|[_ (nbrs & c & st1 & _ & _ & _ & _ & Hd & Ha)]];
    [exact H|].
  eapply arrive_consistent; [|exact Ha].
  eapply depart_consistent; [exact H | exact Hd].
Qed.

(** From a consistent state every point of an engine run is consistent. *)
Lemma engine_reaches_consistent G md st st' :
  engine_reaches G md st st' ->
  consistent md (density st) (com_to_numvertices st) ->
  consistent md (density st') (com_to_numvertices st').
Proof.
  apply (engine_reaches_invariant G md
           (fun st => consistent md (density st) (com_to_numvertices st))).
  intros s v s' ch. apply update_vertex_consistent.
Qed.

Lemma gate_shared nmi s l s' :
  gate nmi s l = Ok s' ->
  shared_density s' = shared_density s
  /\ shared_com_to_numvertices s' = shared_com_to_numvertices s
  /\ seed_set s' = seed_set s
  /\ new_communities s' = new_communities s
  /\ draws s' = draws s.
Proof.
  unfold gate. destruct (iter s =? 0);
    [intros H; injection H as <-; repeat split; reflexivity|].
  destruct (old_communities s) as [old|]; [|discriminate].
  destruct (nmi l old <? min_NMI s)%float; intros H; injection H as <-;
    repeat split; reflexivity.
Qed.

Lemma restart_consistent nmi rand G max_iter s s' :
  consistent max_density (shared_density s) (shared_com_to_numvertices s) ->
  restart nmi rand G max_iter s = Ok s' ->
  consistent max_density (shared_density s') (shared_com_to_numvertices s').
Proof.
  intros H Hr. apply restart_Ok in Hr.
  destruct Hr as (s0 & l & s1 & Hp & Hg & Hr).
  apply propagate_Ok in Hp. destruct Hp as (est & n & Hrun & _ & _ & Hd & Hc).
  apply gate_shared in Hg. destruct Hg as (Hd1 & Hc1 & _).
  apply reseed_kept in Hr. destruct Hr as (_ & _ & _ & _ & _ & Hd' & Hc' & _).
  rewrite Hd', Hc', Hd1, Hc1, Hd, Hc.
  unfold fluidc_modified_run in Hrun. apply passes_reaches in Hrun.
  apply (engine_reaches_consistent _ _ _ _ Hrun). simpl.
  apply init_bookkeeping_consistent, H.
Qed.

Lemma restarted_consistent nmi rand G max_iter s s' :
  restarted nmi rand G max_iter s s' ->
  consistent max_density (shared_density s) (shared_com_to_numvertices s) ->
  consistent max_density (shared_density s') (shared_com_to_numvertices s').
Proof.
  induction 1 as [s|s s1 s2 _ Hr _ IH]; intros H; [exact H|].
  apply IH. eapply restart_consistent; [exact H | exact Hr].
Qed.

(** C2: in every engine run of the controller, right after the
    per-restart seed initialisation and at every point after a label
    change, each community with a positive count has the density
    [max_density / count], the very float. *)
Theorem density_count_consistency nmi shuffle rand G k max_iter s st :
  restarted nmi rand G max_iter (init shuffle G k) s ->
  engine_reaches G max_density
    (mk_engine (seed_set s) (fst (handed s)) (snd (handed s))) st ->
  forall c n,
    dict_get (com_to_numvertices st) c = Some n -> 0 < n ->
    dict_get (density st) c = Some (max_density / float_of_int n)%float.
Proof.
  intros Hs Hst.
  apply (engine_reaches_consistent _ _ _ _ Hst). simpl.
  apply init_bookkeeping_consistent.
  apply (restarted_consistent _ _ _ _ _ _ Hs).
  intros c n Hc. discriminate Hc.
Qed.

Lemma density_count_consistency_witness :
  dict_get [(0, 0.5%float); (1, 1%float)] 0
  = Some (max_density / float_of_int 2)%float.
Proof.
  refine (density_count_consistency zero_scorer no_shuffle first_draw ring4
            2 5 after_one_restart
            (mk_engine [(3, 0); (2, 1); (0, 0)]
               [(0, 0.5%float); (1, 1%float)] [(0, 2); (1, 1)]) _ _ 0 2 _ _).
  - apply (restarted_next _ _ _ _ _ after_one_restart);
      [reflexivity | vm_compute; reflexivity | apply restarted_here].
  - apply (reaches_update _ _ _ 0
             (mk_engine [(3, 0); (2, 1); (0, 0)]
                [(0, 0.5%float); (1, 1%float)] [(0, 2); (1, 1)]) true);
      [vm_compute; reflexivity | apply reaches_here].
  - reflexivity.
  - lia.
Defined.

(** ** Order of the floats *)

Lemma lex_Lt e1 e2 (m1 m2 : positive) :
  match e1 ?= e2 with
  | Lt => Lt
  | Gt => Gt
  | Eq => Pos.compare_cont Eq m1 m2
  end = Lt <-> e1 < e2 \/ (e1 = e2 /\ (m1 < m2)%positive).
Proof.
  change (Pos.compare_cont Eq m1 m2) with (m1 ?= m2)%positive.
  destruct (Z.compare_spec e1 e2); destruct (Pos.compare_spec m1 m2);
    split; intros H'; try discriminate; try reflexivity; try lia.
Qed.

Lemma lex_Gt e1 e2 (m1 m2 : positive) :
  match e1 ?= e2 with
  | Lt => Gt
  | Gt => Lt
  | Eq => CompOpp (Pos.compare_cont Eq m1 m2)
  end = Lt <-> e2 < e1 \/ (e1 = e2 /\ (m2 < m1)%positive).
Proof.
  change (Pos.compare_cont Eq m1 m2) with (m1 ?= m2)%positive.
  destruct (Z.compare_spec e1 e2); destruct (Pos.compare_spec m1 m2);
    simpl; split; intros H'; try discriminate; try reflexivity; try lia.
Qed.

Lemma SFltb_trans a b c :
  SFltb a b = true -> SFltb b c = true -> SFltb a c = true.
Proof.
  unfold SFltb, SFcompare.
  destruct a as [sa|sa| |sa ma ea]; destruct b as [sb|sb| |sb mb eb];
    destruct c as [sc|sc| |sc mc ec];
    repeat match goal with s : bool |- _ => destruct s end;
    try discriminate; try reflexivity.
  - intros H1 H2.
    destruct (match ea ?= eb with Lt => Gt | Gt => Lt
              | Eq => CompOpp (Pos.compare_cont Eq ma mb) end) eqn:E1;
      try discriminate.
    destruct (match eb ?= ec with Lt => Gt | Gt => Lt
              | Eq => CompOpp (Pos.compare_cont Eq mb mc) end) eqn:E2;
      try discriminate.
    apply lex_Gt in E1. apply lex_Gt in E2.
    assert (E3 : ec < ea \/ (ea = ec /\ (mc < ma)%positive)) by lia.
    apply lex_Gt in E3. rewrite E3. reflexivity.
  - intros H1 H2.
    destruct (match ea ?= eb with Lt => Lt | Gt => Gt
              | Eq => Pos.compare_cont Eq ma mb end) eqn:E1;
      try discriminate.
    destruct (match eb ?= ec with Lt => Lt | Gt => Gt
              | Eq => Pos.compare_cont Eq mb mc end) eqn:E2;
      try discriminate.
    apply lex_Lt in E1. apply lex_Lt in E2.
    assert (E3 : ea < ec \/ (ea = ec /\ (ma < mc)%positive)) by lia.
    apply lex_Lt in E3. rewrite E3. reflexivity.
Qed.

Lemma SFltb_irrefl a : SFltb a a = false.
Proof.
  unfold SFltb, SFcompare. destruct a as [s|s| |s m e]; try reflexivity;
    destruct s; try reflexivity;
    rewrite Z.compare_refl;
    change (Pos.compare_cont Eq m m) with (m ?= m)%positive;
    rewrite Pos.compare_refl; reflexivity.
Qed.

Lemma ltb_trans (x y z : float) :
  (x <? y)%float = true -> (y <? z)%float = true -> (x <? z)%float = true.
Proof. rewrite !ltb_spec. apply SFltb_trans. Qed.

Lemma ltb_irrefl (x : float) : (x <? x)%float = false.
Proof. rewrite ltb_spec. apply SFltb_irrefl. Qed.

(** [max] returns an item no other item exceeds. *)
Lemma py_max_upper xs : forall x w,
  In w (x :: xs) -> (py_max x xs <? w)%float = false.
Proof.
  unfold py_max.
  assert (Hgen : forall seen m,
             (forall w, In w seen -> (m <? w)%float = false) ->
             forall w, In w (seen ++ xs) ->
               (fold_left (fun m y => if (m <? y)%float then y else m) xs m
                <? w)%float = false).
  { induction xs as [|y xs IH]; intros seen m Hseen w Hw; simpl.
    - rewrite app_nil_r in Hw. apply Hseen, Hw.
    - apply (IH (seen ++ [y])).
      + intros w' Hw'. apply in_app_or in Hw'.
        destruct (m <? y)%float eqn:E.
        * destruct Hw' as [Hw'|[<-|[]]]; [|apply ltb_irrefl].
          destruct (y <? w')%float eqn:E'; [|reflexivity].
          rewrite <- (Hseen w' Hw'). symmetry.
          apply (ltb_trans _ _ _ E E').
        * destruct Hw' as [Hw'|[<-|[]]]; [apply Hseen, Hw' | exact E].
      + rewrite <- app_assoc. exact Hw. }
  intros x w Hw. apply (Hgen [x] x).
  - intros w' [<-|[]]. apply ltb_irrefl.
  - exact Hw.
Qed.

(** [np.argmin] returns an index within the list, of an item no other item
    is below. *)
Lemma argmin_from_least xs : forall pre best m,
  (best < length pre)%nat ->
  nth best (pre ++ xs) 0%float = m ->
  (forall x, In x pre -> (x <? m)%float = false) ->
  let r := argmin_from (length pre) best m xs in
  (r < length (pre ++ xs))%nat
  /\ forall x, In x (pre ++ xs) ->
       (x <? nth r (pre ++ xs) 0%float)%float = false.
Proof.
  induction xs as [|y xs IH]; intros pre best m Hb Hm Hpre; simpl.
  - rewrite app_nil_r in *. split; [exact Hb|]. rewrite Hm. exact Hpre.
  - replace (pre ++ y :: xs) with ((pre ++ [y]) ++ xs) in *
      by (rewrite <- app_assoc; reflexivity).
    replace (S (length pre)) with (length (pre ++ [y]))
      by (rewrite length_app; simpl; lia).
    destruct (y <? m)%float eqn:E.
    + apply IH.
      * rewrite length_app. simpl. lia.
      * rewrite app_nth1 by (rewrite length_app; simpl; lia).
        rewrite app_nth2 by lia. rewrite Nat.sub_diag. reflexivity.
      * intros x Hx. apply in_app_or in Hx.
        destruct Hx as [Hx|[<-|[]]]; [|apply ltb_irrefl].
        destruct (x <? y)%float eqn:E'; [|reflexivity].
        rewrite <- (Hpre x Hx). symmetry. apply (ltb_trans _ _ _ E' E).
    + apply IH.
      * rewrite length_app. simpl. lia.
      * exact Hm.
      * intros x Hx. apply in_app_or in Hx.
        destruct Hx as [Hx|[<-|[]]]; [apply Hpre, Hx | exact E].
Qed.

Lemma argmin_least ds :
  ds <> [] ->
  (argmin ds < length ds)%nat
  /\ forall x, In x ds -> (x <? nth (argmin ds) ds 0%float)%float = false.
Proof.
  destruct ds as [|d ds]; [intros H; contradiction|]. intros _.
  apply (argmin_from_least ds [d] 0%nat d).
  - simpl. lia.
  - reflexivity.
  - intros x [<-|[]]. apply ltb_irrefl.
Qed.

(** The densities [1.0 / count] go down as the count goes up, for counts
    up to [count_bound]. *)
Lemma densities_decrease_spec fuel : forall n i,
  densities_decrease fuel n = true ->
  n <= i < n + Z.of_nat fuel ->
  (max_density / float_of_int (i + 1) <? max_density / float_of_int i)%float
  = true.
Proof.
  induction fuel as [|fuel IH]; intros n i H Hi; [lia|].
  simpl in H. apply andb_prop in H. destruct H as [H0 H].
  destruct (Z.eq_dec i n) as [->|Hne]; [exact H0|].
  apply (IH (n + 1)); [exact H | lia].
Qed.

Lemma densities_decrease_checked :
  densities_decrease (Z.to_nat (count_bound - 1)) 1 = true.
Proof. vm_compute. reflexivity. Qed.

Lemma unit_density_decreases n m :
  1 <= n -> n < m -> m <= count_bound ->
  (max_density / float_of_int m <? max_density / float_of_int n)%float = true.
Proof.
  intros Hn Hnm Hm.
  assert (Hstep : forall i, 1 <= i < count_bound ->
            (max_density / float_of_int (i + 1)
             <? max_density / float_of_int i)%float = true).
  { intros i Hi. apply (densities_decrease_spec _ 1 i densities_decrease_checked).
    unfold count_bound in *. lia. }
  assert (Hgen : forall j : nat, n + 1 + Z.of_nat j <= count_bound ->
            (max_density / float_of_int (n + 1 + Z.of_nat j)
             <? max_density / float_of_int n)%float = true).
  { induction j as [|j IH]; intros Hj.
    - replace (n + 1 + Z.of_nat 0) with (n + 1) by lia. apply Hstep. lia.
    - replace (n + 1 + Z.of_nat (S j)) with (n + 1 + Z.of_nat j + 1) by lia.
      eapply ltb_trans; [apply Hstep; lia | apply IH; lia]. }
  replace m with (n + 1 + Z.of_nat (Z.to_nat (m - n - 1))) by lia.
  apply Hgen. lia.
Qed.

(** ** The per-vertex update rule *)

Lemma Forall2_nth_rel {A B} (R : A -> B -> Prop) l1 l2 i a b :
  Forall2 R l1 l2 -> (i < length l1)%nat -> R (nth i l1 a) (nth i l2 b).
Proof.
  intros H. revert i. induction H as [|x y l1 l2 Hxy _ IH]; intros i Hi;
    simpl in Hi; [lia|].
  destruct i as [|i]; simpl; [exact Hxy | apply IH; lia].
Qed.

Lemma Forall2_In_rel {A B} (R : A -> B -> Prop) l1 l2 a :
  Forall2 R l1 l2 -> In a l1 -> exists b, In b l2 /\ R a b.
Proof.
  induction 1 as [|x y l1 l2 Hxy _ IH]; intros Hin; [destruct Hin|].
  destruct Hin as [<-|Hin].
  - exists y. split; [left; reflexivity | exact Hxy].
  - destruct (IH Hin) as [b [Hb HR]]. exists b. split; [right; exact Hb | exact HR].
Qed.

Lemma com_densities_of_Ok md counts best : forall ds,
  com_densities_of md counts best = Ok ds ->
  Forall2
    (fun b d =>
       exists n, dict_get counts b = Some n
                 /\ d = (md / float_of_int n)%float)
    best ds.
Proof.
  induction best as [|b best IH]; intros ds H; simpl in H.
  - injection H as <-. constructor.
  - bind_inv H. rename a into n. bind_inv H. rename a into d.
    bind_inv H. injection H as <-. constructor; [|apply IH; assumption].
    unfold getitem in Ha. destruct (dict_get counts b) as [n'|] eqn:E;
      [|discriminate]. injection Ha as ->.
    apply truediv_Ok in Ha0. destruct Ha0 as (_ & _ & ->).
    exists n. auto.
Qed.

(** The tie-break: the community adopted is a candidate; a lone candidate
    is adopted as it is; among several, none has a density below that of
    the one adopted. *)
Lemma choose_Ok md counts best new_com :
  choose md counts best = Ok new_com ->
  In new_com best
  /\ (forall b, best = [b] -> new_com = b)
  /\ ((1 < length best)%nat ->
      exists n,
        dict_get counts new_com = Some n
        /\ forall b n', In b best -> dict_get counts b = Some n' ->
             (md / float_of_int n' <? md / float_of_int n)%float = false).
Proof.
  unfold choose. destruct (1 <? length best)%nat eqn:E.
  - apply Nat.ltb_lt in E. intros H. bind_inv H. rename a into ds.
    injection H as <-. apply com_densities_of_Ok in Ha.
    pose proof (Forall2_length Ha) as Hlen.
    assert (Hds : ds <> []) by (intros ->; simpl in Hlen; lia).
    destruct (argmin_least ds Hds) as [Hr Hmin].
    rewrite <- Hlen in Hr.
    split; [apply nth_In, Hr|].
    split; [intros b ->; simpl in E; lia|]. intros _.
    destruct (Forall2_nth_rel _ _ _ _ 0 0%float Ha Hr) as (n & Hn & Hd).
    exists n. split; [exact Hn|]. intros b n' Hb Hn'.
    destruct (Forall2_In_rel _ _ _ _ Ha Hb) as (d' & Hd' & n'' & Hn'' & ->).
    rewrite Hn' in Hn''. injection Hn'' as <-.
    rewrite <- Hd. apply Hmin, Hd'.
  - apply Nat.ltb_ge in E. destruct best as [|b best]; [discriminate|].
    intros H. injection H as <-.
    split; [left; reflexivity|].
    split; [intros b' H; injection H as <-; reflexivity|].
    intros H. lia.
Qed.

Lemma best_communities_of_In com_counter c :
  com_counter <> [] ->
  In c (best_communities_of com_counter) <->
  exists w, In (c, w) com_counter
            /\ (max_vote com_counter - w <? tolerance)%float = true.
Proof.
  intros Hne. unfold best_communities_of, max_vote.
  destruct com_counter as [|[c0 w0] cc]; [contradiction|].
  cbn [values map snd]. rewrite in_map_iff. split.
  - intros [[c' w] [Hc Hin]]. simpl in Hc. subst c'.
    apply filter_In in Hin. exists w. exact Hin.
  - intros [w [Hin Hw]]. exists (c, w). split; [reflexivity|].
    apply filter_In. auto.
Qed.

Lemma max_vote_upper com_counter w :
  In w (values com_counter) -> (max_vote com_counter <? w)%float = false.
Proof.
  unfold max_vote. destruct (values com_counter) as [|x xs]; [intros []|].
  apply py_max_upper.
Qed.

Lemma preserved_stays st v best :
  preserved st v best <> -1 ->
  exists c, dict_get (communities st) v = Some c /\ In c best.
Proof.
  unfold preserved. destruct (dict_get (communities st) v) as [c|];
    [|intros H; contradiction].
  destruct (mem c best) eqn:E; [|intros H; contradiction].
  intros _. exists c. split; [reflexivity | apply mem_In, E].
Qed.

(** C1: the update of a vertex whose accumulated vote is not empty.  The
    candidates are the communities whose vote is within [tolerance] of the
    best vote, which no vote exceeds.  A vertex whose label (a label is
    never the sentinel -1) is a candidate keeps it and nothing changes.
    Otherwise the vertex is relabelled with a candidate: the only one if
    there is one, else one whose density [max_density / count] no
    candidate's is below; with the controller's [max_density] and counts
    from 1 to [count_bound] that is one of largest count. *)
Theorem update_rule G md st v nbrs :
  dict_get G v = Some nbrs ->
  gather st v nbrs <> [] ->
  let votes := gather st v nbrs in
  let best := best_communities_of votes in
  (forall w, In w (values votes) -> (max_vote votes <? w)%float = false)
  /\ (forall c,
        In c best <->
        exists w, In (c, w) votes
                  /\ (max_vote votes - w <? tolerance)%float = true)
  /\ (forall c,
        dict_get (communities st) v = Some c -> c <> -1 -> In c best ->
        update_vertex G md st v = Ok (st, false))
  /\ (forall st' changed,
        (forall c, dict_get (communities st) v = Some c -> ~ In c best) ->
        update_vertex G md st v = Ok (st', changed) ->
        changed = true
        /\ exists new_com,
             dict_get (communities st') v = Some new_com
             /\ In new_com best
             /\ (forall b, best = [b] -> new_com = b)
             /\ ((1 < length best)%nat ->
                 exists n,
                   dict_get (com_to_numvertices st) new_com = Some n
                   /\ (forall b n',
                         In b best ->
                         dict_get (com_to_numvertices st) b = Some n' ->
                         (md / float_of_int n' <? md / float_of_int n)%float
                         = false)
                   /\ (md = max_density ->
                       (forall b n',
                           In b best ->
                           dict_get (com_to_numvertices st) b = Some n' ->
                           1 <= n' <= count_bound) ->
                       forall b n',
                         In b best ->
                         dict_get (com_to_numvertices st) b = Some n' ->
                         n' <= n))).
Proof.
  intros HG Hvotes votes best.
  split; [intros w; apply max_vote_upper|].
  split; [intros c; apply best_communities_of_In, Hvotes|].
  split.
  - intros c Hc Hne Hin. unfold update_vertex, getitem. rewrite HG. simpl.
    fold votes. destruct votes as [|x cc] eqn:Ev; [contradiction|].
    fold best. unfold preserved. rewrite Hc.
    apply mem_In in Hin. rewrite Hin.
    destruct (c =? -1) eqn:E; [apply Z.eqb_eq in E; contradiction|].
    reflexivity.
  - intros st' changed Hnot Hu. unfold update_vertex, getitem in Hu.
    rewrite HG in Hu. simpl in Hu. fold votes in Hu.
    destruct votes as [|x cc] eqn:Ev; [contradiction|]. fold best in Hu.
    destruct (preserved st v best =? -1) eqn:Ep.
    + bind_inv Hu. rename a into new_com. bind_inv Hu. rename a into st1.
      bind_inv Hu. rename a into st2. injection Hu as <- <-.
      split; [reflexivity|]. exists new_com.
      apply depart_communities in Ha0. apply arrive_communities in Ha1.
      rewrite Ha1, Ha0. split; [apply dict_get_set_same|].
      apply choose_Ok in Ha. destruct Ha as (Hin & Hone & Hmany).
      split; [exact Hin|]. split; [exact Hone|]. intros Hlen.
      destruct (Hmany Hlen) as (n & Hn & Hleast).
      exists n. split; [exact Hn|]. split; [exact Hleast|].
      intros -> Hbound b n' Hb Hn'.
      destruct (Z.le_gt_cases n' n) as [Hle|Hgt]; [exact Hle|]. exfalso.
      pose proof (Hbound _ _ Hin Hn) as Hbn.
      pose proof (Hbound _ _ Hb Hn') as Hbn'.
      pose proof (Hleast b n' Hb Hn') as Hl.
      rewrite (unit_density_decreases n n') in Hl by lia. discriminate.
    + apply Z.eqb_neq in Ep. apply preserved_stays in Ep.
      destruct Ep as (c & Hc & Hin). exfalso. exact (Hnot c Hc Hin).
Qed.

Lemma update_rule_witness :
  best_communities_of (gather tie_state 0 [1; 2; 3]) = [0; 1]
  /\ exists st',
       update_vertex star4 max_density tie_state 0 = Ok (st', true)
       /\ dict_get (communities st') 0 = Some 0
       /\ forall b n',
            In b [0; 1] ->
            dict_get (com_to_numvertices tie_state) b = Some n' -> n' <= 2.
Proof.
  split; [reflexivity|].
  destruct (update_rule star4 max_density tie_state 0 [1; 2; 3])
    as (_ & _ & _ & H); [reflexivity | discriminate |].
  eexists. split; [vm_compute; reflexivity|].
  edestruct H as (_ & new_com & Hnew & _ & _ & Hmany);
    [|vm_compute; reflexivity|].
  - intros c Hc. discriminate Hc.
  - split; [reflexivity|].
    destruct Hmany as (n & Hn & _ & Hcount); [simpl; lia|].
    vm_compute in Hnew. injection Hnew as <-.
    vm_compute in Hn. injection Hn as <-.
    apply Hcount; [reflexivity|].
    intros b n' [<-|[<-|[]]] Hb; vm_compute in Hb; injection Hb as <-;
      unfold count_bound; lia.
Defined.

(** ** Counts are member counts *)

Lemma size_cons v c labels c0 :
  size ((v, c) :: labels) c0 = size labels c0 + (if c =? c0 then 1 else 0).
Proof.
  unfold size. simpl. destruct (Z.eq_dec c c0) as [->|Hne].
  - rewrite Z.eqb_refl. lia.
  - apply Z.eqb_neq in Hne. rewrite Hne. lia.
Qed.

Lemma size_nonneg labels c : 0 <= size labels c.
Proof. unfold size. lia. Qed.

Lemma size_set_present labels v c_old c_new c0 :
  dict_get labels v = Some c_old ->
  size (dict_set labels v c_new) c0
  = size labels c0 - (if c_old =? c0 then 1 else 0)
    + (if c_new =? c0 then 1 else 0).
Proof.
  induction labels as [|[v' c'] labels IH]; simpl; [discriminate|].
  destruct (v' =? v) eqn:E.
  - intros H. injection H as ->. rewrite !size_cons. lia.
  - intros H. rewrite !size_cons, (IH H). lia.
Qed.

Lemma size_set_absent labels v c_new c0 :
  dict_get labels v = None ->
  size (dict_set labels v c_new) c0
  = size labels c0 + (if c_new =? c0 then 1 else 0).
Proof.
  induction labels as [|[v' c'] labels IH]; simpl.
  - intros _. rewrite size_cons. reflexivity.
  - destruct (v' =? v) eqn:E; [discriminate|].
    intros H. rewrite !size_cons, (IH H). lia.
Qed.

Lemma size_positive labels c : 1 <= size labels c <-> In c (values labels).
Proof.
  unfold size. rewrite (count_occ_In Z.eq_dec). lia.
Qed.

Lemma values_set_In (labels : dict Z) v c_new c :
  In c (values (dict_set labels v c_new)) ->
  c = c_new \/ In c (values labels).
Proof.
  induction labels as [|[v' c'] labels IH]; simpl.
  - intros [H|[]]. left. symmetry. exact H.
  - destruct (v' =? v); simpl.
    + intros [H|H]; [left; symmetry; exact H | right; right; exact H].
    + intros [H|H]; [right; left; exact H|].
      destruct (IH H) as [H'|H']; [left; exact H' | right; right; exact H'].
Qed.

Lemma dict_set_keys_present {V} (d : dict V) k v :
  In k (keys d) -> keys (dict_set d k v) = keys d.
Proof.
  intros H. destruct (In_keys_get d k H) as [v0 Hv0].
  apply (dict_set_present d k v v0 Hv0).
Qed.

Lemma arrive_Ok md st v c st' :
  arrive md st v c = Ok st' ->
  exists n d,
    dict_get (com_to_numvertices st) c = Some n
    /\ st' = mk_engine (dict_set (communities st) v c)
               (dict_set (density st) c d)
               (dict_set (com_to_numvertices st) c (n + 1)).
Proof.
  unfold arrive, getitem. intros H. bind_inv H. rename a into n.
  bind_inv H. rename a into d. injection H as <-.
  destruct (dict_get (com_to_numvertices st) c) as [n'|]; [|discriminate].
  injection Ha as ->. exists n, d. auto.
Qed.

(** Relabelling a vertex keeps the counts equal to the member counts: the
    departure update raises rather than leave a community empty. *)
Lemma relabel_inv Kd Kc md st v c_new st1 st' :
  engine_inv Kd Kc st ->
  depart md st v = Ok st1 ->
  arrive md st1 v c_new = Ok st' ->
  engine_inv Kd Kc st'.
Proof.
  intros (Hnd & Hkd & Hkc & Hincl & Hlab & Hcnt) Hd Ha.
  apply arrive_Ok in Ha. destruct Ha as (n' & d' & Hn' & ->).
  unfold depart in Hd.
  destruct (dict_get (communities st) v) as [c_old|] eqn:Ev.
  - assert (Hold : In c_old Kc).
    { apply Hlab. apply dict_get_Some_In in Ev.
      apply (in_map snd) in Ev. exact Ev. }
    rewrite <- Hkc in Hold. destruct (In_keys_get _ _ Hold) as [n Hn].
    rewrite Hn in Hd. bind_inv Hd. rename a into d. injection Hd as <-.
    cbn [communities density com_to_numvertices] in *.
    apply truediv_Ok in Ha. destruct Ha as (Hn1 & _ & _).
    assert (Hnew : In c_new Kc).
    { apply dict_get_Some_key in Hn'.
      rewrite (dict_set_keys_present _ _ _ Hold) in Hn'.
      rewrite <- Hkc. exact Hn'. }
    assert (Hk1 : keys (dict_set (com_to_numvertices st) c_old (n - 1)) = Kc)
      by (rewrite (dict_set_keys_present _ _ _ Hold); exact Hkc).
    assert (Hd1 : keys (dict_set (density st) c_old d) = Kd).
    { rewrite dict_set_keys_present; [exact Hkd|].
      rewrite Hkd. apply Hincl. rewrite <- Hkc. exact Hold. }
    repeat split; cbn [communities density com_to_numvertices] in *.
    + apply NoDup_keys_dict_set, Hnd.
    + rewrite dict_set_keys_present; [exact Hd1|].
      rewrite Hd1. apply Hincl, Hnew.
    + rewrite dict_set_keys_present; [exact Hk1|]. rewrite Hk1. exact Hnew.
    + exact Hincl.
    + intros c Hc. apply values_set_In in Hc.
      destruct Hc as [->|Hc]; [exact Hnew | apply Hlab, Hc].
    + destruct (Z.eq_dec c_new c) as [<-|Hne].
      * rewrite dict_get_set_same in H. injection H as <-.
        destruct (Z.eq_dec c_old c_new) as [->|Hne'].
        -- rewrite dict_get_set_same in Hn'. injection Hn' as <-.
           apply Hcnt in Hn. lia.
        -- rewrite dict_get_set_other in Hn' by exact Hne'.
           apply Hcnt in Hn'. lia.
      * rewrite dict_get_set_other in H by exact Hne.
        destruct (Z.eq_dec c_old c) as [<-|Hne'].
        -- rewrite dict_get_set_same in H. injection H as <-.
           apply Hcnt in Hn. lia.
        -- rewrite dict_get_set_other in H by exact Hne'.
           apply Hcnt in H. lia.
    + rewrite (size_set_present _ _ c_old _ _ Ev).
      destruct (Z.eq_dec c_new c) as [<-|Hne].
      * rewrite dict_get_set_same in H. injection H as <-.
        rewrite Z.eqb_refl.
        destruct (Z.eq_dec c_old c_new) as [->|Hne'].
        -- rewrite dict_get_set_same in Hn'. injection Hn' as <-.
           rewrite Z.eqb_refl. apply Hcnt in Hn. lia.
        -- rewrite dict_get_set_other in Hn' by exact Hne'.
           apply Z.eqb_neq in Hne'. rewrite Hne'.
           apply Hcnt in Hn'. lia.
      * rewrite dict_get_set_other in H by exact Hne.
        apply Z.eqb_neq in Hne. rewrite Hne.
        destruct (Z.eq_dec c_old c) as [<-|Hne'].
        -- rewrite dict_get_set_same in H. injection H as <-.
           rewrite Z.eqb_refl. apply Hcnt in Hn. lia.
        -- rewrite dict_get_set_other in H by exact Hne'.
           apply Z.eqb_neq in Hne'. rewrite Hne'.
           apply Hcnt in H. lia.
  - injection Hd as <-.
    assert (Hnew : In c_new Kc)
      by (rewrite <- Hkc; apply (dict_get_Some_key _ _ _ Hn')).
    repeat split; cbn [communities density com_to_numvertices] in *.
    + apply NoDup_keys_dict_set, Hnd.
    + rewrite dict_set_keys_present; [exact Hkd|].
      rewrite Hkd. apply Hincl, Hnew.
    + rewrite dict_set_keys_present; [exact Hkc|]. rewrite Hkc. exact Hnew.
    + exact Hincl.
    + intros c Hc. apply values_set_In in Hc.
      destruct Hc as [->|Hc]; [exact Hnew | apply Hlab, Hc].
    + destruct (Z.eq_dec c_new c) as [<-|Hne].
      * rewrite dict_get_set_same in H. injection H as <-.
        apply Hcnt in Hn'. lia.
      * rewrite dict_get_set_other in H by exact Hne. apply Hcnt in H. lia.
    + rewrite (size_set_absent _ _ _ _ Ev).
      destruct (Z.eq_dec c_new c) as [<-|Hne].
      * rewrite dict_get_set_same in H. injection H as <-.
        rewrite Z.eqb_refl. apply Hcnt in Hn'. lia.
      * rewrite dict_get_set_other in H by exact Hne.
        apply Z.eqb_neq in Hne. rewrite Hne. apply Hcnt in H. lia.
Qed.

Lemma engine_reaches_inv Kd Kc G md st st' :
  engine_reaches G md st st' -> engine_inv Kd Kc st -> engine_inv Kd Kc st'.
Proof.
  apply (engine_reaches_invariant G md (engine_inv Kd Kc)).
  intros s v s' ch Hinv Hu. apply update_vertex_Ok in Hu.
  destruct Hu as [[-> _]|[_ (nbrs & c & st1 & _ & _ & _ & _ & Hd & Ha)]];
    [exact Hinv|].
  apply (relabel_inv Kd Kc md s v c st1 s' Hinv Hd Ha).
Qed.

(** ** The bookkeeping handed to the engine *)

Lemma init_bookkeeping_counts seed : forall dens counts c,
  dict_get (snd (init_bookkeeping seed (dens, counts))) c
  = if mem c (values seed) then Some 1 else dict_get counts c.
Proof.
  unfold init_bookkeeping.
  induction seed as [|[v l] seed IH]; intros dens counts c; simpl;
    [reflexivity|].
  rewrite IH. destruct (mem c (values seed)); [rewrite orb_true_r; reflexivity|].
  rewrite orb_false_r. destruct (c =? l) eqn:E.
  - apply Z.eqb_eq in E. subst l. apply dict_get_set_same.
  - apply Z.eqb_neq in E. apply dict_get_set_other. congruence.
Qed.

Lemma init_bookkeeping_densities seed : forall dens counts c,
  dict_get (fst (init_bookkeeping seed (dens, counts))) c
  = if mem c (values seed) then Some max_density else dict_get dens c.
Proof.
  unfold init_bookkeeping.
  induction seed as [|[v l] seed IH]; intros dens counts c; simpl;
    [reflexivity|].
  rewrite IH. destruct (mem c (values seed)); [rewrite orb_true_r; reflexivity|].
  rewrite orb_false_r. destruct (c =? l) eqn:E.
  - apply Z.eqb_eq in E. subst l. apply dict_get_set_same.
  - apply Z.eqb_neq in E. apply dict_get_set_other. congruence.
Qed.

Lemma init_bookkeeping_NoDup seed : forall dens counts,
  NoDup (keys dens) -> NoDup (keys counts) ->
  NoDup (keys (fst (init_bookkeeping seed (dens, counts))))
  /\ NoDup (keys (snd (init_bookkeeping seed (dens, counts)))).
Proof.
  unfold init_bookkeeping.
  induction seed as [|[v l] seed IH]; intros dens counts Hd Hc; simpl;
    [auto|].
  apply IH; apply NoDup_keys_dict_set; assumption.
Qed.

Lemma dict_get_In_keys {V} (d : dict V) k :
  In k (keys d) <-> dict_get d k <> None.
Proof.
  split.
  - intros H E. apply dict_get_None in E. contradiction.
  - intros H. destruct (dict_get d k) as [v|] eqn:E; [|contradiction].
    apply (dict_get_Some_key _ _ _ E).
Qed.

(** With no stale entry around, the bookkeeping handed to the engine has
    exactly the seeded communities as keys. *)
Lemma handed_keys s c :
  incl (keys (shared_density s)) (values (seed_set s)) ->
  incl (keys (shared_com_to_numvertices s)) (values (seed_set s)) ->
  (In c (keys (fst (handed s))) <-> In c (values (seed_set s)))
  /\ (In c (keys (snd (handed s))) <-> In c (values (seed_set s))).
Proof.
  intros Hd Hc. unfold handed.
  rewrite !dict_get_In_keys, init_bookkeeping_counts,
    init_bookkeeping_densities.
  destruct (mem c (values (seed_set s))) eqn:E.
  - apply mem_In in E. split; split; intros _; try exact E; discriminate.
  - apply mem_false in E. split; split; intros H.
    + apply dict_get_In_keys in H. apply Hd, H.
    + contradiction.
    + apply dict_get_In_keys in H. apply Hc, H.
    + contradiction.
Qed.

Lemma untouched_or_incl labels ks : untouched_or labels ks -> incl ks labels.
Proof. intros [->| ->]; [intros x [] | apply incl_refl]. Qed.

Lemma distinct_from_seen seen l :
  (forall x, In x l -> In x seen) -> distinct_from seen l = [].
Proof.
  induction l as [|x l IH]; intros H; simpl; [reflexivity|].
  assert (Hx : mem x seen = true) by (apply mem_In, H; left; reflexivity).
  rewrite Hx. apply IH. intros y Hy. apply H. right. exact Hy.
Qed.

Lemma distinct_from_unseen l : forall seen,
  NoDup l -> (forall x, In x l -> ~ In x seen) -> distinct_from seen l = l.
Proof.
  induction l as [|x l IH]; intros seen Hnd H; simpl; [reflexivity|].
  inversion Hnd as [|? ? Hx Hnd']; subst.
  assert (Hm : mem x seen = false)
    by (apply mem_false, H; left; reflexivity).
  rewrite Hm. f_equal. apply IH; [exact Hnd'|].
  intros y Hy Hin. apply in_app_or in Hin. destruct Hin as [Hin|[<-|[]]].
  - apply (H y); [right; exact Hy | exact Hin].
  - contradiction.
Qed.

(** The keys of the bookkeeping after initialisation: the old ones, then
    the communities seeded for the first time. *)
Lemma init_bookkeeping_keys seed : forall dens counts,
  keys (fst (init_bookkeeping seed (dens, counts)))
  = keys dens ++ distinct_from (keys dens) (values seed)
  /\ keys (snd (init_bookkeeping seed (dens, counts)))
     = keys counts ++ distinct_from (keys counts) (values seed).
Proof.
  unfold init_bookkeeping.
  induction seed as [|[v l] seed IH]; intros dens counts; simpl;
    [rewrite !app_nil_r; auto|].
  destruct (IH (dict_set dens l max_density) (dict_set counts l 1))
    as [-> ->]. split.
  - destruct (dict_get dens l) as [d|] eqn:E.
    + rewrite (dict_set_present _ _ _ _ E).
      apply dict_get_Some_key, mem_In in E. rewrite E. reflexivity.
    + rewrite (dict_set_absent _ _ _ E), keys_app. simpl.
      apply dict_get_None, mem_false in E. rewrite E.
      rewrite <- app_assoc. reflexivity.
  - destruct (dict_get counts l) as [d|] eqn:E.
    + rewrite (dict_set_present _ _ _ _ E).
      apply dict_get_Some_key, mem_In in E. rewrite E. reflexivity.
    + rewrite (dict_set_absent _ _ _ E), keys_app. simpl.
      apply dict_get_None, mem_false in E. rewrite E.
      rewrite <- app_assoc. reflexivity.
Qed.

Lemma seq_labels_NoDup m : NoDup (map Z.of_nat (seq 0 m)).
Proof.
  apply Injective_map_NoDup; [|apply seq_NoDup].
  intros x y H. apply Nat2Z.inj, H.
Qed.

Lemma seeded_size seed c :
  seeded seed -> In c (values seed) -> size seed c = 1.
Proof.
  intros [_ Hv] Hin. unfold size.
  assert (Hnd : NoDup (values seed)) by (rewrite Hv; apply seq_labels_NoDup).
  rewrite (NoDup_count_occ Z.eq_dec) in Hnd. specialize (Hnd c).
  apply (count_occ_In Z.eq_dec) in Hin. lia.
Qed.

Lemma untouched_or_keys labels ks :
  NoDup labels -> untouched_or labels ks ->
  ks ++ distinct_from ks labels = labels.
Proof.
  intros Hnd [->| ->]; simpl.
  - apply distinct_from_unseen; [exact Hnd | intros x _ []].
  - rewrite distinct_from_seen by auto. apply app_nil_r.
Qed.

(** Initialised, the bookkeeping has the seeded communities as its keys,
    in the order of the seed set. *)
Lemma handed_keys_eq s :
  seeded (seed_set s) ->
  untouched_or (values (seed_set s)) (keys (shared_density s)) ->
  untouched_or (values (seed_set s)) (keys (shared_com_to_numvertices s)) ->
  keys (fst (handed s)) = values (seed_set s)
  /\ keys (snd (handed s)) = values (seed_set s).
Proof.
  intros [_ Hv] Hd Hc. unfold handed.
  destruct (init_bookkeeping_keys (seed_set s) (shared_density s)
              (shared_com_to_numvertices s)) as [-> ->].
  assert (Hnd : NoDup (values (seed_set s)))
    by (rewrite Hv; apply seq_labels_NoDup).
  split; apply untouched_or_keys; assumption.
Qed.

(** The engine starts a restart with its invariant in place. *)
Lemma engine_inv_start s :
  seeded (seed_set s) ->
  incl (keys (shared_density s)) (values (seed_set s)) ->
  incl (keys (shared_com_to_numvertices s)) (values (seed_set s)) ->
  engine_inv (keys (fst (handed s))) (keys (snd (handed s)))
    (mk_engine (seed_set s) (fst (handed s)) (snd (handed s))).
Proof.
  intros Hseed Hd Hc. unfold engine_inv.
  cbn [communities density com_to_numvertices].
  split; [exact (proj1 Hseed)|]. split; [reflexivity|].
  split; [reflexivity|]. split; [|split].
  - intros c H. apply (handed_keys s c Hd Hc).
    apply (handed_keys s c Hd Hc). exact H.
  - intros c H. apply (handed_keys s c Hd Hc). exact H.
  - intros c n H. unfold handed in H. rewrite init_bookkeeping_counts in H.
    destruct (mem c (values (seed_set s))) eqn:E.
    + injection H as <-. apply mem_In in E.
      rewrite (seeded_size _ _ Hseed E). lia.
    + apply mem_false in E. exfalso. apply E, Hc.
      apply (dict_get_Some_key _ _ _ H).
Qed.

(** The engine returns as many groups as it was handed communities. *)
Lemma engine_inv_groups Kd Kc st :
  engine_inv Kd Kc st -> NoDup Kc ->
  length (groups_of st) = length Kc.
Proof.
  intros (_ & _ & Hkc & _ & Hlab & Hcnt) Hnd.
  rewrite groups_of_spec, length_map.
  apply Permutation_length. apply NoDup_Permutation;
    [apply distinct_from_NoDup | exact Hnd |].
  intros c. rewrite distinct_In. split; [apply Hlab|].
  intros H. rewrite <- Hkc in H. destruct (In_keys_get _ _ H) as [n Hn].
  apply Hcnt in Hn. apply size_positive. lia.
Qed.

(** ** The seed sets the controller derives *)

Lemma groups_of_disjoint st :
  NoDup (keys (communities st)) -> disjoint_groups (groups_of st).
Proof.
  intros Hnd i j v [Hij Hj]. rewrite groups_of_spec in *.
  rewrite length_map in Hj.
  set (labels := communities st) in *.
  set (ids := distinct (values labels)) in *.
  rewrite (nth_indep _ [] (members labels 0))
    by (rewrite length_map; lia).
  rewrite (nth_indep (map (members labels) ids) [] (members labels 0))
    by (rewrite length_map; lia).
  rewrite !map_nth. intros Hi Hj'.
  apply (members_labelled _ _ _ Hnd) in Hi, Hj'.
  rewrite Hi in Hj'. injection Hj' as Heq.
  assert (Hids : NoDup ids) by apply distinct_from_NoDup.
  rewrite (NoDup_nth ids 0) in Hids.
  specialize (Hids i j ltac:(lia) Hj Heq). lia.
Qed.

Lemma set_minus_In l r x : In x (set_minus l r) -> In x l.
Proof.
  induction l as [|v l IH]; simpl; [intros []|].
  destruct (mem v r || mem v l); [intros H; right; apply IH, H|].
  intros [H|H]; [left; exact H | right; apply IH, H].
Qed.

Lemma seeded_snoc seed v :
  seeded seed -> ~ In v (keys seed) ->
  seeded (dict_set seed v (Z.of_nat (length seed)))
  /\ length (dict_set seed v (Z.of_nat (length seed))) = S (length seed).
Proof.
  intros [Hnd Hv] Hnew.
  rewrite dict_set_absent by (apply dict_get_None, Hnew).
  split; [split|].
  - rewrite keys_app. simpl. apply NoDup_app; [exact Hnd | repeat constructor; intros [] |].
    intros x Hx [<-|[]]. contradiction.
  - unfold values in *. rewrite map_app, Hv, length_app. simpl.
    rewrite Nat.add_1_r, seq_S, map_app. reflexivity.
  - rewrite length_app. simpl. lia.
Qed.

Lemma derive_seeded rand groups bad :
  disjoint_groups groups ->
  forall fuel w w',
    derive rand fuel groups bad w = Ok w' ->
    seeding_wf groups w -> seeding_wf groups w'.
Proof.
  intros Hdisj. induction fuel as [|fuel IH]; intros w w' H Hwf; simpl in H.
  - destruct (community_idx w <? length groups)%nat; [discriminate|].
    injection H as <-. exact Hwf.
  - destruct (community_idx w <? length groups)%nat eqn:E;
      [|injection H as <-; exact Hwf].
    apply Nat.ltb_lt in E.
    destruct (set_minus (nth (community_idx w) groups []) (removed_list w))
      as [|x pool] eqn:Ep; [injection H as <-; exact Hwf|].
    assert (Hin : In (choice rand (next_draws w) (x :: pool))
                    (nth (community_idx w) groups [])).
    { apply (set_minus_In _ (removed_list w)). rewrite Ep.
      apply choice_In. discriminate. }
    destruct (mem (choice rand (next_draws w) (x :: pool)) (keys bad)).
    + apply IH in H; [exact H | exact Hwf].
    + apply IH in H; [exact H|].
      destruct Hwf as (Hseed & Hlen & Hidx & Hmem).
      unfold seeding_wf. cbn [next_seed_set community_idx].
      assert (Hnew : ~ In (choice rand (next_draws w) (x :: pool))
                       (keys (next_seed_set w))).
      { intros Hk. destruct (Hmem _ Hk) as (i & Hi & Hgi).
        apply (Hdisj i (community_idx w) _ ltac:(lia) Hgi Hin). }
      rewrite <- Hlen.
      destruct (seeded_snoc _ _ Hseed Hnew) as [Hs Hl].
      split; [exact Hs|]. split; [exact Hl|]. split; [lia|].
      intros v Hv. apply keys_dict_set_In in Hv. destruct Hv as [->|Hv].
      * exists (community_idx w). rewrite Hlen. split; [lia | exact Hin].
      * destruct (Hmem v Hv) as (i & Hi & Hgi). exists i. split; [lia | exact Hgi].
Qed.

Lemma reseed_Ok rand s l s' :
  reseed rand s l = Ok s' ->
  exists groups w,
    new_communities s = Some groups
    /\ reseeding rand groups (bad_seed_set s) (draws s) = Ok w
    /\ seed_set s' = next_seed_set w
    /\ seed_init_num s' = (if exhausted w then 10 else seed_init_num s).
Proof.
  unfold reseed. destruct (new_communities s) as [groups|]; [|discriminate].
  intros H. bind_inv H. injection H as <-. exists groups, a. auto.
Qed.

(** What the seeding loop leaves: a well-formed seed set, which seeds every
    community unless the loop was exhausted. *)
Lemma reseeding_seeded rand groups bad n w :
  disjoint_groups groups ->
  reseeding rand groups bad n = Ok w ->
  seeded (next_seed_set w)
  /\ (exhausted w = false -> length (next_seed_set w) = length groups).
Proof.
  intros Hdisj H. unfold reseeding in H.
  assert (Hwf : seeding_wf groups w).
  { apply (derive_seeded rand groups bad Hdisj _ _ _ H).
    unfold seeding_wf, seeded. simpl.
    repeat split; try lia; try constructor; try (intros v []). }
  destruct Hwf as (Hseed & Hlen & Hidx & _).
  split; [exact Hseed|]. intros Hex.
  apply derive_Ok in H; [|reflexivity].
  destruct H as [[_ Hle]|[Hex' _]]; [lia | congruence].
Qed.

Lemma enumerate_dict_seeded l : forall acc,
  NoDup l -> seeded acc -> (forall x, In x l -> ~ In x (keys acc)) ->
  seeded (enumerate_dict (Z.of_nat (length acc)) l acc).
Proof.
  induction l as [|n l IH]; intros acc Hnd Hacc Hfresh; simpl; [exact Hacc|].
  inversion Hnd as [|? ? Hn Hnd']; subst.
  destruct (seeded_snoc acc n Hacc) as [Hs Hl];
    [apply Hfresh; left; reflexivity|].
  replace (Z.of_nat (length acc) + 1)
    with (Z.of_nat (length (dict_set acc n (Z.of_nat (length acc)))))
    by (rewrite Hl; lia).
  apply IH; [exact Hnd' | exact Hs |].
  intros x Hx Hk. apply keys_dict_set_In in Hk. destruct Hk as [->|Hk].
  - contradiction.
  - apply (Hfresh x); [right; exact Hx | exact Hk].
Qed.

Lemma slice_to_NoDup l k : NoDup l -> NoDup (slice_to l k).
Proof.
  intros H. unfold slice_to.
  destruct (k <? 0);
    match goal with |- NoDup (firstn ?n l) =>
      rewrite <- (firstn_skipn n l) in H; apply NoDup_app_remove_r in H;
      exact H
    end.
Qed.

Lemma controller_inv_init shuffle G k :
  NoDup (shuffle (keys G)) -> controller_inv (init shuffle G k).
Proof.
  intros H. unfold controller_inv, init. simpl.
  split; [|split; [constructor|]; split; [constructor|];
           intros _; split; left; reflexivity].
  apply (enumerate_dict_seeded _ []).
  - apply slice_to_NoDup, H.
  - split; [constructor | reflexivity].
  - intros x _ [].
Qed.

(** A restart hands the next one a well-formed seed set and bookkeeping
    with no entry beyond the communities it seeds. *)
Lemma restart_controller_inv nmi rand G max_iter s s' :
  controller_inv s -> running max_iter s = true ->
  restart nmi rand G max_iter s = Ok s' -> controller_inv s'.
Proof.
  intros (Hseed & Hndd & Hndc & Hstale) Hrun Hr.
  unfold running in Hrun. apply andb_prop in Hrun. destruct Hrun as [Hlt _].
  apply Z.ltb_lt in Hlt. destruct (Hstale Hlt) as [Hd0 Hc0].
  pose proof (untouched_or_incl _ _ Hd0) as Hd.
  pose proof (untouched_or_incl _ _ Hc0) as Hc.
  apply restart_Ok in Hr. destruct Hr as (s0 & l & s1 & Hp & Hg & Hr).
  apply propagate_Ok in Hp.
  destruct Hp as (est & n & Hengine & _ & Hnew0 & Hsd & Hsc).
  apply gate_shared in Hg. destruct Hg as (Hd1 & Hc1 & _ & Hnew1 & _).
  pose proof (reseed_kept _ _ _ _ Hr) as (_ & _ & _ & _ & _ & Hd' & Hc' & _).
  apply reseed_Ok in Hr. destruct Hr as (groups & w & Hg & Hw & Hs' & Hn').
  rewrite Hnew1, Hnew0 in Hg. injection Hg as <-.
  unfold fluidc_modified_run in Hengine. apply passes_reaches in Hengine.
  pose proof (engine_reaches_inv _ _ _ _ _ _ Hengine
                (engine_inv_start s Hseed Hd Hc)) as Hinv.
  destruct (init_bookkeeping_NoDup (seed_set s) _ _ Hndd Hndc) as [HKd HKc].
  fold (handed s) in HKd, HKc.
  pose proof (engine_inv_groups _ _ _ Hinv HKc) as Hlen.
  destruct Hinv as (Hnd & Hkd & Hkc & _).
  destruct (reseeding_seeded _ _ _ _ _ (groups_of_disjoint est Hnd) Hw)
    as [Hseed' Hfull].
  destruct (handed_keys_eq s Hseed Hd0 Hc0) as [HKd' HKc'].
  unfold controller_inv. rewrite Hd', Hc', Hd1, Hc1, Hsd, Hsc, Hkd, Hkc, Hs'.
  split; [exact Hseed'|]. split; [exact HKd|]. split; [exact HKc|].
  intros Hlt'. rewrite Hn' in Hlt'.
  destruct (exhausted w); [lia|]. specialize (Hfull eq_refl).
  assert (Hsame : values (next_seed_set w) = values (seed_set s)).
  { rewrite (proj2 Hseed'), (proj2 Hseed), Hfull, Hlen, HKc'.
    unfold values at 1. rewrite length_map. reflexivity. }
  rewrite Hsame, HKd', HKc'. split; right; reflexivity.
Qed.

Lemma restarted_controller_inv nmi rand G max_iter s s' :
  restarted nmi rand G max_iter s s' -> controller_inv s -> controller_inv s'.
Proof.
  induction 1 as [s|s s1 s2 Hrun Hr _ IH]; intros H; [exact H|].
  apply IH. eapply restart_controller_inv; eauto.
Qed.

Lemma dict_ext {V} (d1 : dict V) : forall d2 : dict V,
  keys d1 = keys d2 -> NoDup (keys d1) ->
  (forall k, dict_get d1 k = dict_get d2 k) -> d1 = d2.
Proof.
  induction d1 as [|[k1 v1] d1 IH]; intros [|[k2 v2] d2] Hk Hnd Hget;
    try discriminate; [reflexivity|].
  simpl in Hk. injection Hk as <- Hk. inversion Hnd as [|? ? Hk1 Hnd']; subst.
  pose proof (Hget k1) as H1. simpl in H1. rewrite Z.eqb_refl in H1.
  injection H1 as <-. f_equal. apply IH; [exact Hk | exact Hnd'|].
  intros k. specialize (Hget k). simpl in Hget.
  destruct (k1 =? k) eqn:E; [|exact Hget].
  apply Z.eqb_eq in E. subst k.
  assert (E1 : dict_get d1 k1 = None) by (apply dict_get_None, Hk1).
  assert (E2 : dict_get d2 k1 = None)
    by (apply dict_get_None; rewrite <- Hk; exact Hk1).
  rewrite E1, E2. reflexivity.
Qed.

(** C9: at the start of every restart the bookkeeping handed to the engine
    is the one made afresh, from empty mappings, out of the seed set: a
    community seeded this round has count 1 and density [max_density], and
    no other community has an entry.  (The shuffle permutes the nodes, so
    its result has no repetition.) *)
Theorem fresh_bookkeeping nmi shuffle rand G k max_iter s :
  NoDup (shuffle (keys G)) ->
  restarted nmi rand G max_iter (init shuffle G k) s ->
  running max_iter s = true ->
  handed s = init_bookkeeping (seed_set s) ([], [])
  /\ forall c,
       dict_get (snd (handed s)) c
       = (if mem c (values (seed_set s)) then Some 1 else None)
       /\ dict_get (fst (handed s)) c
          = (if mem c (values (seed_set s)) then Some max_density else None).
Proof.
  intros Hnd Hs Hrun.
  pose proof (restarted_controller_inv _ _ _ _ _ _ Hs
                (controller_inv_init shuffle G k Hnd))
    as (Hseed & Hndd & Hndc & Hstale).
  unfold running in Hrun. apply andb_prop in Hrun. destruct Hrun as [Hlt _].
  apply Z.ltb_lt in Hlt. destruct (Hstale Hlt) as [Hd0 Hc0].
  pose proof (untouched_or_incl _ _ Hd0) as Hd.
  pose proof (untouched_or_incl _ _ Hc0) as Hc.
  assert (Hget : forall c,
             dict_get (snd (handed s)) c
             = (if mem c (values (seed_set s)) then Some 1 else None)
             /\ dict_get (fst (handed s)) c
                = (if mem c (values (seed_set s))
                   then Some max_density else None)).
  { intros c. unfold handed.
    rewrite init_bookkeeping_counts, init_bookkeeping_densities.
    destruct (mem c (values (seed_set s))) eqn:E; [auto|].
    apply mem_false in E. split; apply dict_get_None; intros H; apply E.
    - apply Hc, H.
    - apply Hd, H. }
  split; [|exact Hget].
  destruct (handed_keys_eq s Hseed Hd0 Hc0) as [HKd HKc].
  destruct (init_bookkeeping_NoDup (seed_set s) _ _ Hndd Hndc) as [HNd HNc].
  fold (handed s) in HNd, HNc.
  assert (Hlab : distinct_from [] (values (seed_set s)) = values (seed_set s)).
  { apply distinct_from_unseen; [|intros x _ []].
    rewrite (proj2 Hseed). apply seq_labels_NoDup. }
  assert (HFd : keys (fst (init_bookkeeping (seed_set s) ([], [])))
                = values (seed_set s))
    by (rewrite (proj1 (init_bookkeeping_keys _ [] [])); exact Hlab).
  assert (HFc : keys (snd (init_bookkeeping (seed_set s) ([], [])))
                = values (seed_set s))
    by (rewrite (proj2 (init_bookkeeping_keys _ [] [])); exact Hlab).
  rewrite (surjective_pairing (handed s)).
  rewrite (surjective_pairing (init_bookkeeping (seed_set s) ([], []))).
  f_equal.
  - apply dict_ext; [rewrite HKd, HFd; reflexivity | exact HNd |].
    intros c. rewrite (proj2 (Hget c)), init_bookkeeping_densities.
    destruct (mem c (values (seed_set s))); reflexivity.
  - apply dict_ext; [rewrite HKc, HFc; reflexivity | exact HNc |].
    intros c. rewrite (proj1 (Hget c)), init_bookkeeping_counts.
    destruct (mem c (values (seed_set s))); reflexivity.
Qed.

Lemma fresh_bookkeeping_witness :
  handed after_one_restart
  = init_bookkeeping (seed_set after_one_restart) ([], [])
  /\ forall c,
       dict_get (snd (handed after_one_restart)) c
       = (if mem c (values (seed_set after_one_restart))
          then Some 1 else None)
       /\ dict_get (fst (handed after_one_restart)) c
          = (if mem c (values (seed_set after_one_restart))
             then Some max_density else None).
Proof.
  apply (fresh_bookkeeping zero_scorer no_shuffle first_draw ring4 2 5
           after_one_restart).
  - repeat constructor; simpl; intuition discriminate.
  - apply (restarted_next _ _ _ _ _ after_one_restart);
      [reflexivity | vm_compute; reflexivity | apply restarted_here].
  - reflexivity.
Defined.

(** * Further properties of the engine *)

(** The engine makes at least one pass, whatever [max_iter] is, and at most
    one beyond [max_iter]. *)
Theorem engine_pass_bounds G vs c0 d0 md n0 max_iter st n :
  fluidc_modified_run G vs c0 d0 md n0 max_iter = Ok (st, n) ->
  1 <= n <= Z.max 1 (max_iter + 1).
Proof.
  intros H. apply passes_count in H. lia.
Qed.

Lemma engine_pass_bounds_witness : 1 <= 3 <= Z.max 1 (100 + 1).
Proof.
  apply (engine_pass_bounds path4 [0; 2; 1; 3] [(0, 0); (1, 1)]
           [(0, 1%float); (1, 1%float)] 1%float [(0, 1); (1, 1)] 100
           (mk_engine [(0, 1); (1, 1); (2, 0); (3, 0)]
              [(0, 0.5%float); (1, 0.5%float)] [(0, 2); (1, 2)]) 3).
  vm_compute. reflexivity.
Defined.

Lemma update_vertex_unchanged G md st v st' :
  update_vertex G md st v = Ok (st', false) -> st' = st.
Proof.
  intros H. apply update_vertex_Ok in H.
  destruct H as [[-> _]|[H _]]; [reflexivity | discriminate].
Qed.

(** A pass that sets no flag has changed nothing. *)
Lemma sweep_unchanged G md vs : forall st cont st',
  sweep G md vs st cont = Ok (st', false) -> st' = st /\ cont = false.
Proof.
  induction vs as [|v vs IH]; intros st cont st' H; simpl in H.
  - injection H as <- <-. auto.
  - bind_inv H. destruct a as [st1 ch]. simpl in H.
    apply IH in H. destruct H as [-> Hc].
    apply orb_false_elim in Hc. destruct Hc as [-> ->].
    apply update_vertex_unchanged in Ha. auto.
Qed.

(** A run that ends within the cap ends on a pass that changed nothing. *)
Lemma passes_converged fuel G md vs max_iter : forall iter_count st st' n,
  passes fuel G md vs max_iter iter_count st = Ok (st', n) ->
  n <= max_iter ->
  sweep G md vs st' false = Ok (st', false).
Proof.
  induction fuel as [|fuel IH]; intros ic st st' n H Hn; [discriminate|].
  simpl in H. bind_inv H. destruct a as [st1 cont]. simpl in H.
  destruct (max_iter <? ic + 1) eqn:E.
  - injection H as _ <-. apply Z.ltb_lt in E. lia.
  - destruct cont.
    + apply (IH _ _ _ _ H Hn).
    + injection H as <- _.
      destruct (sweep_unchanged _ _ _ _ _ _ Ha) as [-> _]. exact Ha.
Qed.

(** Idempotence: when the engine stops within the cap, running it again on
    what it returned (the labelling and the bookkeeping it left) makes one
    pass and changes nothing, whatever the new cap. *)
Theorem converged_fixpoint G vs c0 d0 md n0 max_iter st n max_iter' :
  fluidc_modified_run G vs c0 d0 md n0 max_iter = Ok (st, n) ->
  n <= max_iter ->
  fluidc_modified_run G vs (communities st) (density st) md
    (com_to_numvertices st) max_iter' = Ok (st, 1).
Proof.
  intros H Hn. unfold fluidc_modified_run in *.
  apply (passes_converged _ _ _ _ _ _ _ _ _ H) in Hn.
  destruct st as [c d k]. cbn [communities density com_to_numvertices].
  apply (passes_stable _ _ _ _ _ 0 _ _ Hn).
Qed.

Lemma converged_fixpoint_witness :
  fluidc_modified_run path4 [0; 2; 1; 3] [(0, 1); (1, 1); (2, 0); (3, 0)]
    [(0, 0.5%float); (1, 0.5%float)] 1%float [(0, 2); (1, 2)] 7
  = Ok (mk_engine [(0, 1); (1, 1); (2, 0); (3, 0)]
          [(0, 0.5%float); (1, 0.5%float)] [(0, 2); (1, 2)], 1).
Proof.
  apply (converged_fixpoint path4 [0; 2; 1; 3] [(0, 0); (1, 1)]
           [(0, 1%float); (1, 1%float)] 1%float [(0, 1); (1, 1)] 100
           (mk_engine [(0, 1); (1, 1); (2, 0); (3, 0)]
              [(0, 0.5%float); (1, 0.5%float)] [(0, 2); (1, 2)]) 3 7).
  - vm_compute. reflexivity.
  - lia.
Defined.

(** *** Labels neither vanish nor appear *)

Lemma counter_update_keys com_counter c w x :
  In x (keys (counter_update com_counter c w)) ->
  x = c \/ In x (keys com_counter).
Proof.
  unfold counter_update. destruct com_counter as [|e cc].
  - simpl. intros [H|[]]. left. symmetry. exact H.
  - destruct (dict_get (e :: cc) c); intros H;
      apply keys_dict_set_In in H; exact H.
Qed.

Lemma vote_keys st com_counter v x :
  In x (keys (vote st com_counter v)) ->
  In x (values (communities st)) \/ In x (keys com_counter).
Proof.
  unfold vote. destruct (dict_get (communities st) v) as [c|] eqn:Ev;
    [|auto].
  destruct (dict_get (density st) c); [|auto].
  intros H. apply counter_update_keys in H. destruct H as [->|H]; [|auto].
  left. apply dict_get_Some_In in Ev. apply (in_map snd) in Ev. exact Ev.
Qed.

(** Only communities that label some vertex gather votes. *)
Lemma gather_keys st v nbrs x :
  In x (keys (gather st v nbrs)) -> In x (values (communities st)).
Proof.
  unfold gather.
  assert (Hgen : forall cc,
             (forall y, In y (keys cc) -> In y (values (communities st))) ->
             In x (keys (fold_left (vote st) nbrs cc)) ->
             In x (values (communities st))).
  { induction nbrs as [|u nbrs IH]; intros cc Hcc H; simpl in H.
    - apply Hcc, H.
    - apply (IH (vote st cc u)); [|exact H].
      intros y Hy. apply vote_keys in Hy. destruct Hy; auto. }
  apply Hgen. intros y Hy. apply vote_keys in Hy.
  destruct Hy as [Hy|[]]. exact Hy.
Qed.

Lemma best_communities_of_keys com_counter c :
  In c (best_communities_of com_counter) -> In c (keys com_counter).
Proof.
  destruct com_counter as [|e cc] eqn:E; [intros []|]. rewrite <- E.
  intros H. apply best_communities_of_In in H; [|rewrite E; discriminate].
  destruct H as (w & Hin & _). apply (in_map fst) in Hin. exact Hin.
Qed.

Lemma update_vertex_labels G md st v st' ch :
  update_vertex G md st v = Ok (st', ch) ->
  incl (keys (communities st)) (keys (communities st'))
  /\ incl (values (communities st')) (values (communities st)).
Proof.
  intros H. apply update_vertex_Ok in H.
  destruct H as [[-> _]|[_ (nbrs & c & st1 & _ & _ & _ & Hc & Hd & Ha)]];
    [split; apply incl_refl|].
  apply depart_communities in Hd. apply arrive_communities in Ha.
  rewrite Ha, Hd. split; [apply keys_dict_set_incl|].
  intros x Hx. apply values_set_In in Hx. destruct Hx as [->|Hx]; [|exact Hx].
  apply choose_Ok in Hc. destruct Hc as [Hin _].
  apply best_communities_of_keys, gather_keys in Hin. exact Hin.
Qed.

(** The engine never unlabels a vertex and never invents a community: the
    vertices labelled at the start are labelled at the end, and every
    label at the end labelled some vertex at the start. *)
Theorem engine_labels_kept G vs c0 d0 md n0 max_iter st n :
  fluidc_modified_run G vs c0 d0 md n0 max_iter = Ok (st, n) ->
  incl (keys c0) (keys (communities st))
  /\ incl (values (communities st)) (values c0).
Proof.
  intros H. unfold fluidc_modified_run in H. apply passes_reaches in H.
  apply (engine_reaches_invariant G md
           (fun s => incl (keys c0) (keys (communities s))
                     /\ incl (values (communities s)) (values c0)))
    in H; [exact H | | split; apply incl_refl].
  intros s v s' ch [Hk Hv] Hu. apply update_vertex_labels in Hu.
  destruct Hu as [Hk' Hv']. split; eapply incl_tran; eauto.
Qed.

Lemma engine_labels_kept_witness :
  incl (keys [(0, 0); (1, 1)]) (keys [(0, 1); (1, 1); (2, 0); (3, 0)])
  /\ incl (values [(0, 1); (1, 1); (2, 0); (3, 0)]) (values [(0, 0); (1, 1)]).
Proof.
  apply (engine_labels_kept path4 [0; 2; 1; 3] [(0, 0); (1, 1)]
           [(0, 1%float); (1, 1%float)] 1%float [(0, 1); (1, 1)] 100
           (mk_engine [(0, 1); (1, 1); (2, 0); (3, 0)]
              [(0, 0.5%float); (1, 0.5%float)] [(0, 2); (1, 2)]) 3).
  vm_compute. reflexivity.
Defined.

(** * Further properties of the controller *)

(** ** The visit order *)

Lemma insert_by_degree_perm x l : Permutation (insert_by_degree x l) (x :: l).
Proof.
  induction l as [|y l IH]; simpl; [apply Permutation_refl|].
  destruct (degree x <? degree y); [|apply Permutation_refl].
  eapply perm_trans; [apply perm_skip, IH | apply perm_swap].
Qed.

Lemma insert_by_degree_sorted x l :
  StronglySorted (fun a b => degree b <= degree a) l ->
  StronglySorted (fun a b => degree b <= degree a) (insert_by_degree x l).
Proof.
  induction 1 as [|y l Hs IH Hy]; simpl; [repeat constructor|].
  destruct (degree x <? degree y) eqn:E.
  - apply Z.ltb_lt in E. constructor; [exact IH|].
    apply (Permutation_Forall (Permutation_sym (insert_by_degree_perm x l))).
    constructor; [lia | exact Hy].
  - apply Z.ltb_ge in E. constructor; [constructor; assumption|].
    constructor; [exact E|].
    revert Hy. apply Forall_impl. intros b Hb. lia.
Qed.

Lemma insert_by_degree_stable d x l :
  filter (fun y => degree y =? d) (insert_by_degree x l)
  = filter (fun y => degree y =? d) (x :: l).
Proof.
  induction l as [|y l IH]; [reflexivity|]. simpl insert_by_degree.
  destruct (degree x <? degree y) eqn:E; [|reflexivity].
  apply Z.ltb_lt in E. simpl. simpl in IH. rewrite IH.
  destruct (degree y =? d) eqn:Ey; [|reflexivity].
  apply Z.eqb_eq in Ey.
  destruct (degree x =? d) eqn:Ex; [|reflexivity].
  apply Z.eqb_eq in Ex. lia.
Qed.

Lemma sorted_by_degree_perm G : Permutation (sorted_by_degree G) (keys G).
Proof.
  unfold sorted_by_degree, keys. apply Permutation_map.
  induction G as [|x G IH]; simpl; [apply Permutation_refl|].
  eapply perm_trans; [apply insert_by_degree_perm | apply perm_skip, IH].
Qed.

(** The visit order holds every node of the graph once, by non-increasing
    degree, and nodes of equal degree keep the order of the graph. *)
Theorem visit_order_by_degree (G : graph) :
  let sorted := fold_right insert_by_degree [] G in
  sorted_by_degree G = map fst sorted
  /\ Permutation (sorted_by_degree G) (keys G)
  /\ StronglySorted (fun a b => degree b <= degree a) sorted
  /\ forall d,
       filter (fun y => degree y =? d) sorted
       = filter (fun y => degree y =? d) G.
Proof.
  split; [reflexivity|]. split; [apply sorted_by_degree_perm|]. split.
  - induction G as [|x G IH]; simpl; [constructor|].
    apply insert_by_degree_sorted, IH.
  - intros d. induction G as [|x G IH]; [reflexivity|].
    cbn [fold_right]. rewrite insert_by_degree_stable. simpl.
    rewrite IH. reflexivity.
Qed.

(** ** A vertex out of reach of every label *)

Lemma gather_unlabelled st v nbrs :
  dict_get (communities st) v = None ->
  (forall u, In u nbrs -> dict_get (communities st) u = None) ->
  gather st v nbrs = [].
Proof.
  intros Hv Hn. unfold gather, vote at 2. rewrite Hv.
  induction nbrs as [|u nbrs IH]; simpl; [reflexivity|].
  unfold vote at 2. rewrite (Hn u) by (left; reflexivity).
  apply IH. intros u' Hu'. apply Hn. right. exact Hu'.
Qed.

(** A vertex that is unlabelled, as all its neighbours are, is left alone
    by its update: it gathers no vote, stays unlabelled and sets no flag.
    A vertex the graph does not hold makes the update raise [KeyError]. *)
Theorem unlabelled_stays G md st v :
  (forall nbrs,
      dict_get G v = Some nbrs ->
      dict_get (communities st) v = None ->
      (forall u, In u nbrs -> dict_get (communities st) u = None) ->
      update_vertex G md st v = Ok (st, false))
  /\ (dict_get G v = None -> update_vertex G md st v = Raise KeyError).
Proof.
  split.
  - intros nbrs HG Hv Hn. unfold update_vertex, getitem. rewrite HG. simpl.
    rewrite (gather_unlabelled st v nbrs Hv Hn). reflexivity.
  - intros HG. unfold update_vertex, getitem. rewrite HG. reflexivity.
Qed.

Lemma unlabelled_stays_witness :
  update_vertex path4 1%float
    (mk_engine [(1, 1)] [(1, 1%float)] [(1, 1)]) 3
  = Ok (mk_engine [(1, 1)] [(1, 1%float)] [(1, 1)], false).
Proof.
  destruct (unlabelled_stays path4 1%float
              (mk_engine [(1, 1)] [(1, 1%float)] [(1, 1)]) 3) as [H _].
  apply (H [2]); [reflexivity | reflexivity |].
  intros u [<-|[]]. reflexivity.
Defined.

(** * Further properties of [utils.py] *)

(** ** [_invert_dict] *)

Lemma members_NoDup d c : NoDup (keys d) -> NoDup (members d c).
Proof.
  unfold members, keys. induction d as [|[v l] d IH]; simpl; intros H;
    [constructor|].
  inversion H as [|? ? Hv Hnd]; subst.
  destruct (l =? c); simpl; [|apply IH, Hnd].
  constructor; [|apply IH, Hnd].
  intros Hin. apply Hv. apply in_map_iff in Hin.
  destruct Hin as [[v' l'] [Heq Hin]]. apply filter_In in Hin.
  destruct Hin as [Hin _]. simpl in Heq. subst v'.
  apply (in_map fst) in Hin. apply Hin.
Qed.

Lemma members_concat_NoDup d ids :
  NoDup (keys d) -> NoDup ids -> NoDup (concat (map (members d) ids)).
Proof.
  intros Hd. induction 1 as [|c ids Hc Hids IH]; simpl; [constructor|].
  apply NoDup_app; [apply members_NoDup, Hd | exact IH |].
  intros x Hx Hx'. apply in_concat in Hx'. destruct Hx' as [g [Hg Hxg]].
  apply in_map_iff in Hg. destruct Hg as [c' [<- Hc']].
  apply (members_labelled _ _ _ Hd) in Hx, Hxg.
  rewrite Hx in Hxg. injection Hxg as ->. contradiction.
Qed.

Lemma dict_get_tabulate {V} (f : Z -> V) l c :
  dict_get (map (fun c => (c, f c)) l) c
  = if mem c l then Some (f c) else None.
Proof.
  induction l as [|x l IH]; simpl; [reflexivity|].
  rewrite (Z.eqb_sym c x). destruct (x =? c) eqn:E; simpl; [|exact IH].
  apply Z.eqb_eq in E. subst x. reflexivity.
Qed.

(** [_invert_dict] maps each label in use to the vertices that carry it,
    in the order of the labelling, and holds no other key; its groups are
    not empty and together they hold every key of the labelling once. *)
Theorem invert_dict_partition (orig_dict : dict Z) :
  NoDup (keys orig_dict) ->
  (forall c,
      dict_get (_invert_dict orig_dict) c
      = if mem c (values orig_dict) then Some (members orig_dict c) else None)
  /\ NoDup (keys (_invert_dict orig_dict))
  /\ Forall (fun g => g <> []) (values (_invert_dict orig_dict))
  /\ Permutation (concat (values (_invert_dict orig_dict))) (keys orig_dict).
Proof.
  intros Hnd. rewrite invert_dict_spec.
  set (ids := distinct (values orig_dict)).
  assert (Hids : NoDup ids) by apply distinct_from_NoDup.
  assert (Hin : forall c, In c ids <-> In c (values orig_dict))
    by (intros c; apply distinct_In).
  split; [|split; [|split]].
  - intros c. rewrite dict_get_tabulate.
    destruct (mem c ids) eqn:E.
    + apply mem_In, Hin, mem_In in E. rewrite E. reflexivity.
    + destruct (mem c (values orig_dict)) eqn:E'; [|reflexivity].
      apply mem_In, Hin, mem_In in E'. congruence.
  - unfold keys. rewrite map_map. simpl. rewrite map_id. exact Hids.
  - unfold values. rewrite map_map. simpl. apply Forall_forall.
    intros g Hg. apply in_map_iff in Hg. destruct Hg as [c [<- Hc]].
    apply Hin, in_map_iff in Hc. destruct Hc as [[v c'] [Heq Hvc]].
    simpl in Heq. subst c'. apply In_members in Hvc.
    intros E. rewrite E in Hvc. destruct Hvc.
  - unfold values. rewrite map_map. simpl.
    apply NoDup_Permutation;
      [apply members_concat_NoDup; assumption | exact Hnd |].
    intros x. rewrite in_concat. split.
    + intros [g [Hg Hx]]. apply in_map_iff in Hg. destruct Hg as [c [<- _]].
      apply (members_labelled _ _ _ Hnd) in Hx.
      apply (dict_get_Some_key _ _ _ Hx).
    + intros Hx. destruct (In_keys_get _ _ Hx) as [c Hc].
      exists (members orig_dict c). split.
      * apply in_map, Hin. apply dict_get_Some_In in Hc.
        apply (in_map snd) in Hc. exact Hc.
      * apply (members_labelled _ _ _ Hnd), Hc.
Qed.

Lemma invert_dict_partition_witness :
  (forall c,
      dict_get (_invert_dict [(0, 1); (1, 1); (2, 0); (3, 0)]) c
      = if mem c (values [(0, 1); (1, 1); (2, 0); (3, 0)])
        then Some (members [(0, 1); (1, 1); (2, 0); (3, 0)] c) else None)
  /\ NoDup (keys (_invert_dict [(0, 1); (1, 1); (2, 0); (3, 0)]))
  /\ Forall (fun g => g <> [])
       (values (_invert_dict [(0, 1); (1, 1); (2, 0); (3, 0)]))
  /\ Permutation
       (concat (values (_invert_dict [(0, 1); (1, 1); (2, 0); (3, 0)])))
       (keys [(0, 1); (1, 1); (2, 0); (3, 0)]).
Proof.
  apply (invert_dict_partition [(0, 1); (1, 1); (2, 0); (3, 0)]).
  repeat constructor; simpl; intuition discriminate.
Defined.

(** ** [nodes_color] *)

Lemma replace_nth_length (l : list Z) p x :
  (p < length l)%nat ->
  length (firstn p l ++ x :: skipn (S p) l) = length l.
Proof.
  revert p. induction l as [|y l IH]; intros p Hp; simpl in Hp; [lia|].
  destruct p as [|p]; simpl; [reflexivity|].
  f_equal. apply IH. lia.
Qed.

Lemma replace_nth_nth (l : list Z) p x q :
  (p < length l)%nat ->
  nth q (firstn p l ++ x :: skipn (S p) l) 0
  = if (q =? p)%nat then x else nth q l 0.
Proof.
  revert p q. induction l as [|y l IH]; intros p q Hp; simpl in Hp; [lia|].
  destruct p as [|p]; destruct q as [|q]; simpl; try reflexivity.
  apply IH. lia.
Qed.

(** Where [l[j] = x] writes: at [j], or at [j + len(l)] for a negative
    [j]; outside [-len(l), len(l)) it raises [IndexError]. *)
Lemma list_setitem_outcome l j x :
  let n := Z.of_nat (length l) in
  (- n <= j < n ->
   exists l',
     list_setitem l j x = Ok l' /\ length l' = length l
     /\ forall q,
          nth q l' 0
          = if Nat.eqb q (Z.to_nat (if j <? 0 then j + n else j))
            then x else nth q l 0)
  /\ (j < - n \/ n <= j -> list_setitem l j x = Raise IndexError).
Proof.
  intros n. unfold list_setitem. fold n.
  set (i := if j <? 0 then j + n else j). split.
  - intros Hj.
    assert (Hi : 0 <= i < n) by (unfold i; destruct (Z.ltb_spec j 0); lia).
    replace ((0 <=? i) && (i <? n)) with true
      by (symmetry; apply andb_true_intro; split;
          [apply Z.leb_le | apply Z.ltb_lt]; lia).
    assert (Hp : (Z.to_nat i < length l)%nat) by (unfold n in Hi; lia).
    eexists. split; [reflexivity|]. split.
    + apply replace_nth_length, Hp.
    + intros q. apply replace_nth_nth, Hp.
  - intros Hj.
    assert (Hi : i < 0 \/ n <= i) by (unfold i; destruct (Z.ltb_spec j 0); lia).
    replace ((0 <=? i) && (i <? n)) with false; [reflexivity|].
    symmetry. apply andb_false_iff. destruct Hi.
    + left. apply Z.leb_gt. lia.
    + right. apply Z.ltb_ge. lia.
Qed.

Lemma color_group_Ok idxs : forall l c,
  (forall j, In j idxs -> 0 <= j < Z.of_nat (length l)) ->
  exists l',
    color_group l c idxs = Ok l' /\ length l' = length l
    /\ (forall j, In j idxs -> nth (Z.to_nat j) l' 0 = c)
    /\ (forall q, ~ In (Z.of_nat q) idxs -> nth q l' 0 = nth q l 0).
Proof.
  induction idxs as [|j0 idxs IH]; intros l c Hr; simpl.
  - exists l. repeat split; auto. intros j [].
  - destruct (list_setitem_outcome l j0 c) as [Hok _].
    destruct Hok as (l1 & -> & Hlen1 & Hnth1);
      [specialize (Hr j0 (or_introl eq_refl)); lia|].
    simpl. destruct (IH l1 c) as (l' & -> & Hlen & Hin & Hout).
    { intros j Hj. rewrite Hlen1. apply Hr. right. exact Hj. }
    exists l'. split; [reflexivity|]. split; [congruence|].
    assert (H0 : 0 <= j0) by (specialize (Hr j0 (or_introl eq_refl)); lia).
    assert (E0 : (j0 <? 0) = false) by (apply Z.ltb_ge; exact H0).
    rewrite E0 in Hnth1. split.
    + intros j [<-|Hj]; [|apply Hin, Hj].
      destruct (in_dec Z.eq_dec j0 idxs) as [Hj|Hj]; [apply Hin, Hj|].
      rewrite Hout by (rewrite Z2Nat.id by exact H0; exact Hj).
      rewrite Hnth1, Nat.eqb_refl. reflexivity.
    + intros q Hq. rewrite Hout by (intros H; apply Hq; right; exact H).
      rewrite Hnth1.
      destruct (q =? Z.to_nat j0)%nat eqn:E; [|reflexivity].
      apply Nat.eqb_eq in E. exfalso. apply Hq. left. subst q.
      rewrite Z2Nat.id by exact H0. reflexivity.
Qed.

Lemma color_groups_Ok gs : forall l c0,
  (forall j, In j (concat gs) -> 0 <= j < Z.of_nat (length l)) ->
  exists l',
    color_groups l c0 gs = Ok l' /\ length l' = length l
    /\ (forall i j,
          (i < length gs)%nat -> In j (nth i gs []) ->
          (forall i', (i < i' < length gs)%nat -> ~ In j (nth i' gs [])) ->
          nth (Z.to_nat j) l' 0 = c0 + Z.of_nat i)
    /\ (forall q,
          (forall g, In g gs -> ~ In (Z.of_nat q) g) ->
          nth q l' 0 = nth q l 0).
Proof.
  induction gs as [|g gs IH]; intros l c0 Hr; simpl.
  - exists l. repeat split; auto. intros i j Hi. simpl in Hi. lia.
  - destruct (color_group_Ok g l c0) as (l1 & -> & Hlen1 & Hin1 & Hout1).
    { intros j Hj. apply Hr. simpl. apply in_or_app. left. exact Hj. }
    simpl. destruct (IH l1 (c0 + 1)) as (l' & -> & Hlen & Hin & Hout).
    { intros j Hj. rewrite Hlen1. apply Hr. simpl. apply in_or_app.
      right. exact Hj. }
    exists l'. split; [reflexivity|]. split; [congruence|]. split.
    + intros i j Hi Hj Hlast. destruct i as [|i].
      * simpl in Hj.
        assert (H0 : 0 <= j)
          by (apply Hr; simpl; apply in_or_app; left; exact Hj).
        rewrite Hout.
        -- rewrite (Hin1 j Hj). lia.
        -- intros g' Hg' Hjg'. rewrite Z2Nat.id in Hjg' by exact H0.
           apply (In_nth _ _ []) in Hg'. destruct Hg' as (i' & Hi' & <-).
           apply (Hlast (S i')); [simpl; lia | exact Hjg'].
      * simpl in Hj. rewrite (Hin i j); [lia | simpl in Hi; lia | exact Hj |].
        intros i' Hi'. apply (Hlast (S i')). simpl. lia.
    + intros q Hq. rewrite Hout by (intros g' Hg'; apply Hq; right; exact Hg').
      apply Hout1. apply Hq. left. reflexivity.
Qed.

(** [nodes_color] on groups of node ids from [0, len(nodes)): the result
    has one entry per node; a vertex has the index of the last group that
    holds it, and a vertex no group holds has 0, the colour of the first
    group. *)
Theorem nodes_color_colours (in_graph : graph) communities :
  (forall j, In j (concat communities) ->
             0 <= j < Z.of_nat (length in_graph)) ->
  exists color_list,
    nodes_color in_graph communities = Ok color_list
    /\ length color_list = length in_graph
    /\ (forall i j,
          (i < length communities)%nat -> In j (nth i communities []) ->
          (forall i', (i < i' < length communities)%nat ->
                      ~ In j (nth i' communities [])) ->
          nth (Z.to_nat j) color_list 0 = Z.of_nat i)
    /\ (forall j,
          0 <= j -> ~ In j (concat communities) ->
          nth (Z.to_nat j) color_list 0 = 0).
Proof.
  intros Hr. unfold nodes_color.
  destruct (color_groups_Ok communities (repeat 0 (length in_graph)) 0)
    as (l & Hl & Hlen & Hin & Hout).
  { rewrite repeat_length. exact Hr. }
  exists l. split; [exact Hl|]. rewrite repeat_length in Hlen.
  split; [exact Hlen|]. split; [exact Hin|].
  intros j Hj Hnot. rewrite Hout.
  - apply nth_repeat.
  - intros g Hg Hjg. apply Hnot. apply in_concat. exists g.
    rewrite Z2Nat.id in Hjg by exact Hj. auto.
Qed.

Lemma nodes_color_colours_witness :
  exists color_list,
    nodes_color ring4 [[0; 3]; [1; 2]] = Ok color_list
    /\ length color_list = length ring4
    /\ (forall i j,
          (i < length [[0; 3]; [1; 2]])%nat ->
          In j (nth i [[0; 3]; [1; 2]] []) ->
          (forall i', (i < i' < length [[0; 3]; [1; 2]])%nat ->
                      ~ In j (nth i' [[0; 3]; [1; 2]] [])) ->
          nth (Z.to_nat j) color_list 0 = Z.of_nat i)
    /\ (forall j,
          0 <= j -> ~ In j (concat [[0; 3]; [1; 2]]) ->
          nth (Z.to_nat j) color_list 0 = 0).
Proof.
  apply (nodes_color_colours ring4 [[0; 3]; [1; 2]]).
  simpl. intros j Hj. intuition lia.
Defined.

Lemma Z_le_lt_dec_range (j : Z) (m : nat) :
  {- Z.of_nat m <= j < Z.of_nat m} + {~ - Z.of_nat m <= j < Z.of_nat m}.
Proof.
  destruct (Z_le_dec (- Z.of_nat m) j); [|right; lia].
  destruct (Z_lt_dec j (Z.of_nat m)); [left; lia | right; lia].
Qed.

Lemma color_group_outcome idxs : forall l c,
  ((forall j, In j idxs ->
              - Z.of_nat (length l) <= j < Z.of_nat (length l)) ->
   exists l', color_group l c idxs = Ok l' /\ length l' = length l)
  /\ (forall j, In j idxs ->
                j < - Z.of_nat (length l) \/ Z.of_nat (length l) <= j ->
                color_group l c idxs = Raise IndexError).
Proof.
  induction idxs as [|j0 idxs IH]; intros l c; simpl.
  - split; [intros _; exists l; auto | intros j []].
  - destruct (list_setitem_outcome l j0 c) as [Hok Herr].
    destruct (Z_lt_dec j0 (- Z.of_nat (length l))) as [Hlo|Hlo];
      [|destruct (Z_le_dec (Z.of_nat (length l)) j0) as [Hhi|Hhi]].
    + rewrite Herr by (left; exact Hlo). simpl. split; [|reflexivity].
      intros H. specialize (H j0 (or_introl eq_refl)). lia.
    + rewrite Herr by (right; exact Hhi). simpl. split; [|reflexivity].
      intros H. specialize (H j0 (or_introl eq_refl)). lia.
    + destruct Hok as (l1 & -> & Hlen1 & _); [lia|]. simpl.
      destruct (IH l1 c) as [IHok IHerr]. rewrite Hlen1 in IHok, IHerr.
      split.
      * intros H. destruct IHok as (l' & -> & Hlen);
          [intros j Hj; apply H; right; exact Hj|].
        exists l'. split; [reflexivity | congruence].
      * intros j [<-|Hj] Hout; [lia | apply (IHerr j Hj Hout)].
Qed.

Lemma color_groups_outcome gs : forall l c0,
  ((forall j, In j (concat gs) ->
              - Z.of_nat (length l) <= j < Z.of_nat (length l)) ->
   exists l', color_groups l c0 gs = Ok l' /\ length l' = length l)
  /\ (forall j, In j (concat gs) ->
                j < - Z.of_nat (length l) \/ Z.of_nat (length l) <= j ->
                color_groups l c0 gs = Raise IndexError).
Proof.
  induction gs as [|g gs IH]; intros l c0; simpl.
  - split; [intros _; exists l; auto | intros j []].
  - destruct (color_group_outcome g l c0) as [Hok Herr].
    destruct (Forall_Exists_dec
                (fun j => - Z.of_nat (length l) <= j < Z.of_nat (length l))
                (fun j => Z_le_lt_dec_range j (length l)) g) as [Hall|Hex].
    + rewrite Forall_forall in Hall.
      destruct (Hok Hall) as (l1 & -> & Hlen1). simpl.
      destruct (IH l1 (c0 + 1)) as [IHok IHerr].
      rewrite Hlen1 in IHok, IHerr. split.
      * intros H. destruct IHok as (l' & -> & Hlen);
          [intros j Hj; apply H, in_or_app; right; exact Hj|].
        exists l'. split; [reflexivity | congruence].
      * intros j Hj Hout. apply in_app_or in Hj. destruct Hj as [Hj|Hj].
        -- specialize (Hall j Hj). lia.
        -- apply (IHerr j Hj Hout).
    + apply Exists_exists in Hex. destruct Hex as (j & Hj & Hout).
      rewrite (Herr j Hj) by lia. simpl. split; [|reflexivity].
      intros H. exfalso. apply Hout. apply H, in_or_app. left. exact Hj.
Qed.

(** [nodes_color] writes each vertex id as a list index: it returns, with
    one entry per node, when every id lies in [-len(nodes), len(nodes)),
    and raises [IndexError] when one does not. *)
Theorem nodes_color_index_error (in_graph : graph) communities :
  let n := Z.of_nat (length in_graph) in
  ((forall j, In j (concat communities) -> - n <= j < n) ->
   exists color_list,
     nodes_color in_graph communities = Ok color_list
     /\ length color_list = length in_graph)
  /\ (forall j, In j (concat communities) -> j < - n \/ n <= j ->
                nodes_color in_graph communities = Raise IndexError).
Proof.
  intros n. unfold nodes_color.
  destruct (color_groups_outcome communities
              (repeat 0 (length in_graph)) 0) as [Hok Herr].
  rewrite repeat_length in Hok, Herr. split; [exact Hok | exact Herr].
Qed.

Lemma nodes_color_index_error_witness :
  nodes_color edge2 [[0]; [1; 2]] = Raise IndexError.
Proof.
  destruct (nodes_color_index_error edge2 [[0]; [1; 2]]) as [_ H].
  apply (H 2); [simpl; auto | simpl; lia].
Defined.

(** * Further properties of a controller run *)

(** ** Counts are member counts *)

Lemma controller_inv_running max_iter s :
  controller_inv s -> running max_iter s = true ->
  seeded (seed_set s)
  /\ untouched_or (values (seed_set s)) (keys (shared_density s))
  /\ untouched_or (values (seed_set s)) (keys (shared_com_to_numvertices s))
  /\ NoDup (keys (snd (handed s)))
  /\ engine_inv (keys (fst (handed s))) (keys (snd (handed s)))
       (mk_engine (seed_set s) (fst (handed s)) (snd (handed s))).
Proof.
  intros (Hseed & Hndd & Hndc & Hstale) Hrun.
  unfold running in Hrun. apply andb_prop in Hrun. destruct Hrun as [Hlt _].
  apply Z.ltb_lt in Hlt. destruct (Hstale Hlt) as [Hd0 Hc0].
  destruct (init_bookkeeping_NoDup (seed_set s) _ _ Hndd Hndc) as [_ HKc].
  split; [exact Hseed|]. split; [exact Hd0|]. split; [exact Hc0|].
  split; [exact HKc|].
  apply engine_inv_start; [exact Hseed | |]; apply untouched_or_incl;
    assumption.
Qed.

(** In every engine run of the controller, at every point, each count is
    the number of vertices that carry the label, at least one; the counted
    communities are the seeded ones; so the groups the engine would return
    are as many as the seeds: no community is ever lost. *)
Theorem counts_are_member_counts nmi shuffle rand G k max_iter s st :
  NoDup (shuffle (keys G)) ->
  restarted nmi rand G max_iter (init shuffle G k) s ->
  running max_iter s = true ->
  engine_reaches G max_density
    (mk_engine (seed_set s) (fst (handed s)) (snd (handed s))) st ->
  (forall c n,
      dict_get (com_to_numvertices st) c = Some n ->
      1 <= n /\ n = size (communities st) c)
  /\ keys (com_to_numvertices st) = values (seed_set s)
  /\ length (groups_of st) = length (seed_set s).
Proof.
  intros Hnd Hs Hrun Hst.
  pose proof (restarted_controller_inv _ _ _ _ _ _ Hs
                (controller_inv_init shuffle G k Hnd)) as Hinv.
  destruct (controller_inv_running _ _ Hinv Hrun)
    as (Hseed & Hd0 & Hc0 & HKc & Hstart).
  pose proof (engine_reaches_inv _ _ _ _ _ _ Hst Hstart) as Hend.
  pose proof (engine_inv_groups _ _ _ Hend HKc) as Hlen.
  destruct (handed_keys_eq s Hseed Hd0 Hc0) as [_ HKc'].
  destruct Hend as (_ & _ & Hkc & _ & _ & Hcnt).
  split; [exact Hcnt|]. split; [rewrite Hkc; exact HKc'|].
  rewrite Hlen, HKc'. apply length_map.
Qed.

Lemma counts_are_member_counts_witness :
  (forall c n,
      dict_get [(0, 2); (1, 1)] c = Some n ->
      1 <= n /\ n = size [(3, 0); (2, 1); (0, 0)] c)
  /\ keys [(0, 2); (1, 1)] = values (seed_set after_one_restart)
  /\ length (groups_of
               (mk_engine [(3, 0); (2, 1); (0, 0)]
                  [(0, 0.5%float); (1, 1%float)] [(0, 2); (1, 1)]))
     = length (seed_set after_one_restart).
Proof.
  apply (counts_are_member_counts zero_scorer no_shuffle first_draw ring4 2 5
           after_one_restart
           (mk_engine [(3, 0); (2, 1); (0, 0)]
              [(0, 0.5%float); (1, 1%float)] [(0, 2); (1, 1)])).
  - repeat constructor; simpl; intuition discriminate.
  - apply (restarted_next _ _ _ _ _ after_one_restart);
      [reflexivity | vm_compute; reflexivity | apply restarted_here].
  - reflexivity.
  - apply (reaches_update _ _ _ 0
             (mk_engine [(3, 0); (2, 1); (0, 0)]
                [(0, 0.5%float); (1, 1%float)] [(0, 2); (1, 1)]) true);
      [vm_compute; reflexivity | apply reaches_here].
Defined.

(** ** The seeding loop *)

Lemma derive_draws rand groups bad : forall fuel w w',
  derive rand fuel groups bad w = Ok w' ->
  (next_draws w <= next_draws w' <= next_draws w + fuel)%nat.
Proof.
  induction fuel as [|fuel IH]; intros w w' H; simpl in H.
  - destruct (community_idx w <? length groups)%nat; [discriminate|].
    injection H as <-. lia.
  - destruct (community_idx w <? length groups)%nat;
      [|injection H as <-; lia].
    destruct (set_minus (nth (community_idx w) groups []) (removed_list w))
      as [|x pool]; [injection H as <-; simpl; lia|].
    destruct (mem (choice rand (next_draws w) (x :: pool)) (keys bad));
      apply IH in H; simpl in H; lia.
Qed.

(** The seeding loop always ends, raising nothing, after no more draws
    than there are communities and members: a rejected vertex is never
    drawn again. *)
Theorem seeding_loop_ends rand groups bad n :
  exists w,
    reseeding rand groups bad n = Ok w
    /\ (n <= next_draws w <= n + (length groups + length (concat groups)))%nat.
Proof.
  destruct (reseeding_total rand groups bad n) as [w Hw].
  exists w. split; [exact Hw|]. unfold reseeding in Hw.
  apply derive_draws in Hw. exact Hw.
Qed.

Lemma derive_members rand groups bad : forall fuel w w',
  derive rand fuel groups bad w = Ok w' ->
  (forall v c,
      dict_get (next_seed_set w) v = Some c ->
      0 <= c /\ In v (nth (Z.to_nat c) groups []) /\ ~ In v (keys bad)) ->
  forall v c,
    dict_get (next_seed_set w') v = Some c ->
    0 <= c /\ In v (nth (Z.to_nat c) groups []) /\ ~ In v (keys bad).
Proof.
  induction fuel as [|fuel IH]; intros w w' H Hw; simpl in H.
  - destruct (community_idx w <? length groups)%nat; [discriminate|].
    injection H as <-. exact Hw.
  - destruct (community_idx w <? length groups)%nat;
      [|injection H as <-; exact Hw].
    destruct (set_minus (nth (community_idx w) groups []) (removed_list w))
      as [|x pool] eqn:Ep; [injection H as <-; exact Hw|].
    assert (Hin : In (choice rand (next_draws w) (x :: pool))
                    (nth (community_idx w) groups [])).
    { apply (set_minus_In _ (removed_list w)). rewrite Ep.
      apply choice_In. discriminate. }
    destruct (mem (choice rand (next_draws w) (x :: pool)) (keys bad))
      eqn:Eb; apply (IH _ _ H); [exact Hw|].
    cbn [next_seed_set]. intros v c Hv.
    destruct (Z.eq_dec (choice rand (next_draws w) (x :: pool)) v)
      as [<-|Hne].
    + rewrite dict_get_set_same in Hv. injection Hv as <-.
      rewrite Nat2Z.id. split; [lia|]. split; [exact Hin|].
      apply mem_false, Eb.
    + rewrite dict_get_set_other in Hv by exact Hne. apply Hw, Hv.
Qed.

(** The seeds the loop picks: the seed of community [c] is one of its
    members and is not in the bad-seed history; over disjoint groups the
    seeds are distinct vertices labelled [0, 1, ...] in order, one for
    every community unless the loop was exhausted. *)
Theorem derived_seeds rand groups bad n w :
  reseeding rand groups bad n = Ok w ->
  (forall v c,
      dict_get (next_seed_set w) v = Some c ->
      0 <= c /\ In v (nth (Z.to_nat c) groups []) /\ ~ In v (keys bad))
  /\ (disjoint_groups groups ->
      seeded (next_seed_set w)
      /\ (exhausted w = false ->
          length (next_seed_set w) = length groups)).
Proof.
  intros H. split.
  - unfold reseeding in H. apply (derive_members _ _ _ _ _ _ H).
    intros v c Hv. discriminate Hv.
  - intros Hd. apply (reseeding_seeded _ _ _ _ _ Hd H).
Qed.

Lemma derived_seeds_witness :
  (forall v c,
      dict_get [(3, 0); (2, 1)] v = Some c ->
      0 <= c /\ In v (nth (Z.to_nat c) [[0; 3]; [1; 2]] [])
      /\ ~ In v (keys [(0, 0); (1, 1)]))
  /\ (disjoint_groups [[0; 3]; [1; 2]] ->
      seeded [(3, 0); (2, 1)]
      /\ (false = false -> length [(3, 0); (2, 1)]
                           = length [[0; 3]; [1; 2]])).
Proof.
  apply (derived_seeds first_draw [[0; 3]; [1; 2]] [(0, 0); (1, 1)] 0
           (mk_seeding [(3, 0); (2, 1)] 2 [] false 4)).
  vm_compute. reflexivity.
Defined.

(** ** Counters and quality trace *)

Lemma gate_Ok nmi s l s' :
  gate nmi s l = Ok s' ->
  (iter s = 0 /\ s' = s)
  \/ (iter s <> 0
      /\ exists old,
           old_communities s = Some old
           /\ iter s' = iter s
           /\ old_communities s' = old_communities s
           /\ new_communities s' = new_communities s
           /\ nmi_list s' = nmi_list s ++ [nmi l old]
           /\ (((nmi l old <? min_NMI s)%float = true
                /\ seed_init_num s' = seed_init_num s + 1
                /\ min_NMI s' = nmi l old)
               \/ ((nmi l old <? min_NMI s)%float = false
                   /\ seed_init_num s' = seed_init_num s
                   /\ min_NMI s' = min_NMI s))).
Proof.
  unfold gate. destruct (iter s =? 0) eqn:E.
  - intros H. injection H as <-. apply Z.eqb_eq in E. auto.
  - apply Z.eqb_neq in E. destruct (old_communities s) as [old|] eqn:Eo;
      [|discriminate].
    intros H. right. split; [exact E|]. exists old.
    destruct (nmi l old <? min_NMI s)%float eqn:Elt; injection H as <-;
      simpl; repeat split; auto.
Qed.

Lemma run_inv_init shuffle G k : run_inv (init shuffle G k).
Proof.
  unfold run_inv, init. simpl.
  split; [lia|]. split; [lia|]. split; [reflexivity|].
  split; [intros H; contradiction|].
  split; [intros x [] | left; reflexivity].
Qed.

Lemma restart_run_inv nmi rand G max_iter s s' :
  run_inv s -> running max_iter s = true ->
  restart nmi rand G max_iter s = Ok s' -> run_inv s'.
Proof.
  intros (Hi & Hn & Hlen & Hold & Hlow & Hmin) Hrun Hr.
  unfold running in Hrun. apply andb_prop in Hrun. destruct Hrun as [Hlt _].
  apply Z.ltb_lt in Hlt.
  apply restart_Ok in Hr. destruct Hr as (s0 & l & s1 & Hp & Hg & Hr).
  pose proof (propagate_kept _ _ _ _ _ Hp)
    as (_ & _ & Hn0 & Hi0 & Ho0 & Hl0 & Hm0 & _).
  apply propagate_Ok in Hp. destruct Hp as (est & n & _ & _ & Hnew0 & _).
  pose proof (reseed_seed_init_num _ _ _ _ Hr) as Hn'.
  apply reseed_kept in Hr.
  destruct Hr as (_ & Hi' & Hl' & Hm' & Hnew' & _ & _ & Hold').
  unfold run_inv. rewrite Hi', Hl', Hm', Hold', Hnew'.
  apply gate_Ok in Hg.
  destruct Hg as [[Hz ->]|(Hnz & old & _ & Hi1 & _ & Hnew1 & Hl1 & Hcase)].
  - rewrite Hi0 in *. rewrite Hl0, Hm0, Hnew0.
    repeat split; try lia; try discriminate; try assumption.
  - rewrite Hi0 in *. rewrite Hi1, Hl1, Hnew1, Hnew0, Hl0, Hm0 in *.
    assert (Hlen' : Z.of_nat (length (nmi_list s ++ [nmi l old]))
                    = Z.max 0 (iter s + 1 - 1))
      by (rewrite length_app; simpl; lia).
    destruct Hcase as [(Elt & Hn1 & ->)|(Elt & Hn1 & ->)].
    + repeat split; try lia; try discriminate; try assumption.
      * intros x Hx. apply in_app_or in Hx.
        destruct Hx as [Hx|[<-|[]]]; [|apply ltb_irrefl].
        destruct (x <? nmi l old)%float eqn:Ex; [|reflexivity].
        rewrite <- (Hlow x Hx). symmetry. apply (ltb_trans _ _ _ Ex Elt).
      * right. apply in_or_app. right. left. reflexivity.
    + repeat split; try lia; try discriminate; try assumption.
      * intros x Hx. apply in_app_or in Hx.
        destruct Hx as [Hx|[<-|[]]]; [apply Hlow, Hx | exact Elt].
      * destruct Hmin as [Hmin|Hmin]; [left; exact Hmin|].
        right. apply in_or_app. left. exact Hmin.
Qed.

Lemma restarted_run_inv nmi rand G max_iter s s' :
  restarted nmi rand G max_iter s s' -> run_inv s -> run_inv s'.
Proof.
  induction 1 as [s|s s1 s2 Hrun Hr _ IH]; intros H; [exact H|].
  apply IH. eapply restart_run_inv; eauto.
Qed.

(** Along a run the restart count stays within [max_iter] and the
    bad-restart count within 10, and the trace holds one score for every
    restart after the first. *)
Theorem run_bounds nmi shuffle rand G k max_iter s :
  restarted nmi rand G max_iter (init shuffle G k) s ->
  0 <= iter s <= Z.max 0 max_iter
  /\ 0 <= seed_init_num s <= 10
  /\ Z.of_nat (length (nmi_list s)) = Z.max 0 (iter s - 1).
Proof.
  intros H. pose proof (restarted_iter _ _ _ _ _ _ H) as Hi. simpl in Hi.
  apply restarted_run_inv in H; [|apply run_inv_init].
  destruct H as (Hi0 & Hn & Hlen & _). repeat split; try lia.
Qed.

Lemma run_bounds_witness :
  0 <= iter after_two_restarts <= Z.max 0 5
  /\ 0 <= seed_init_num after_two_restarts <= 10
  /\ Z.of_nat (length (nmi_list after_two_restarts))
     = Z.max 0 (iter after_two_restarts - 1).
Proof.
  apply (run_bounds zero_scorer no_shuffle first_draw ring4 2 5
           after_two_restarts).
  exact ring4_two_restarts.
Defined.

(** The running minimum is 1.0 or a score of the trace, and no score of
    the trace is strictly below it. *)
Theorem running_minimum nmi shuffle rand G k max_iter s :
  restarted nmi rand G max_iter (init shuffle G k) s ->
  (min_NMI s = 1%float \/ In (min_NMI s) (nmi_list s))
  /\ forall x, In x (nmi_list s) -> (x <? min_NMI s)%float = false.
Proof.
  intros H. apply restarted_run_inv in H; [|apply run_inv_init].
  destruct H as (_ & _ & _ & _ & Hlow & Hmin). auto.
Qed.

Lemma running_minimum_witness :
  (min_NMI after_two_restarts = 1%float
   \/ In (min_NMI after_two_restarts) (nmi_list after_two_restarts))
  /\ forall x, In x (nmi_list after_two_restarts) ->
               (x <? min_NMI after_two_restarts)%float = false.
Proof.
  apply (running_minimum zero_scorer no_shuffle first_draw ring4 2 5
           after_two_restarts).
  exact ring4_two_restarts.
Defined.

(** ** What the controller returns *)

(** [fluidc_plus] returns [None] exactly when [max_iter] allows no
    restart; otherwise what it returns is a partition. *)
Theorem returns_none_iff nmi shuffle rand G k max_iter r :
  fluidc_plus nmi shuffle rand G k max_iter = Ok r ->
  (r = None <-> max_iter <= 0).
Proof.
  unfold fluidc_plus, fluidc_plus_run. intros H. bind_inv H.
  rename a into s. injection H as <-.
  destruct (Z_le_gt_dec max_iter 0) as [Hle|Hgt].
  - rewrite restarts_done in Ha.
    + injection Ha as <-. split; [intros _; exact Hle | reflexivity].
    + unfold running. simpl. replace (0 <? max_iter) with false;
        [reflexivity | symmetry; apply Z.ltb_ge; exact Hle].
  - split; [|lia]. intros Hnone. exfalso.
    destruct (Z.to_nat max_iter) as [|fuel] eqn:Ef; [lia|].
    simpl in Ha.
    assert (Hrun : running max_iter (init shuffle G k) = true).
    { unfold running. simpl. apply Z.ltb_lt. lia. }
    rewrite Hrun in Ha. bind_inv Ha. rename a into s1.
    apply restarts_restarted in Ha. destruct Ha as [Hs _].
    pose proof (restarted_iter _ _ _ _ _ _ Hs) as Hi.
    pose proof (restart_iter _ _ _ _ _ _ Ha0) as Hi1. simpl in Hi1.
    assert (Hinv : run_inv s).
    { apply (restarted_run_inv _ _ _ _ _ _ Hs).
      apply (restart_run_inv _ _ _ _ _ _ (run_inv_init shuffle G k) Hrun Ha0). }
    destruct Hinv as (_ & _ & _ & Hnew & _).
    destruct Hnew as [_ Hnew]; [lia | contradiction].
Qed.

Lemma returns_none_iff_witness :
  Some [[0; 3]; [1; 2]] = None <-> 1 <= 0.
Proof.
  apply (returns_none_iff zero_scorer no_shuffle first_draw ring4 2 1).
  vm_compute. reflexivity.
Defined.

(** ** The first seed set *)

Lemma enumerate_dict_keys l : forall i acc,
  NoDup l -> (forall x, In x l -> ~ In x (keys acc)) ->
  keys (enumerate_dict i l acc) = keys acc ++ l.
Proof.
  induction l as [|n l IH]; intros i acc Hnd Hfresh; simpl;
    [rewrite app_nil_r; reflexivity|].
  inversion Hnd as [|? ? Hn Hnd']; subst.
  rewrite IH; [|exact Hnd'|].
  - rewrite dict_set_absent
      by (apply dict_get_None, Hfresh; left; reflexivity).
    rewrite keys_app, <- app_assoc. reflexivity.
  - intros x Hx Hk. apply keys_dict_set_In in Hk. destruct Hk as [->|Hk].
    + contradiction.
    + apply (Hfresh x); [right; exact Hx | exact Hk].
Qed.

(** The first seed set holds the leading [k] shuffled nodes ([l[:k]]: all
    of them when [k] exceeds their number, all but the last [-k] for a
    negative [k]), labelled [0, 1, ...] in order; and the bad-seed history
    starts as that seed set. *)
Theorem first_seed_set shuffle G k :
  NoDup (shuffle (keys G)) ->
  let seed := seed_set (init shuffle G k) in
  let n := length (shuffle (keys G)) in
  keys seed = slice_to (shuffle (keys G)) k
  /\ values seed = map Z.of_nat (seq 0 (length seed))
  /\ (0 <= k -> length seed = Nat.min (Z.to_nat k) n)
  /\ (k < 0 -> length seed = (n - Z.to_nat (- k))%nat)
  /\ bad_seed_set (init shuffle G k) = seed.
Proof.
  intros Hnd seed n.
  assert (Hk : keys seed = slice_to (shuffle (keys G)) k).
  { unfold seed, init. simpl.
    apply (enumerate_dict_keys _ 0 []); [apply slice_to_NoDup, Hnd|].
    intros x _ []. }
  assert (Hlen : length seed = length (slice_to (shuffle (keys G)) k))
    by (rewrite <- Hk; unfold keys; rewrite length_map; reflexivity).
  split; [exact Hk|]. split.
  - apply (controller_inv_init shuffle G k Hnd).
  - split; [|split; [|apply init_bad_seed_set]].
    + intros H0. rewrite Hlen. unfold slice_to.
      replace (k <? 0) with false by (symmetry; apply Z.ltb_ge; exact H0).
      apply length_firstn.
    + intros H0. rewrite Hlen. unfold slice_to.
      replace (k <? 0) with true by (symmetry; apply Z.ltb_lt; exact H0).
      rewrite length_firstn. fold n. lia.
Qed.

Lemma first_seed_set_witness :
  let seed := seed_set (init no_shuffle ring4 2) in
  let n := length (no_shuffle (keys ring4)) in
  keys seed = slice_to (no_shuffle (keys ring4)) 2
  /\ values seed = map Z.of_nat (seq 0 (length seed))
  /\ (0 <= 2 -> length seed = Nat.min (Z.to_nat 2) n)
  /\ (2 < 0 -> length seed = (n - Z.to_nat (- 2))%nat)
  /\ bad_seed_set (init no_shuffle ring4 2) = seed.
Proof.
  apply (first_seed_set no_shuffle ring4 2).
  repeat constructor; simpl; intuition discriminate.
Defined.

(** ** The exceptions that can leave the controller *)

Lemma tame_bind {A B} (r : outcome A) (k : A -> outcome B) :
  tame r -> (forall a, r = Ok a -> tame (k a)) -> tame (bind r k).
Proof.
  destruct r as [a|e|]; simpl; intros Hr Hk; [apply Hk; reflexivity | |];
    [destruct e; exact Hr | exact Hr].
Qed.

Lemma truediv_tame x n : tame (truediv x n).
Proof.
  unfold truediv. destruct (float_overflow <=? Z.abs n); [exact I|].
  destruct (n =? 0); exact I.
Qed.

Lemma getitem_present {V} (d : dict V) k :
  In k (keys d) -> exists v, getitem d k = Ok v.
Proof.
  intros H. destruct (In_keys_get d k H) as [v Hv]. exists v.
  unfold getitem. rewrite Hv. reflexivity.
Qed.

Lemma com_densities_of_tame md counts best :
  (forall b, In b best -> In b (keys counts)) ->
  tame (com_densities_of md counts best).
Proof.
  induction best as [|b best IH]; intros H; simpl; [exact I|].
  destruct (getitem_present counts b) as [n ->];
    [apply H; left; reflexivity|]. simpl.
  apply tame_bind; [apply truediv_tame | intros d _].
  apply tame_bind; [apply IH; intros b' Hb'; apply H; right; exact Hb'|].
  intros ds _. exact I.
Qed.

Lemma choose_tame md counts best :
  (forall b, In b best -> In b (keys counts)) -> tame (choose md counts best).
Proof.
  intros H. unfold choose. destruct (1 <? length best)%nat.
  - apply tame_bind; [apply com_densities_of_tame, H | intros ds _; exact I].
  - destruct best; exact I.
Qed.

Lemma depart_tame md st v : tame (depart md st v).
Proof.
  unfold depart. destruct (dict_get (communities st) v) as [c|]; [|exact I].
  destruct (dict_get (com_to_numvertices st) c) as [n|]; [|exact I].
  apply tame_bind; [apply truediv_tame | intros d _; exact I].
Qed.

Lemma depart_counted_keys md st v st1 :
  depart md st v = Ok st1 ->
  keys (com_to_numvertices st1) = keys (com_to_numvertices st).
Proof.
  unfold depart. destruct (dict_get (communities st) v) as [c|];
    [|intros H; injection H as <-; reflexivity].
  destruct (dict_get (com_to_numvertices st) c) as [n|] eqn:E;
    [|intros H; injection H as <-; reflexivity].
  intros H. bind_inv H. injection H as <-. simpl.
  apply (dict_set_present _ _ _ _ E).
Qed.

Lemma arrive_tame md st v c :
  In c (keys (com_to_numvertices st)) -> tame (arrive md st v c).
Proof.
  intros H. unfold arrive. destruct (getitem_present _ _ H) as [n ->]. simpl.
  apply tame_bind; [apply truediv_tame | intros d _; exact I].
Qed.

(** With counts for every label in use, and on a vertex of the graph, the
    update raises no [KeyError]. *)
Lemma update_vertex_tame Kd Kc G md st v :
  engine_inv Kd Kc st -> In v (keys G) -> tame (update_vertex G md st v).
Proof.
  intros (_ & _ & Hkc & _ & Hlab & _) Hv. unfold update_vertex.
  destruct (getitem_present G v Hv) as [nbrs ->]. simpl.
  destruct (gather st v nbrs) as [|x cc] eqn:Eg; [exact I|].
  rewrite <- Eg.
  destruct (preserved st v (best_communities_of (gather st v nbrs)) =? -1);
    [|exact I].
  assert (Hbest : forall b, In b (best_communities_of (gather st v nbrs)) ->
                            In b (keys (com_to_numvertices st))).
  { intros b Hb. rewrite Hkc. apply Hlab.
    apply best_communities_of_keys, gather_keys in Hb. exact Hb. }
  apply tame_bind; [apply choose_tame, Hbest | intros new_com Hc].
  apply tame_bind; [apply depart_tame | intros st1 Hd].
  apply tame_bind; [|intros st2 _; exact I].
  apply arrive_tame. rewrite (depart_counted_keys _ _ _ _ Hd).
  apply Hbest. apply choose_Ok in Hc. apply Hc.
Qed.

Lemma sweep_tame Kd Kc G md vs : forall st cont,
  engine_inv Kd Kc st -> (forall v, In v vs -> In v (keys G)) ->
  tame (sweep G md vs st cont).
Proof.
  induction vs as [|v vs IH]; intros st cont Hinv Hvs; simpl; [exact I|].
  apply tame_bind.
  - apply (update_vertex_tame Kd Kc); [exact Hinv | apply Hvs; left; reflexivity].
  - intros [st1 ch] Hu. apply IH.
    + apply (engine_reaches_inv Kd Kc G md st st1); [|exact Hinv].
      eapply reaches_update; [exact Hu | apply reaches_here].
    + intros v' Hv'. apply Hvs. right. exact Hv'.
Qed.

Lemma passes_tame Kd Kc G md vs max_iter : forall fuel iter_count st,
  engine_inv Kd Kc st -> (forall v, In v vs -> In v (keys G)) ->
  (Z.to_nat (max_iter - iter_count) < fuel)%nat ->
  tame (passes fuel G md vs max_iter iter_count st).
Proof.
  induction fuel as [|fuel IH]; intros ic st Hinv Hvs Hf; [lia|]. simpl.
  apply tame_bind; [apply (sweep_tame Kd Kc); assumption|].
  intros [st1 cont] Hs. destruct (max_iter <? ic + 1) eqn:E; [exact I|].
  destruct cont; [|exact I]. apply Z.ltb_ge in E. apply IH.
  - apply sweep_reaches in Hs. apply (engine_reaches_inv _ _ _ _ _ _ Hs Hinv).
  - exact Hvs.
  - lia.
Qed.

Lemma color_group_tame idxs : forall l c, tame (color_group l c idxs).
Proof.
  induction idxs as [|j idxs IH]; intros l c; simpl; [exact I|].
  apply tame_bind; [|intros l' _; apply IH].
  unfold list_setitem.
  match goal with |- tame (if ?b then _ else _) => destruct b end; exact I.
Qed.

Lemma color_groups_tame gs : forall l c, tame (color_groups l c gs).
Proof.
  induction gs as [|g gs IH]; intros l c; simpl; [exact I|].
  apply tame_bind; [apply color_group_tame | intros l' _; apply IH].
Qed.

Lemma restart_tame nmi rand G max_iter s :
  controller_inv s -> run_inv s -> running max_iter s = true ->
  tame (restart nmi rand G max_iter s).
Proof.
  intros Hinv (_ & _ & _ & Hold & _) Hrun. unfold restart.
  destruct (controller_inv_running _ _ Hinv Hrun) as (_ & _ & _ & _ & Hstart).
  apply tame_bind.
  - unfold propagate. apply tame_bind.
    + unfold fluidc_modified_run, engine_fuel.
      apply (passes_tame _ _ _ _ _ _ _ _ _ Hstart); [|lia].
      intros v Hv.
      apply (Permutation_in _ (sorted_by_degree_perm G)), Hv.
    + intros [est n] _. apply tame_bind; [apply color_groups_tame|].
      intros l _. exact I.
  - intros [s0 l] Hp.
    pose proof (propagate_kept _ _ _ _ _ Hp) as (_ & _ & _ & Hi0 & Ho0 & _).
    apply propagate_Ok in Hp. destruct Hp as (est & n & _ & _ & Hnew0 & _).
    apply tame_bind.
    + unfold gate. destruct (iter s0 =? 0) eqn:E; [exact I|].
      apply Z.eqb_neq in E. rewrite Hi0 in E. rewrite Ho0.
      destruct (old_communities s) as [old|];
        [|destruct (Hold E) as [H _]; contradiction].
      destruct (nmi l old <? min_NMI s0)%float; exact I.
    + intros s1 Hg. apply gate_shared in Hg.
      destruct Hg as (_ & _ & _ & Hnew1 & _).
      unfold reseed. rewrite Hnew1, Hnew0.
      destruct (reseeding_total rand (groups_of est) (bad_seed_set s1)
                  (draws s1)) as [w ->].
      exact I.
Qed.

Lemma restarts_tame nmi rand G max_iter : forall fuel s,
  controller_inv s -> run_inv s ->
  (Z.to_nat (max_iter - iter s) <= fuel)%nat ->
  tame (restarts nmi rand G max_iter fuel s).
Proof.
  induction fuel as [|fuel IH]; intros s Hc Hr Hf; simpl;
    destruct (running max_iter s) eqn:E; try exact I.
  - unfold running in E. apply andb_prop in E. destruct E as [_ E].
    apply Z.ltb_lt in E. lia.
  - apply tame_bind; [apply restart_tame; assumption|].
    intros s' Hs'. apply IH.
    + apply (restart_controller_inv _ _ _ _ _ _ Hc E Hs').
    + apply (restart_run_inv _ _ _ _ _ _ Hr E Hs').
    + apply restart_iter in Hs'. unfold running in E.
      apply andb_prop in E. destruct E as [_ E]. apply Z.ltb_lt in E. lia.
Qed.

(** [fluidc_plus] always ends, and the only exceptions that can leave it
    are [ZeroDivisionError], [OverflowError] and [IndexError]: no lookup
    of a vertex, a label or a count misses its key, the scorer is never
    given [None], and the partition is there when the seeds are drawn.
    (The shuffle permutes the nodes, so its result has no repetition.) *)
Theorem only_arithmetic_errors nmi shuffle rand G k max_iter :
  NoDup (shuffle (keys G)) ->
  fluidc_plus nmi shuffle rand G k max_iter <> OutOfFuel
  /\ forall e,
       fluidc_plus nmi shuffle rand G k max_iter = Raise e ->
       e = ZeroDivisionError \/ e = OverflowError \/ e = IndexError.
Proof.
  intros Hnd.
  assert (H : tame (fluidc_plus nmi shuffle rand G k max_iter)).
  { unfold fluidc_plus, fluidc_plus_run. apply tame_bind; [|intros s _; exact I].
    apply restarts_tame;
      [apply controller_inv_init, Hnd | apply run_inv_init | simpl; lia]. }
  destruct (fluidc_plus nmi shuffle rand G k max_iter) as [r|e|];
    [split; [discriminate | intros e H'; discriminate] | | destruct H].
  split; [discriminate|]. intros e' He. injection He as <-.
  destruct e; simpl in H; try contradiction; auto.
Qed.

Lemma only_arithmetic_errors_witness :
  fluidc_plus zero_scorer no_shuffle first_draw ring4 2 5 <> OutOfFuel
  /\ forall e,
       fluidc_plus zero_scorer no_shuffle first_draw ring4 2 5 = Raise e ->
       e = ZeroDivisionError \/ e = OverflowError \/ e = IndexError.
Proof.
  apply (only_arithmetic_errors zero_scorer no_shuffle first_draw ring4 2 5).
  repeat constructor; simpl; intuition discriminate.
Defined.

(** ** No seed at all *)

Lemma sweep_unseeded G md vs : forall st cont,
  communities st = [] -> (forall v, In v vs -> In v (keys G)) ->
  sweep G md vs st cont = Ok (st, cont).
Proof.
  induction vs as [|v vs IH]; intros st cont Hc Hvs; simpl; [reflexivity|].
  unfold update_vertex.
  destruct (getitem_present G v (Hvs v (or_introl eq_refl))) as [nbrs ->].
  simpl. rewrite gather_unlabelled by (intros; rewrite Hc; reflexivity).
  simpl. rewrite orb_false_r. apply IH; [exact Hc|].
  intros v' Hv'. apply Hvs. right. exact Hv'.
Qed.

Lemma gate_total nmi s l :
  (iter s <> 0 -> old_communities s <> None) ->
  exists s1, gate nmi s l = Ok s1.
Proof.
  intros H. unfold gate. destruct (iter s =? 0) eqn:E; [eexists; reflexivity|].
  apply Z.eqb_neq in E. destruct (old_communities s) as [old|];
    [|destruct (H E); reflexivity].
  destruct (nmi l old <? min_NMI s)%float; eexists; reflexivity.
Qed.

Lemma restart_unseeded nmi rand G max_iter s :
  seed_set s = [] -> (iter s <> 0 -> old_communities s <> None) ->
  exists s',
    restart nmi rand G max_iter s = Ok s'
    /\ seed_set s' = [] /\ new_communities s' = Some []
    /\ old_communities s' <> None /\ iter s' = iter s + 1.
Proof.
  intros Hseed Hold. unfold restart, propagate, handed.
  rewrite Hseed. cbn [init_bookkeeping fold_left fst snd].
  unfold fluidc_modified_run, engine_fuel.
  rewrite (passes_stable _ G max_density (sorted_by_degree G) max_iter 0
             (mk_engine [] (shared_density s) (shared_com_to_numvertices s))
             (mk_engine [] (shared_density s) (shared_com_to_numvertices s))).
  2:{ apply sweep_unseeded; [reflexivity|]. intros v Hv.
      apply (Permutation_in _ (sorted_by_degree_perm G)), Hv. }
  cbn [bind]. unfold groups_of, nodes_color.
  cbn [communities _invert_dict fold_left values map color_groups bind
       density com_to_numvertices].
  match goal with
  | |- exists s', bind (gate nmi ?s0 ?l) _ = _ /\ _ =>
      destruct (gate_total nmi s0 l Hold) as [s1 Hg];
      pose proof (gate_shared _ _ _ _ Hg) as (_ & _ & Hs1 & Hn1 & _);
      pose proof (gate_iter _ _ _ _ Hg) as Hi1; rewrite Hg
  end.
  cbn [bind seed_set new_communities iter] in *.
  unfold reseed. rewrite Hn1. unfold reseeding. cbn [derive_fuel length concat
    Nat.add derive community_idx Nat.ltb Nat.leb bind].
  eexists. split; [reflexivity|]. cbn [seed_set new_communities
    old_communities iter next_seed_set].
  repeat split; try assumption; try discriminate. lia.
Qed.

Lemma restarts_unseeded nmi rand G max_iter : forall fuel s,
  seed_set s = [] -> (iter s <> 0 -> old_communities s <> None) ->
  (Z.to_nat (max_iter - iter s) <= fuel)%nat ->
  new_communities s = Some [] \/ running max_iter s = true ->
  exists s',
    restarts nmi rand G max_iter fuel s = Ok s'
    /\ new_communities s' = Some [].
Proof.
  induction fuel as [|fuel IH]; intros s Hseed Hold Hf Hnew; simpl;
    destruct (running max_iter s) eqn:E.
  - unfold running in E. apply andb_prop in E. destruct E as [_ E].
    apply Z.ltb_lt in E. lia.
  - exists s. destruct Hnew as [Hnew|Hnew]; [auto | discriminate].
  - destruct (restart_unseeded nmi rand G max_iter s Hseed Hold)
      as (s1 & -> & Hs1 & Hn1 & Ho1 & Hi1).
    simpl. apply IH; auto.
    unfold running in E. apply andb_prop in E. destruct E as [_ E].
    apply Z.ltb_lt in E. lia.
  - exists s. destruct Hnew as [Hnew|Hnew]; [auto | discriminate].
Qed.

(** With no vertex to seed ([k = 0], an empty graph, or a negative [k]
    that leaves none) and room for a restart, [fluidc_plus] raises nothing
    and returns the empty partition. *)
Theorem unseeded_run nmi shuffle rand G k max_iter :
  slice_to (shuffle (keys G)) k = [] -> 0 < max_iter ->
  fluidc_plus nmi shuffle rand G k max_iter = Ok (Some []).
Proof.
  intros Hk Hm. unfold fluidc_plus, fluidc_plus_run.
  destruct (restarts_unseeded nmi rand G max_iter (Z.to_nat max_iter)
              (init shuffle G k)) as (s' & -> & Hnew).
  - unfold init. simpl. rewrite Hk. reflexivity.
  - intros H. simpl in H. contradiction.
  - simpl. lia.
  - right. unfold running. simpl. apply Z.ltb_lt, Hm.
  - simpl. rewrite Hnew. reflexivity.
Qed.

Lemma unseeded_run_witness :
  fluidc_plus zero_scorer no_shuffle first_draw ring4 0 3 = Ok (Some []).
Proof.
  apply (unseeded_run zero_scorer no_shuffle first_draw ring4 0 3).
  - reflexivity.
  - lia.
Defined.

(** ** Vertex ids are list indices *)

Lemma engine_reaches_keys G md st st' :
  engine_reaches G md st st' ->
  incl (keys (communities st)) (keys (communities st')).
Proof.
  intros H.
  apply (engine_reaches_invariant G md
           (fun s => incl (keys (communities st)) (keys (communities s)))
           ) in H; [exact H | | apply incl_refl].
  intros s v s' ch Hk Hu. apply update_vertex_labels in Hu.
  eapply incl_tran; [exact Hk | apply Hu].
Qed.

Lemma labelled_in_groups (d : dict Z) v :
  In v (keys d) -> In v (concat (values (_invert_dict d))).
Proof.
  intros H. rewrite invert_dict_spec. unfold values. rewrite map_map. simpl.
  apply in_map_iff in H. destruct H as [[v' c] [Hv Hin]]. simpl in Hv.
  subst v'. apply in_concat. exists (members d c). split.
  - apply in_map, distinct_In. apply (in_map snd) in Hin. exact Hin.
  - apply In_members, Hin.
Qed.

(** A restart colours the vertices by writing at their ids in a list with
    one entry per node: when the engine returns and a seed, or any vertex
    labelled at the end, has an id outside [-len(nodes), len(nodes)), the
    restart raises [IndexError]. *)
Theorem vertex_ids_are_indices nmi rand G max_iter s est n v :
  fluidc_modified_run G (sorted_by_degree G) (seed_set s) (fst (handed s))
    max_density (snd (handed s)) max_iter = Ok (est, n) ->
  In v (keys (seed_set s)) \/ In v (keys (communities est)) ->
  v < - Z.of_nat (length G) \/ Z.of_nat (length G) <= v ->
  restart nmi rand G max_iter s = Raise IndexError.
Proof.
  intros Hrun Hv Hout.
  assert (Hv' : In v (keys (communities est))).
  { destruct Hv as [Hv|Hv]; [|exact Hv].
    unfold fluidc_modified_run in Hrun. apply passes_reaches in Hrun.
    apply (engine_reaches_keys _ _ _ _ Hrun). exact Hv. }
  unfold restart, propagate. fold (handed s). rewrite Hrun. cbn [bind].
  unfold nodes_color.
  destruct (color_groups_outcome (groups_of est)
              (repeat 0 (length G)) 0) as [_ Herr].
  rewrite repeat_length in Herr.
  rewrite (Herr v); [reflexivity | apply labelled_in_groups, Hv' | exact Hout].
Qed.

Lemma vertex_ids_are_indices_witness :
  restart zero_scorer first_draw [(0, [7]); (7, [0])] 5
    (init no_shuffle [(0, [7]); (7, [0])] 2)
  = Raise IndexError.
Proof.
  apply (vertex_ids_are_indices zero_scorer first_draw [(0, [7]); (7, [0])] 5
           (init no_shuffle [(0, [7]); (7, [0])] 2)
           (mk_engine [(0, 0); (7, 1)] [(0, 1%float); (1, 1%float)]
              [(0, 1); (1, 1)]) 1 7).
  - vm_compute. reflexivity.
  - left. simpl. auto.
  - right. simpl. lia.
Defined.

(** * [get_communities_from_synth] *)

Lemma list_remove_In l x y : In y (list_remove l x) -> In y l.
Proof.
  induction l as [|z l IH]; simpl; [intros []|].
  destruct (z =? x); [intros H; right; exact H|].
  intros [H|H]; [left; exact H | right; apply IH, H].
Qed.

Lemma list_remove_NoDup l x : NoDup l -> NoDup (list_remove l x).
Proof.
  induction 1 as [|z l Hz Hl IH]; simpl; [constructor|].
  destruct (z =? x); [exact Hl|]. constructor; [|exact IH].
  intros H. apply Hz. apply (list_remove_In _ _ _ H).
Qed.

Lemma list_remove_gone l x : NoDup l -> ~ In x (list_remove l x).
Proof.
  induction 1 as [|z l Hz Hl IH]; simpl; [intros []|].
  destruct (z =? x) eqn:E.
  - apply Z.eqb_eq in E. subst z. exact Hz.
  - apply Z.eqb_neq in E. intros [H|H]; [contradiction | apply IH, H].
Qed.

Lemma list_remove_length l x : (length (list_remove l x) <= length l)%nat.
Proof.
  induction l as [|z l IH]; simpl; [lia|].
  destruct (z =? x); simpl; lia.
Qed.

Lemma list_setitem_In l j x l' :
  list_setitem l j x = Ok l' -> forall y, In y l' -> y = x \/ In y l.
Proof.
  intros H y Hy.
  destruct (list_setitem_outcome l j x) as [Hok Herr].
  destruct (Z_le_lt_dec_range j (length l)) as [Hr|Hr].
  - destruct (Hok Hr) as (l1 & Hl1 & Hlen & Hnth).
    rewrite H in Hl1. injection Hl1 as <-.
    apply (In_nth _ _ 0) in Hy. destruct Hy as (q & Hq & <-).
    rewrite Hnth.
    match goal with |- context [if ?b then _ else _] => destruct b end;
      [left; reflexivity | right; apply nth_In; lia].
  - rewrite Herr in H by lia. discriminate.
Qed.

(** Colouring the members of a community that still wait: only their
    entries change, and they leave the waiting list. *)
Lemma claim_members_Ok new_community : forall nodes colors t,
  NoDup nodes ->
  (forall v, In v nodes -> 0 <= v < Z.of_nat (length colors)) ->
  exists nodes' colors',
    claim_members nodes colors t new_community = Ok (nodes', colors')
    /\ length colors' = length colors
    /\ NoDup nodes'
    /\ (forall v, In v nodes' -> In v nodes)
    /\ (length nodes' <= length nodes)%nat
    /\ (forall v, 0 <= v -> ~ In v nodes ->
                  nth (Z.to_nat v) colors' 0 = nth (Z.to_nat v) colors 0)
    /\ (forall x, In x colors' -> x = t \/ In x colors).
Proof.
  induction new_community as [|n rest IH]; intros nodes colors t Hnd Hr;
    simpl.
  - exists nodes, colors. repeat split; auto.
  - destruct (mem n nodes) eqn:E.
    + apply mem_In in E. pose proof (Hr n E) as Hn.
      destruct (list_setitem_outcome colors n t) as [Hok _].
      destruct Hok as (c1 & Hc1 & Hlen1 & Hnth1); [lia|]. rewrite Hc1.
      simpl.
      destruct (IH (list_remove nodes n) c1 t) as
        (nodes' & colors' & -> & Hlen & Hnd' & Hsub & Hle & Hkeep & Hcol).
      { apply list_remove_NoDup, Hnd. }
      { intros v Hv. rewrite Hlen1. apply Hr. apply (list_remove_In _ _ _ Hv). }
      exists nodes', colors'. split; [reflexivity|].
      split; [congruence|]. split; [exact Hnd'|].
      split; [intros v Hv; apply (list_remove_In _ n), Hsub, Hv|].
      split; [pose proof (list_remove_length nodes n); lia|].
      split.
      * intros v Hv0 Hv. rewrite Hkeep;
          [|exact Hv0 | intros H; apply Hv; apply (list_remove_In _ _ _ H)].
        rewrite Hnth1.
        replace (n <? 0) with false by (symmetry; apply Z.ltb_ge; lia).
        destruct (Nat.eqb (Z.to_nat v) (Z.to_nat n)) eqn:Eq; [|reflexivity].
        apply Nat.eqb_eq in Eq. exfalso. apply Hv.
        replace v with n by lia. exact E.
      * intros x Hx. destruct (Hcol x Hx) as [->|Hx1]; [left; reflexivity|].
        apply (list_setitem_In _ _ _ _ Hc1) in Hx1. exact Hx1.
    + apply (IH nodes colors t Hnd Hr).
Qed.

Lemma synth_loop_Ok community : forall fuel nodes colors t,
  (length nodes <= fuel)%nat ->
  NoDup nodes ->
  (forall v, In v nodes ->
             0 <= v < Z.of_nat (length colors) /\ In v (keys community)) ->
  0 <= t ->
  (forall c, 0 <= c < t ->
             exists v, 0 <= v < Z.of_nat (length colors) /\ ~ In v nodes
                       /\ nth (Z.to_nat v) colors 0 = c) ->
  (forall x, In x colors -> 0 <= x <= Z.max 0 (t - 1)) ->
  exists colors' k,
    synth_loop fuel community nodes colors t = Ok (colors', k)
    /\ length colors' = length colors
    /\ (nodes = [] -> k = t - 1)
    /\ (nodes <> [] -> t <= k)
    /\ (forall c, 0 <= c <= k -> In c colors')
    /\ (forall x, In x colors' -> 0 <= x <= Z.max 0 k).
Proof.
  induction fuel as [|fuel IH]; intros nodes colors t Hf Hnd Hr Ht Hwit Hcol.
  - destruct nodes as [|v nodes]; [|simpl in Hf; lia]. simpl.
    exists colors, (t - 1). split; [reflexivity|]. split; [reflexivity|].
    split; [reflexivity|]. split; [intros H; contradiction|].
    split; [|exact Hcol].
    intros c Hc. destruct (Hwit c) as (v & Hv & _ & <-); [lia|].
    apply nth_In. lia.
  - destruct nodes as [|cur nodes].
    + simpl. exists colors, (t - 1). split; [reflexivity|].
      split; [reflexivity|]. split; [reflexivity|].
      split; [intros H; contradiction|]. split; [|exact Hcol].
      intros c Hc. destruct (Hwit c) as (v & Hv & _ & <-); [lia|].
      apply nth_In. lia.
    + simpl. inversion Hnd as [|? ? Hcur Hnd']; subst.
      destruct (Hr cur (or_introl eq_refl)) as [Hcr Hck].
      destruct (getitem_present community cur Hck) as [comm ->]. simpl.
      destruct (claim_members_Ok comm nodes colors t Hnd') as
        (nodes' & c1 & -> & Hlen1 & Hnd1 & Hsub & Hle & Hkeep & Hcol1).
      { intros v Hv. apply Hr. right. exact Hv. }
      simpl. destruct (list_setitem_outcome c1 cur t) as [Hok _].
      destruct Hok as (c2 & Hc2 & Hlen2 & Hnth2); [lia|]. rewrite Hc2.
      simpl.
      replace (cur <? 0) with false in Hnth2
        by (symmetry; apply Z.ltb_ge; lia).
      assert (Hcur' : ~ In cur nodes') by (intros H; apply Hcur, Hsub, H).
      destruct (IH nodes' c2 (t + 1)) as
        (colors' & k & -> & Hlen & Hk0 & Hk1 & Hall & Hrange).
      * simpl in Hf. lia.
      * exact Hnd1.
      * intros v Hv. rewrite Hlen2, Hlen1. apply Hr. right. apply Hsub, Hv.
      * lia.
      * intros c Hc. rewrite Hlen2, Hlen1.
        destruct (Z.eq_dec c t) as [->|Hne].
        -- exists cur. split; [lia|]. split; [exact Hcur'|].
           rewrite Hnth2, Nat.eqb_refl. reflexivity.
        -- destruct (Hwit c) as (v & Hv & Hvn & Hvc); [lia|].
           exists v. split; [exact Hv|]. split.
           ++ intros H. apply Hvn. right. apply Hsub, H.
           ++ rewrite Hnth2.
              destruct (Nat.eqb (Z.to_nat v) (Z.to_nat cur)) eqn:Eq.
              ** apply Nat.eqb_eq in Eq. exfalso. apply Hvn. left. lia.
              ** rewrite Hkeep; [exact Hvc | lia |].
                 intros H. apply Hvn. right. exact H.
      * intros x Hx. apply (list_setitem_In _ _ _ _ Hc2) in Hx.
        destruct Hx as [->|Hx]; [lia|].
        destruct (Hcol1 x Hx) as [->|Hx']; [lia|].
        specialize (Hcol x Hx'). lia.
      * exists colors', k. split; [reflexivity|].
        split; [congruence|]. split; [discriminate|].
        split; [intros _; destruct nodes' as [|v' ns];
                  [specialize (Hk0 eq_refl); lia
                  | assert (t + 1 <= k) by (apply Hk1; discriminate); lia]|].
        split; [exact Hall | exact Hrange].
Qed.

(** On nodes [0 .. n-1], each with its community list,
    [get_communities_from_synth] colours every node and raises nothing.
    The colours it uses are exactly [0 .. k] where [k] is the number it
    returns as the count of communities: one less than the number of
    colours, and [-1] on an empty graph. *)
Theorem synthetic_communities (community : dict (list Z)) :
  NoDup (keys community) ->
  (forall v, In v (keys community) ->
             0 <= v < Z.of_nat (length community)) ->
  exists communities_color k,
    get_communities_from_synth community = Ok (communities_color, k)
    /\ length communities_color = length community
    /\ (community = [] -> k = -1)
    /\ (community <> [] -> 0 <= k)
    /\ (forall c, 0 <= c <= k -> In c communities_color)
    /\ (forall x, In x communities_color -> 0 <= x <= Z.max 0 k).
Proof.
  intros Hnd Hr. unfold get_communities_from_synth.
  destruct (synth_loop_Ok community (length community) (keys community)
              (repeat 0 (length community)) 0)
    as (colors & k & -> & Hlen & Hk0 & Hk1 & Hall & Hrange).
  - unfold keys. rewrite length_map. lia.
  - exact Hnd.
  - intros v Hv. rewrite repeat_length. split; [apply Hr, Hv | exact Hv].
  - lia.
  - intros c Hc. lia.
  - intros x Hx. apply repeat_spec in Hx. subst x. lia.
  - exists colors, k. rewrite repeat_length in Hlen.
    split; [reflexivity|]. split; [exact Hlen|].
    split; [intros ->; apply Hk0; reflexivity|].
    split; [|split; assumption].
    intros Hne. apply Hk1. destruct community; [contradiction | discriminate].
Qed.

Lemma synthetic_communities_witness :
  exists communities_color k,
    get_communities_from_synth
      [(0, [0; 2]); (1, [1; 3]); (2, [0; 2]); (3, [1; 3])]
    = Ok (communities_color, k)
    /\ length communities_color
       = length [(0, [0; 2]); (1, [1; 3]); (2, [0; 2]); (3, [1; 3])]
    /\ ([(0, [0; 2]); (1, [1; 3]); (2, [0; 2]); (3, [1; 3])] = [] -> k = -1)
    /\ ([(0, [0; 2]); (1, [1; 3]); (2, [0; 2]); (3, [1; 3])] <> [] -> 0 <= k)
    /\ (forall c, 0 <= c <= k -> In c communities_color)
    /\ (forall x, In x communities_color -> 0 <= x <= Z.max 0 k).
Proof.
  apply (synthetic_communities
           [(0, [0; 2]); (1, [1; 3]); (2, [0; 2]); (3, [1; 3])]).
  - repeat constructor; simpl; intuition discriminate.
  - simpl. intros v Hv. intuition lia.
Defined.

(** * [gt_loader] *)

Lemma Forall2_nth_both {A B} (R : A -> B -> Prop) l l' :
  Forall2 R l l' ->
  forall i d d', (i < length l)%nat -> R (nth i l d) (nth i l' d').
Proof.
  induction 1 as [|x y l l' Hxy Hl IH]; intros i d d' Hi; simpl in Hi;
    [lia|].
  destruct i as [|i]; simpl; [exact Hxy | apply IH; lia].
Qed.

(** When every pass of the loop appends the one value [f i], a loop that
    ends has appended the values of [f] along the range, in order. *)
Lemma gt_loop_collect nodes name (f : Z -> outcome value) :
  (forall gt i, gt_step nodes name gt i = (x <- f i ;; Ok (gt ++ [x]))) ->
  forall range gt gt',
    gt_loop nodes name gt range = Ok gt' ->
    exists xs, gt' = gt ++ xs /\ Forall2 (fun i x => f i = Ok x) range xs.
Proof.
  intros Hstep. induction range as [|i rest IH]; intros gt gt' H; simpl in H.
  - injection H as <-. exists []. rewrite app_nil_r. split; constructor.
  - rewrite Hstep in H. destruct (f i) as [x| |] eqn:Ef; simpl in H;
      try discriminate.
    destruct (IH _ _ H) as (xs & -> & Hxs).
    exists (x :: xs). rewrite <- app_assoc. split; [reflexivity|].
    constructor; assumption.
Qed.

Lemma gt_loader_collect nodes name (f : Z -> outcome value) :
  (forall gt i, gt_step nodes name gt i = (x <- f i ;; Ok (gt ++ [x]))) ->
  forall gt,
    gt_loader nodes name = Ok gt ->
    length gt = length nodes
    /\ forall i d, (i < length nodes)%nat -> f (Z.of_nat i) = Ok (nth i gt d).
Proof.
  intros Hstep gt H. unfold gt_loader in H.
  destruct (gt_loop_collect nodes name f Hstep _ _ _ H) as (xs & -> & Hxs).
  simpl. pose proof (Forall2_length Hxs) as Hlen.
  rewrite length_map, length_seq in Hlen. split; [lia|].
  intros i d Hi.
  pose proof (Forall2_nth_both _ _ _ Hxs i 0 d) as Hn. cbv beta in Hn.
  rewrite length_map, length_seq in Hn. specialize (Hn Hi).
  rewrite (map_nth Z.of_nat _ 0%nat), seq_nth in Hn by exact Hi.
  exact Hn.
Qed.

(** For a name that is none of the five known graphs [gt_loader] raises
    nothing and looks at no node: it returns an empty ground truth,
    whatever the graph. *)
Theorem gt_loader_unknown_name (nodes : dict attributes) (name : string) :
  name <> "karate"%string -> name <> "dolphins"%string ->
  name <> "football"%string -> name <> "citeseer"%string ->
  name <> "polbooks"%string ->
  gt_loader nodes name = Ok [].
Proof.
  intros H1 H2 H3 H4 H5.
  apply String.eqb_neq in H1, H2, H3, H4, H5.
  assert (Hstep : forall gt i, gt_step nodes name gt i = Ok gt).
  { intros gt i. unfold gt_step. rewrite H1, H2, H3, H4, H5. reflexivity. }
  unfold gt_loader. generalize (map Z.of_nat (seq 0 (length nodes))).
  induction l as [|i rest IH]; simpl; [reflexivity|].
  rewrite Hstep. simpl. exact IH.
Qed.

Lemma gt_loader_unknown_name_witness :
  gt_loader [(0, [("club"%string, VStr "Officer")])] "Karate" = Ok [].
Proof.
  apply gt_loader_unknown_name; discriminate.
Defined.

(** A ground truth loaded for ["karate"] has one entry per node, and
    node [i] carries the club ["Officer"], entered as [0], or ["Mr. Hi"],
    entered as [1]. *)
Theorem gt_loader_karate (nodes : dict attributes) (gt : list value) :
  gt_loader nodes "karate" = Ok gt ->
  length gt = length nodes
  /\ forall i d, (i < length nodes)%nat ->
       (node_attr nodes (Z.of_nat i) "club" = Ok (VStr "Officer")
        /\ nth i gt d = VInt 0)
       \/ (node_attr nodes (Z.of_nat i) "club" = Ok (VStr "Mr. Hi")
           /\ nth i gt d = VInt 1).
Proof.
  intros H.
  destruct (gt_loader_collect nodes "karate"
    (fun i => gt_com <- node_attr nodes i "club" ;;
              match gt_com with
              | VStr s =>
                  if String.eqb s "Officer" then Ok (VInt 0)
                  else if String.eqb s "Mr. Hi" then Ok (VInt 1)
                  else Raise ValueError
              | VInt _ => Raise ValueError
              end)) with (gt := gt) as [Hlen Hnth]; [|exact H|].
  - intros g i. unfold gt_step.
    change (String.eqb "karate" "karate") with true. cbv iota.
    destruct (node_attr nodes i "club") as [[s|n]| |]; simpl; try reflexivity.
    destruct (String.eqb s "Officer"); [reflexivity|].
    destruct (String.eqb s "Mr. Hi"); reflexivity.
  - split; [exact Hlen|]. intros i d Hi. specialize (Hnth i d Hi).
    cbv beta in Hnth.
    destruct (node_attr nodes (Z.of_nat i) "club") as [[s|n]| |];
      simpl in Hnth; try discriminate.
    destruct (String.eqb s "Officer") eqn:E1.
    + apply String.eqb_eq in E1. subst s. left. split; congruence.
    + destruct (String.eqb s "Mr. Hi") eqn:E2; [|discriminate].
      apply String.eqb_eq in E2. subst s. right. split; congruence.
Qed.

Lemma gt_loader_karate_witness :
  let nodes := [(0, [("club"%string, VStr "Mr. Hi")]);
                (1, [("club"%string, VStr "Officer")])] in
  length [VInt 1; VInt 0] = length nodes
  /\ forall i d, (i < length nodes)%nat ->
       (node_attr nodes (Z.of_nat i) "club" = Ok (VStr "Officer")
        /\ nth i [VInt 1; VInt 0] d = VInt 0)
       \/ (node_attr nodes (Z.of_nat i) "club" = Ok (VStr "Mr. Hi")
           /\ nth i [VInt 1; VInt 0] d = VInt 1).
Proof.
  apply (gt_loader_karate
           [(0, [("club"%string, VStr "Mr. Hi")]);
            (1, [("club"%string, VStr "Officer")])]).
  reflexivity.
Defined.

(** A ground truth loaded for ["polbooks"] has one entry per node, and
    node [i] carries the value ["n"], ["c"] or ["l"], entered as [0], [1]
    or [2]. *)
Theorem gt_loader_polbooks (nodes : dict attributes) (gt : list value) :
  gt_loader nodes "polbooks" = Ok gt ->
  length gt = length nodes
  /\ forall i d, (i < length nodes)%nat ->
       (node_attr nodes (Z.of_nat i) "value" = Ok (VStr "n")
        /\ nth i gt d = VInt 0)
       \/ (node_attr nodes (Z.of_nat i) "value" = Ok (VStr "c")
           /\ nth i gt d = VInt 1)
       \/ (node_attr nodes (Z.of_nat i) "value" = Ok (VStr "l")
           /\ nth i gt d = VInt 2).
Proof.
  intros H.
  destruct (gt_loader_collect nodes "polbooks"
    (fun i => gt_com <- node_attr nodes i "value" ;;
              match gt_com with
              | VStr s =>
                  if String.eqb s "n" then Ok (VInt 0)
                  else if String.eqb s "c" then Ok (VInt 1)
                  else if String.eqb s "l" then Ok (VInt 2)
                  else Raise ValueError
              | VInt _ => Raise ValueError
              end)) with (gt := gt) as [Hlen Hnth]; [|exact H|].
  - intros g i. unfold gt_step.
    change (String.eqb "polbooks" "karate") with false.
    change (String.eqb "polbooks" "dolphins") with false.
    change (String.eqb "polbooks" "football") with false.
    change (String.eqb "polbooks" "citeseer") with false.
    change (String.eqb "polbooks" "polbooks") with true. cbv iota.
    destruct (node_attr nodes i "value") as [[s|n]| |]; simpl;
      try reflexivity.
    destruct (String.eqb s "n"); [reflexivity|].
    destruct (String.eqb s "c"); [reflexivity|].
    destruct (String.eqb s "l"); reflexivity.
  - split; [exact Hlen|]. intros i d Hi. specialize (Hnth i d Hi).
    cbv beta in Hnth.
    destruct (node_attr nodes (Z.of_nat i) "value") as [[s|n]| |];
      simpl in Hnth; try discriminate.
    destruct (String.eqb s "n") eqn:E1.
    { apply String.eqb_eq in E1. subst s. left. split; congruence. }
    destruct (String.eqb s "c") eqn:E2.
    { apply String.eqb_eq in E2. subst s. right. left. split; congruence. }
    destruct (String.eqb s "l") eqn:E3; [|discriminate].
    apply String.eqb_eq in E3. subst s. right. right. split; congruence.
Qed.

Lemma gt_loader_polbooks_witness :
  let nodes := [(0, [("value"%string, VStr "l")]);
                (1, [("value"%string, VStr "n")]);
                (2, [("value"%string, VStr "c")])] in
  length [VInt 2; VInt 0; VInt 1] = length nodes
  /\ forall i d, (i < length nodes)%nat ->
       (node_attr nodes (Z.of_nat i) "value" = Ok (VStr "n")
        /\ nth i [VInt 2; VInt 0; VInt 1] d = VInt 0)
       \/ (node_attr nodes (Z.of_nat i) "value" = Ok (VStr "c")
           /\ nth i [VInt 2; VInt 0; VInt 1] d = VInt 1)
       \/ (node_attr nodes (Z.of_nat i) "value" = Ok (VStr "l")
           /\ nth i [VInt 2; VInt 0; VInt 1] d = VInt 2).
Proof.
  apply (gt_loader_polbooks
           [(0, [("value"%string, VStr "l")]);
            (1, [("value"%string, VStr "n")]);
            (2, [("value"%string, VStr "c")])]).
  reflexivity.
Defined.

(** For ["dolphins"], ["football"] and ["citeseer"] a loaded ground truth
    has one entry per node, and the entry of node [i] is its ["group"],
    ["value"] or ["community"] attribute as it stands: nothing is
    converted. *)
Theorem gt_loader_copies (nodes : dict attributes) (name key : string)
  (gt : list value) :
  (name = "dolphins"%string /\ key = "group"%string)
  \/ (name = "football"%string /\ key = "value"%string)
  \/ (name = "citeseer"%string /\ key = "community"%string) ->
  gt_loader nodes name = Ok gt ->
  length gt = length nodes
  /\ forall i d, (i < length nodes)%nat ->
       node_attr nodes (Z.of_nat i) key = Ok (nth i gt d).
Proof.
  intros Hname H.
  destruct (gt_loader_collect nodes name (fun i => node_attr nodes i key))
    with (gt := gt) as [Hlen Hnth]; [|exact H|].
  - intros g i.
    destruct Hname as [[-> ->]|[[-> ->]|[-> ->]]]; unfold gt_step.
    + change (String.eqb "dolphins" "karate") with false.
      change (String.eqb "dolphins" "dolphins") with true. reflexivity.
    + change (String.eqb "football" "karate") with false.
      change (String.eqb "football" "dolphins") with false.
      change (String.eqb "football" "football") with true. reflexivity.
    + change (String.eqb "citeseer" "karate") with false.
      change (String.eqb "citeseer" "dolphins") with false.
      change (String.eqb "citeseer" "football") with false.
      change (String.eqb "citeseer" "citeseer") with true. reflexivity.
  - split; [exact Hlen|]. intros i d Hi. exact (Hnth i d Hi).
Qed.

Lemma gt_loader_copies_witness :
  let nodes := [(0, [("value"%string, VInt 7)]);
                (1, [("value"%string, VStr "x")])] in
  length [VInt 7; VStr "x"] = length nodes
  /\ forall i d, (i < length nodes)%nat ->
       node_attr nodes (Z.of_nat i) "value" = Ok (nth i [VInt 7; VStr "x"] d).
Proof.
  apply (gt_loader_copies
           [(0, [("value"%string, VInt 7)]); (1, [("value"%string, VStr "x")])]
           "football" "value").
  - right. left. split; reflexivity.
  - reflexivity.
Defined.
